(** * Verification of the trace pipeline (package [internal/trace])

    A shallow embedding of [trace.go]: the bounded channel [buffer] and the
    middleware's non-blocking send, the worker loop [startWorker] with its
    reused batch slice, the flush goroutine with retry and chunking, and the
    default trace ID generator.

    Conventions.
    - Go's [int], [int64] and [time.Duration] are [Z]; the one product the
      code computes on a configured value ([batchSize*2]) wraps at 64 bits.
    - Slice lengths, indices and capacities of allocated storage are [nat].
    - Go strings are byte strings: [string] here (a list of 8-bit [ascii]).
    - Slices are descriptors into a heap of backing arrays, because the worker
      re-slices [buf[:0]] and keeps appending into the array it handed out. *)

From Stdlib Require Import ZArith Lia Ascii String.
From stdpp Require Import base list strings.

Local Open Scope Z_scope.

(** ** Data model *)

(** [type Step struct] *)
Record Step := {
  TraceID : string;
  UserID : string;
  Path : string;
  Method : string;
  StatusCode : Z;
  LatencyMs : Z;
  IP : string;
  UserAgent : string;
  CreatedAt : Z
}.

(** The zero value [Step{}], which fills freshly made backing arrays. *)
Definition zeroStep : Step :=
  {| TraceID := EmptyString; UserID := EmptyString; Path := EmptyString;
     Method := EmptyString; StatusCode := 0; LatencyMs := 0;
     IP := EmptyString; UserAgent := EmptyString; CreatedAt := 0 |}.

(** 64-bit two's complement wrap-around of Go's [int]. *)
Definition wrap64 (z : Z) : Z := (z + 2 ^ 63) mod 2 ^ 64 - 2 ^ 63.

(** [time.Second], in nanoseconds. *)
Definition Second : Z := 1000000000.

(** ** The storage collaborator

    [*gorm.DB] is outside the package.  It is modelled by what the package
    observes of it: whether [DB()] and [AutoMigrate] fail, and, for the
    [n]-th call of [CreateInBatches] (counted from 0), whether that call
    returns nil, returns an error or panics.  Rows of successful calls are
    kept in arrival order. *)

Inductive DBResult :=
  | DbOk
  | DbErr (e : string)
  | DbPanic (v : string).

Record GormDB := {
  db_sql_err : option string;        (* error of cfg.DB.DB() *)
  db_migrate_err : option string;    (* error of cfg.DB.AutoMigrate(&Step{}) *)
  db_oracle : nat -> list Step -> DBResult;
  db_calls : nat;                    (* CreateInBatches calls made so far *)
  db_rows : list Step                (* rows persisted so far *)
}.

(** [db.CreateInBatches(batch, batchSize)]: one call on the collaborator. *)
Definition CreateInBatches (db : GormDB) (batch : list Step) (batchSize : nat)
  : GormDB * DBResult :=
  let r := db_oracle db (db_calls db) batch in
  ({| db_sql_err := db_sql_err db;
      db_migrate_err := db_migrate_err db;
      db_oracle := db_oracle db;
      db_calls := S (db_calls db);
      db_rows := match r with DbOk => db_rows db ++ batch | _ => db_rows db end |},
   r).

(** [type Config struct] *)
Record Config := {
  DB : GormDB;
  FlushInterval : Z;
  BatchSize : Z;
  BufferSize : Z;
  MaxOpenConn : Z;
  MaxIdleConn : Z;
  ConnMaxLifetime : Z
}.

(** ** The channel [buffer] and the middleware's send *)

(** A made channel: capacity, queued records (head is the oldest), and the
    closed flag.  The package variable [buffer] is [None] while it is nil. *)
Record chan := {
  ch_cap : nat;
  ch_queue : list Step;
  ch_closed : bool
}.

(** [make(chan Step, n)]: panics for a negative size. *)
Definition makechan (n : Z) : option chan :=
  if n <? 0 then None
  else Some {| ch_cap := Z.to_nat n; ch_queue := []; ch_closed := false |}.

Inductive SendOutcome :=
  | SendBuffered     (* the send case ran: record queued *)
  | SendHandoff      (* the send case ran: unbuffered, record passed to the
                        parked receiver *)
  | SendDefault      (* the default case ran: record dropped *)
  | SendPanic.       (* send on closed channel *)

(** [select { case buffer <- step: default: }], lines 174-179.

    [parked] tells whether the worker is parked in its own [select] on
    [<-buffer] at this instant.  A nil channel is never ready, so the
    default case runs.  A closed channel panics.  With room in the queue the
    record is queued (the runtime's direct copy to a parked receiver of a
    buffered channel is the same as queueing and receiving at once).  An
    unbuffered channel has no room ever: its send runs only when the
    receiver is parked, and hands the record over.  Otherwise the default
    case runs. *)
Definition select_send_default (parked : bool) (b : option chan) (s : Step)
  : SendOutcome * option chan :=
  match b with
  | None => (SendDefault, None)
  | Some c =>
      if ch_closed c then (SendPanic, Some c)
      else if (length (ch_queue c) <? ch_cap c)%nat then
        (SendBuffered,
         Some {| ch_cap := ch_cap c; ch_queue := ch_queue c ++ [s];
                 ch_closed := ch_closed c |})
      else if parked && (ch_cap c =? 0)%nat then (SendHandoff, Some c)
      else (SendDefault, Some c)
  end.

Inductive RecvOutcome :=
  | RecvValue (s : Step)   (* log, ok = s, true *)
  | RecvClosed             (* ok = false: closed and drained *)
  | RecvBlocked.           (* nothing to receive: the case is not ready *)

(** [log, ok := <-buffer] as a case of the worker's [select]. *)
Definition chanrecv (b : option chan) : RecvOutcome * option chan :=
  match b with
  | None => (RecvBlocked, None)
  | Some c =>
      match ch_queue c with
      | s :: q =>
          (RecvValue s,
           Some {| ch_cap := ch_cap c; ch_queue := q; ch_closed := ch_closed c |})
      | [] => if ch_closed c then (RecvClosed, Some c) else (RecvBlocked, Some c)
      end
  end.

(** [close(buffer)]: the shutdown signal.  No function of the package issues
    it; it is the event the worker's [!ok] branch answers. *)
Definition closechan (b : option chan) : option (option chan) :=
  match b with
  | None => None                                  (* close of nil channel panics *)
  | Some c =>
      if ch_closed c then None                    (* close of closed channel panics *)
      else Some (Some {| ch_cap := ch_cap c; ch_queue := ch_queue c;
                         ch_closed := true |})
  end.

(** ** The flush goroutine: chunking and retry *)

(** The error value built by [fmt.Errorf] at line 256, kept structured:
    ["failed to create batch %d-%d (attempt %d): %v"]. *)
Record FlushError := {
  fe_first : nat;       (* i *)
  fe_last : nat;        (* end-1 *)
  fe_attempt : nat;
  fe_cause : string
}.

(** What a flush goroutine does that is visible outside it, in order. *)
Inductive Event :=
  | EvCreate (batch : list Step) (batchSize : nat) (r : DBResult)
  | EvSleep (d : Z)                               (* time.Sleep(d) *)
  | EvLogFailed (attempts : nat) (err : FlushError)
  | EvLogSuccess (n : nat)
  | EvLogPanic (v : string).

(** How a call ends.  [Unfinished] is the model's own: the loop bound of the
    embedding ran out; [flushWithRetry_finishes] shows it never happens. *)
Inductive Completion (A : Type) :=
  | Returned (a : A)
  | Panicking (v : string)
  | Unfinished.
Arguments Returned {A} a.
Arguments Panicking {A} v.
Arguments Unfinished {A}.

(** Literal [500] of line 248. *)
Definition maxChunkSize : nat := 500.

(** The [for i := 0; i < len(logs); i += batchSize] loop of lines 251-258,
    entered at index [i]. *)
Fixpoint chunk_loop (fuel : nat) (db : GormDB) (logs : list Step)
    (batchSize i attempt : nat)
  : GormDB * list Event * Completion (option FlushError) :=
  if (length logs <=? i)%nat then (db, [], Returned None)
  else
    match fuel with
    | O => (db, [], Unfinished)
    | S fuel' =>
        let end_ := Nat.min (i + batchSize) (length logs) in
        let batch := take (end_ - i) (drop i logs) in          (* logs[i:end] *)
        let '(db1, r) := CreateInBatches db batch batchSize in
        match r with
        | DbOk =>
            let '(db2, evs, c) :=
              chunk_loop fuel' db1 logs batchSize (i + batchSize) attempt in
            (db2, EvCreate batch batchSize r :: evs, c)
        | DbErr e =>
            (db1, [EvCreate batch batchSize r],
             Returned (Some {| fe_first := i; fe_last := end_ - 1;
                               fe_attempt := attempt; fe_cause := e |}))
        | DbPanic v => (db1, [EvCreate batch batchSize r], Panicking v)
        end
    end.

(** [func flushWithRetry(db, logs, attempt) error], lines 246-261. *)
Definition flushWithRetry (db : GormDB) (logs : list Step) (attempt : nat)
  : GormDB * list Event * Completion (option FlushError) :=
  let batchSize := Nat.min maxChunkSize (length logs) in
  chunk_loop (length logs) db logs batchSize 0 attempt.

(** [maxRetries := 3], line 227. *)
Definition maxRetries : nat := 3.

(** The [for attempt := 1; attempt <= maxRetries; attempt++] loop of lines
    228-241, entered at [attempt]. *)
Fixpoint retry_loop (fuel : nat) (db : GormDB) (logs : list Step) (attempt : nat)
  : GormDB * list Event * Completion unit :=
  if (maxRetries <? attempt)%nat then (db, [], Returned tt)
  else
    match fuel with
    | O => (db, [], Unfinished)
    | S fuel' =>
        let '(db1, evs, c) := flushWithRetry db logs attempt in
        match c with
        | Returned (Some err) =>
            if (attempt =? maxRetries)%nat then
              (db1, evs ++ [EvLogFailed maxRetries err], Returned tt)
            else
              let '(db2, evs2, c2) := retry_loop fuel' db1 logs (attempt + 1) in
              (db2, evs ++ EvSleep (Z.of_nat attempt * Second) :: evs2, c2)
        | Returned None =>
            (db1, evs ++ [EvLogSuccess (length logs)], Returned tt)
        | Panicking v => (db1, evs, Panicking v)
        | Unfinished => (db1, evs, Unfinished)
        end
    end.

(** The body of the goroutine of lines 219-242 without its deferred call. *)
Definition flush_body (db : GormDB) (logs : list Step)
  : GormDB * list Event * Completion unit :=
  retry_loop maxRetries db logs 1.

(** The goroutine with its [defer func() { if r := recover(); ... }()]:
    a panic unwinding out of the body is recovered and logged, and the
    goroutine returns normally. *)
Definition flush_goroutine (db : GormDB) (logs : list Step)
  : GormDB * list Event * Completion unit :=
  let '(db1, evs, c) := flush_body db logs in
  match c with
  | Panicking v => (db1, evs ++ [EvLogPanic v], Returned tt)
  | _ => (db1, evs, c)
  end.

(** ** Slices over shared backing arrays *)

(** A slice header; every slice of the worker starts at index 0 of its
    array ([make], [append] and [buf[:0]] keep the base pointer). *)
Record slice := {
  sl_arr : nat;      (* which backing array *)
  sl_len : nat;
  sl_cap : nat
}.

(** The heap: backing arrays by allocation number. *)
Abbreviation heap := (list (list Step)).

(** The elements a slice denotes right now. *)
Definition slice_read (h : heap) (sl : slice) : list Step :=
  take (sl_len sl) (default [] (h !! sl_arr sl)).

(** [make([]Step, 0, n)]: panics for a negative capacity.  Running out of
    memory is not modelled. *)
Definition makeslice (h : heap) (n : Z) : option (heap * slice) :=
  if n <? 0 then None
  else Some (h ++ [replicate (Z.to_nat n) zeroStep],
             {| sl_arr := length h; sl_len := 0; sl_cap := Z.to_nat n |}).

(** Capacity chosen when [append] must reallocate.  The runtime's exact
    growth rule is its own; all that matters here is that the new array
    has room for the element. *)
Definition growcap (old : nat) : nat := Nat.max (old + 1) (2 * old).

(** [append(sl, v)]: writes in place when there is room, whoever else holds
    a slice of the same array; otherwise copies into a fresh array. *)
Definition append (h : heap) (sl : slice) (v : Step) : heap * slice :=
  if (sl_len sl <? sl_cap sl)%nat then
    (alter (fun a => <[sl_len sl := v]> a) (sl_arr sl) h,
     {| sl_arr := sl_arr sl; sl_len := S (sl_len sl); sl_cap := sl_cap sl |})
  else
    let c := growcap (sl_cap sl) in
    (h ++ [slice_read h sl ++ v :: replicate (c - S (sl_len sl)) zeroStep],
     {| sl_arr := length h; sl_len := S (sl_len sl); sl_cap := c |}).

(** [sl[:0]] *)
Definition reslice0 (sl : slice) : slice :=
  {| sl_arr := sl_arr sl; sl_len := 0; sl_cap := sl_cap sl |}.

(** ** SHA-256, hex encoding and the default trace ID generator

    [crypto/sha256.Sum256] and [encoding/hex.EncodeToString] are standard
    library functions; they are written out (FIPS 180-4) so that trace IDs
    can be computed.  Words are [Z] in [0, 2^32). *)

Module Sha256.

Definition w32 (z : Z) : Z := z mod 2 ^ 32.

Definition rotr (n x : Z) : Z :=
  Z.lor (Z.shiftr x n) (w32 (Z.shiftl x (32 - n))).

Definition not32 (x : Z) : Z := Z.lxor x 0xffffffff.

Definition Ch (x y z : Z) : Z := Z.lxor (Z.land x y) (Z.land (not32 x) z).

Definition Maj (x y z : Z) : Z :=
  Z.lxor (Z.lxor (Z.land x y) (Z.land x z)) (Z.land y z).

Definition bsig0 (x : Z) : Z := Z.lxor (Z.lxor (rotr 2 x) (rotr 13 x)) (rotr 22 x).
Definition bsig1 (x : Z) : Z := Z.lxor (Z.lxor (rotr 6 x) (rotr 11 x)) (rotr 25 x).
Definition ssig0 (x : Z) : Z := Z.lxor (Z.lxor (rotr 7 x) (rotr 18 x)) (Z.shiftr x 3).
Definition ssig1 (x : Z) : Z := Z.lxor (Z.lxor (rotr 17 x) (rotr 19 x)) (Z.shiftr x 10).

(** The constants are defined as in the standard, from the first primes:
    the first 32 bits of the fractional part of the cube root (round
    constants) and of the square root (initial hash value). *)
Definition is_prime (n : nat) : bool :=
  (1 <? n)%nat && forallb (fun d => negb (n mod d =? 0)%nat) (seq 2 (n - 2)).

Definition primes : list Z :=
  Eval vm_compute in map Z.of_nat (take 64 (filter is_prime (seq 2 400))).

(** Integer cube root by bisection: the invariant is [lo^3 <= n < hi^3]. *)
Fixpoint cbrt_between (fuel : nat) (lo hi n : Z) : Z :=
  match fuel with
  | O => lo
  | S fuel' =>
      let mid := (lo + hi) / 2 in
      if mid * mid * mid <=? n then cbrt_between fuel' mid hi n
      else cbrt_between fuel' lo mid n
  end.

Definition frac_cbrt (p : Z) : Z := w32 (cbrt_between 40 0 (2 ^ 35) (p * 2 ^ 96)).
Definition frac_sqrt (p : Z) : Z := w32 (Z.sqrt (p * 2 ^ 64)).

Definition K : list Z := Eval vm_compute in map frac_cbrt primes.

(** The eight working words. *)
Record regs := Regs { ra : Z; rb : Z; rc : Z; rd : Z; re : Z; rf : Z; rg : Z; rh : Z }.

Definition H0 : regs :=
  Eval vm_compute in
    match map frac_sqrt (take 8 primes) with
    | [a; b; c; d; e; f; g; h] => Regs a b c d e f g h
    | _ => Regs 0 0 0 0 0 0 0 0
    end.

(** Big-endian word of four bytes, and back. *)
Definition be32 (b0 b1 b2 b3 : Z) : Z :=
  Z.lor (Z.lor (Z.shiftl b0 24) (Z.shiftl b1 16)) (Z.lor (Z.shiftl b2 8) b3).

Definition bytes_of_word (x : Z) : list Z :=
  [Z.land (Z.shiftr x 24) 255; Z.land (Z.shiftr x 16) 255;
   Z.land (Z.shiftr x 8) 255; Z.land x 255].

Fixpoint words_of_bytes (bs : list Z) : list Z :=
  match bs with
  | b0 :: b1 :: b2 :: b3 :: rest => be32 b0 b1 b2 b3 :: words_of_bytes rest
  | _ => []
  end.

(** Extends the message schedule by [n] words. *)
Fixpoint schedule (n : nat) (w : list Z) : list Z :=
  match n with
  | O => w
  | S n' =>
      let l := length w in
      let at_ k := nth (l - k) w 0 in
      schedule n' (w ++ [w32 (ssig1 (at_ 2%nat) + at_ 7%nat + ssig0 (at_ 15%nat) + at_ 16%nat)])
  end.

Definition round (r : regs) (kw : Z * Z) : regs :=
  let t1 := rh r + bsig1 (re r) + Ch (re r) (rf r) (rg r) + fst kw + snd kw in
  let t2 := bsig0 (ra r) + Maj (ra r) (rb r) (rc r) in
  Regs (w32 (t1 + t2)) (ra r) (rb r) (rc r) (w32 (rd r + t1)) (re r) (rf r) (rg r).

Definition compress (h : regs) (block : list Z) : regs :=
  let w := schedule 48 (words_of_bytes block) in
  let r := fold_left round (combine K w) h in
  Regs (w32 (ra h + ra r)) (w32 (rb h + rb r)) (w32 (rc h + rc r)) (w32 (rd h + rd r))
       (w32 (re h + re r)) (w32 (rf h + rf r)) (w32 (rg h + rg r)) (w32 (rh h + rh r)).

Definition pad (msg : list Z) : list Z :=
  let len := Z.of_nat (length msg) in
  let bits := (8 * len) mod 2 ^ 64 in
  msg ++ 128 :: replicate (Z.to_nat ((55 - len) mod 64)) 0
      ++ bytes_of_word (Z.shiftr bits 32) ++ bytes_of_word (w32 bits).

Fixpoint absorb (n : nat) (h : regs) (bs : list Z) : regs :=
  match n with
  | O => h
  | S n' => absorb n' (compress h (take 64 bs)) (drop 64 bs)
  end.

Definition byte_of_ascii (c : ascii) : Z := Z.of_N (N_of_ascii c).

(** [sha256.Sum256([]byte(s))]: the 32 digest bytes. *)
Definition Sum256 (s : string) : list Z :=
  let bs := pad (map byte_of_ascii (list_ascii_of_string s)) in
  let r := absorb (length bs / 64) H0 bs in
  bytes_of_word (ra r) ++ bytes_of_word (rb r) ++ bytes_of_word (rc r)
    ++ bytes_of_word (rd r) ++ bytes_of_word (re r) ++ bytes_of_word (rf r)
    ++ bytes_of_word (rg r) ++ bytes_of_word (rh r).

End Sha256.

(** [hextable] of encoding/hex. *)
Definition hextable : string := "0123456789abcdef".

Definition hexdigit (n : Z) : ascii :=
  default "0"%char (String.get (Z.to_nat n) hextable).

(** [hex.EncodeToString] *)
Fixpoint EncodeToString (bs : list Z) : string :=
  match bs with
  | [] => EmptyString
  | b :: rest =>
      String (hexdigit (Z.shiftr b 4))
        (String (hexdigit (Z.land b 15)) (EncodeToString rest))
  end.

(** [func defaultTraceIDGenerator(userID, token string) string], lines 60-63:
    [fmt.Sprintf("%s:%s", userID, hex.EncodeToString(h[:]))]. *)
Definition defaultTraceIDGenerator (userID token : string) : string :=
  let h := Sha256.Sum256 token in
  userID +:+ ":" +:+ EncodeToString h.

(** [strings.Contains(s, sub)]: whether [sub] occurs in [s]. *)
Fixpoint Contains (s sub : string) : bool :=
  String.prefix sub s
  || match s with
     | EmptyString => false
     | String _ s' => Contains s' sub
     end.

(** ** The middleware *)

(** What the handler reads from [*gin.Context] for one request. *)
Record Context := {
  ctx_query : string -> string;     (* c.Query(key) *)
  ctx_fullpath : string;            (* c.FullPath() *)
  ctx_method : string;              (* c.Request.Method *)
  ctx_status : Z;                   (* c.Writer.Status(), after c.Next() *)
  ctx_clientip : string;            (* c.ClientIP() *)
  ctx_useragent : string;           (* c.Request.UserAgent() *)
  ctx_latency_ms : Z;               (* time.Since(start).Milliseconds() *)
  ctx_now_unix : Z                  (* time.Now().Unix() *)
}.

(** [type MiddlewareConfig struct] *)
Record MiddlewareConfig := {
  UserIDExtractor : Context -> string;
  TokenExtractor : Context -> string;
  TraceIDGenerator : string -> string -> string;
  Filter : Context -> bool
}.

Definition defaultUserIDExtractor (c : Context) : string := ctx_query c "user_id".
Definition defaultTokenExtractor (c : Context) : string := ctx_query c "access_token".
Definition defaultFilter (c : Context) : bool := true.

(** [type MiddlewareOption]: a function updating a [MiddlewareConfig]. *)
Definition MiddlewareOption := MiddlewareConfig -> MiddlewareConfig.

Definition WithUserIDExtractor (f : Context -> string) : MiddlewareOption :=
  fun config =>
    {| UserIDExtractor := f; TokenExtractor := TokenExtractor config;
       TraceIDGenerator := TraceIDGenerator config; Filter := Filter config |}.

Definition WithTokenExtractor (f : Context -> string) : MiddlewareOption :=
  fun config =>
    {| UserIDExtractor := UserIDExtractor config; TokenExtractor := f;
       TraceIDGenerator := TraceIDGenerator config; Filter := Filter config |}.

Definition WithTraceIDGenerator (g : string -> string -> string) : MiddlewareOption :=
  fun config =>
    {| UserIDExtractor := UserIDExtractor config;
       TokenExtractor := TokenExtractor config;
       TraceIDGenerator := g; Filter := Filter config |}.

Definition WithFilter (f : Context -> bool) : MiddlewareOption :=
  fun config =>
    {| UserIDExtractor := UserIDExtractor config;
       TokenExtractor := TokenExtractor config;
       TraceIDGenerator := TraceIDGenerator config; Filter := f |}.

(** The configuration [MiddlewareWithConfig] builds: defaults, then the
    options in order (lines 129-139). *)
Definition middleware_config (options : list MiddlewareOption) : MiddlewareConfig :=
  fold_left (fun config option => option config) options
    {| UserIDExtractor := defaultUserIDExtractor;
       TokenExtractor := defaultTokenExtractor;
       TraceIDGenerator := defaultTraceIDGenerator;
       Filter := defaultFilter |}.

(** Lines 141-172 of the handler: the record it goes on to send, or [None]
    when it only calls [c.Next()] and returns.  In every branch [c.Next()]
    has run before the handler reaches its [select]. *)
Definition handler_step (config : MiddlewareConfig) (c : Context) : option Step :=
  if negb (Filter config c) then None
  else
    let userID := UserIDExtractor config c in
    let token := TokenExtractor config c in
    if String.eqb userID EmptyString || String.eqb token EmptyString then None
    else
      Some {| TraceID := TraceIDGenerator config userID token;
              UserID := userID;
              Path := ctx_fullpath c;
              Method := ctx_method c;
              StatusCode := ctx_status c;
              LatencyMs := ctx_latency_ms c;
              IP := ctx_clientip c;
              UserAgent := ctx_useragent c;
              CreatedAt := ctx_now_unix c |}.

(** ** The process: channel, heap, worker, flush goroutines *)

(** Where the goroutine running [startWorker] is. *)
Inductive Worker :=
  | WIdle                                  (* no [go startWorker] issued *)
  | WSpawned (interval batchSize : Z)      (* issued, body not entered yet *)
  | WLoop (batchSize : Z) (buf : slice)    (* at the [select] of line 190 *)
  | WReturning                             (* past lines 194-196, before the
                                              [return] of line 197 *)
  | WReturned.                             (* [return] of line 197 done *)

Record World := {
  w_buffer : option chan;          (* var buffer chan Step *)
  w_heap : heap;
  w_worker : Worker;
  w_tasks : list slice;            (* flush goroutines spawned and not yet run,
                                      each with its [logs] parameter *)
  w_db : GormDB;
  w_pool : option (Z * Z * Z);     (* pool settings given to sqlDB *)
  w_events : list Event;           (* what flush goroutines did, in order *)
  w_crashed : option string        (* an unrecovered panic, if any *)
}.

(** The process before [Start]: [buffer] is nil. *)
Definition world0 (db : GormDB) : World :=
  {| w_buffer := None; w_heap := []; w_worker := WIdle; w_tasks := [];
     w_db := db; w_pool := None; w_events := []; w_crashed := None |}.

Definition crash (w : World) (msg : string) : World :=
  {| w_buffer := w_buffer w; w_heap := w_heap w; w_worker := w_worker w;
     w_tasks := w_tasks w; w_db := w_db w; w_pool := w_pool w;
     w_events := w_events w; w_crashed := Some msg |}.

Inductive StartResult :=
  | StartOk                 (* return nil *)
  | StartErr (e : string)   (* return err *)
  | StartPanic.

(** [func Start(cfg Config) error], lines 103-120, in a fresh process. *)
Definition Start (cfg : Config) : World * StartResult :=
  match makechan (BufferSize cfg) with
  | None => (crash (world0 (DB cfg)) "makechan: size out of range", StartPanic)
  | Some c =>
      let made :=
        {| w_buffer := Some c; w_heap := []; w_worker := WIdle; w_tasks := [];
           w_db := DB cfg; w_pool := None; w_events := []; w_crashed := None |} in
      match db_sql_err (DB cfg) with
      | Some e => (made, StartErr e)
      | None =>
          let pool := Some (MaxOpenConn cfg, MaxIdleConn cfg, ConnMaxLifetime cfg) in
          match db_migrate_err (DB cfg) with
          | Some e =>
              ({| w_buffer := Some c; w_heap := []; w_worker := WIdle;
                  w_tasks := []; w_db := DB cfg; w_pool := pool;
                  w_events := []; w_crashed := None |}, StartErr e)
          | None =>
              ({| w_buffer := Some c; w_heap := [];
                  w_worker := WSpawned (FlushInterval cfg) (BatchSize cfg);
                  w_tasks := []; w_db := DB cfg; w_pool := pool;
                  w_events := []; w_crashed := None |}, StartOk)
          end
      end
  end.

(** [func flush(db, logs)], lines 214-243: nothing for an empty slice,
    otherwise one more goroutine holding the slice header it was given.
    The call returns at once; the goroutine runs when it is scheduled. *)
Definition flush (tasks : list slice) (logs : slice) : list slice :=
  if (sl_len logs =? 0)%nat then tasks else tasks ++ [logs].

(** Entry of [startWorker], lines 184-187: [time.NewTicker] panics for a
    non-positive interval, [make] for a negative capacity. *)
Definition worker_begin (w : World) (interval batchSize : Z) : World :=
  if interval <=? 0 then crash w "non-positive interval for NewTicker"
  else
    match makeslice (w_heap w) (wrap64 (batchSize * 2)) with
    | None => crash w "makeslice: cap out of range"
    | Some (h, buf) =>
        {| w_buffer := w_buffer w; w_heap := h; w_worker := WLoop batchSize buf;
           w_tasks := w_tasks w; w_db := w_db w; w_pool := w_pool w;
           w_events := w_events w; w_crashed := w_crashed w |}
    end.

(** Lines 200-204: the worker has received [log]. *)
Definition worker_on_record (w : World) (batchSize : Z) (buf : slice) (log : Step)
  : World :=
  let '(h, buf1) := append (w_heap w) buf log in
  if Z.of_nat (sl_len buf1) >=? batchSize then
    {| w_buffer := w_buffer w; w_heap := h;
       w_worker := WLoop batchSize (reslice0 buf1);
       w_tasks := flush (w_tasks w) buf1; w_db := w_db w; w_pool := w_pool w;
       w_events := w_events w; w_crashed := w_crashed w |}
  else
    {| w_buffer := w_buffer w; w_heap := h; w_worker := WLoop batchSize buf1;
       w_tasks := w_tasks w; w_db := w_db w; w_pool := w_pool w;
       w_events := w_events w; w_crashed := w_crashed w |}.

(** Lines 192-196: the receive reported [ok = false]; the worker calls
    [flush] if its batch is non-empty.  The goroutine [flush] spawns is
    runnable from its [go] statement on, so the [return] of line 197 is a
    step of its own ([worker_return]): the goroutine may run before it. *)
Definition worker_on_closed (w : World) (buf : slice) : World :=
  {| w_buffer := w_buffer w; w_heap := w_heap w; w_worker := WReturning;
     w_tasks := if (0 <? sl_len buf)%nat then flush (w_tasks w) buf else w_tasks w;
     w_db := w_db w; w_pool := w_pool w;
     w_events := w_events w; w_crashed := w_crashed w |}.

(** Line 197: [startWorker] returns.  Nothing it has spawned is waited for. *)
Definition worker_return (w : World) : World :=
  {| w_buffer := w_buffer w; w_heap := w_heap w; w_worker := WReturned;
     w_tasks := w_tasks w; w_db := w_db w; w_pool := w_pool w;
     w_events := w_events w; w_crashed := w_crashed w |}.

(** Lines 205-209: the ticker case. *)
Definition worker_on_tick (w : World) (batchSize : Z) (buf : slice) : World :=
  if (0 <? sl_len buf)%nat then
    {| w_buffer := w_buffer w; w_heap := w_heap w;
       w_worker := WLoop batchSize (reslice0 buf);
       w_tasks := flush (w_tasks w) buf; w_db := w_db w; w_pool := w_pool w;
       w_events := w_events w; w_crashed := w_crashed w |}
  else w.

Definition with_buffer (w : World) (b : option chan) : World :=
  {| w_buffer := b; w_heap := w_heap w; w_worker := w_worker w;
     w_tasks := w_tasks w; w_db := w_db w; w_pool := w_pool w;
     w_events := w_events w; w_crashed := w_crashed w |}.

(** One scheduling decision.  Go chooses among ready [select] cases and
    runnable goroutines as it likes; a schedule is a list of these. *)
Inductive Action :=
  | ASubmit (parked : bool) (s : Step)   (* a handler reaches its [select] *)
  | AClose                               (* close(buffer) *)
  | AWorkerBegin                         (* the worker goroutine starts running *)
  | ARecv                                (* the worker's receive case runs *)
  | ATick                                (* the worker's ticker case runs *)
  | ARunFlush (k : nat)                  (* the [k]-th waiting flush goroutine runs *)
  | AWorkerReturn.                       (* the worker's [return] of line 197 *)

(** A flush goroutine reads the elements of [logs] when it hands them to
    [CreateInBatches]; here it runs from start to end in one step, against
    the heap as it is at that instant.  The code reads the array anew at
    every call, also after a sleep; schedules in which the worker appends
    between two calls of one goroutine are therefore not among these.  What
    is stated below of a goroutine's run (sizes, counts, containment of a
    panic) does not depend on when the cells are read. *)
Definition run_flush (w : World) (k : nat) : option World :=
  match w_tasks w !! k with
  | None => None
  | Some logs =>
      let '(db, evs, c) := flush_goroutine (w_db w) (slice_read (w_heap w) logs) in
      match c with
      | Unfinished => None
      | Returned _ =>
          Some {| w_buffer := w_buffer w; w_heap := w_heap w;
                  w_worker := w_worker w; w_tasks := delete k (w_tasks w);
                  w_db := db; w_pool := w_pool w;
                  w_events := w_events w ++ evs; w_crashed := w_crashed w |}
      | Panicking v =>
          Some {| w_buffer := w_buffer w; w_heap := w_heap w;
                  w_worker := w_worker w; w_tasks := delete k (w_tasks w);
                  w_db := db; w_pool := w_pool w;
                  w_events := w_events w ++ evs; w_crashed := Some v |}
      end
  end.

(** [None]: the action cannot happen in this state (the process is dead,
    the goroutine is not there, or its [select] case is not ready). *)
Definition step (w : World) (a : Action) : option World :=
  match w_crashed w with
  | Some _ => None
  | None =>
      match a with
      | ASubmit parked s =>
          match select_send_default parked (w_buffer w) s with
          | (SendBuffered, b) => Some (with_buffer w b)
          | (SendDefault, _) => Some w
          | (SendPanic, _) => Some (crash w "send on closed channel")
          | (SendHandoff, _) =>
              match w_worker w with
              | WLoop batchSize buf => Some (worker_on_record w batchSize buf s)
              | _ => None
              end
          end
      | AClose =>
          match closechan (w_buffer w) with
          | Some b => Some (with_buffer w b)
          | None => Some (crash w "close of nil or closed channel")
          end
      | AWorkerBegin =>
          match w_worker w with
          | WSpawned interval batchSize => Some (worker_begin w interval batchSize)
          | _ => None
          end
      | ARecv =>
          match w_worker w with
          | WLoop batchSize buf =>
              match chanrecv (w_buffer w) with
              | (RecvValue s, b) =>
                  Some (worker_on_record (with_buffer w b) batchSize buf s)
              | (RecvClosed, _) => Some (worker_on_closed w buf)
              | (RecvBlocked, _) => None
              end
          | _ => None
          end
      | ATick =>
          match w_worker w with
          | WLoop batchSize buf => Some (worker_on_tick w batchSize buf)
          | _ => None
          end
      | ARunFlush k => run_flush w k
      | AWorkerReturn =>
          match w_worker w with
          | WReturning => Some (worker_return w)
          | _ => None
          end
      end
  end.

Fixpoint run (w : World) (sched : list Action) : option World :=
  match sched with
  | [] => Some w
  | a :: rest =>
      match step w a with
      | Some w' => run w' rest
      | None => None
      end
  end.

(** The gin handler of lines 141-180 as one action of the process: nothing
    for a request it does not trace, otherwise the send of its record. *)
Definition handle (config : MiddlewareConfig) (parked : bool) (c : Context)
    (w : World) : option World :=
  match handler_step config c with
  | None => Some w
  | Some s => step w (ASubmit parked s)
  end.

(** Schedules in which nobody closes the channel: all that the package's
    own code can produce, since it has no [close(buffer)]. *)
Definition no_close (sched : list Action) : Prop :=
  Forall (fun a => a <> AClose) sched.

(** Batches and results of the [CreateInBatches] calls in a trace. *)
Definition created (evs : list Event) : list (list Step) :=
  flat_map (fun e => match e with EvCreate b _ _ => [b] | _ => [] end) evs.

Definition ok_event (batchSize : nat) (b : list Step) : Event :=
  EvCreate b batchSize DbOk.

(** A collaborator that answers every call the same way. *)
Definition constant_db (r : DBResult) : GormDB :=
  {| db_sql_err := None; db_migrate_err := None;
     db_oracle := fun _ _ => r; db_calls := 0; db_rows := [] |}.

(** A collaborator whose [n]-th call fails and every other call succeeds. *)
Definition failing_once_db (n : nat) (e : string) : GormDB :=
  {| db_sql_err := None; db_migrate_err := None;
     db_oracle := fun k _ => if (k =? n)%nat then DbErr e else DbOk;
     db_calls := 0; db_rows := [] |}.

(** Numbered test records. *)
Definition sample (n : nat) : Step :=
  {| TraceID := "t"; UserID := "u"; Path := "/p"; Method := "GET";
     StatusCode := 200; LatencyMs := 1; IP := "10.0.0.1"; UserAgent := "ua";
     CreatedAt := Z.of_nat n |}.

Definition samples (n : nat) : list Step := map sample (seq 0 n).

(** ** Notions used in the statements *)

(** The [j]-th chunk counted from index [i]: [logs[i+j*bs : i+(j+1)*bs]],
    cut at the end of [logs]. *)
Definition chunk_from (logs : list Step) (bs i j : nat) : list Step :=
  take bs (drop (i + j * bs) logs).

(** How an attempt's trace and result fit together: [n] chunks written
    successfully, then nothing more, or one failed write. *)
Definition attempt_shape (logs : list Step) (attempt : nat)
    (evs : list Event) (c : Completion (option FlushError)) (n : nat) : Prop :=
  let bs := Nat.min maxChunkSize (length logs) in
  let oks := map (chunk_from logs bs 0) (seq 0 n) in
  match c with
  | Returned None => evs = map (ok_event bs) oks /\ concat oks = logs
  | Returned (Some e) =>
      evs = map (ok_event bs) oks
              ++ [EvCreate (chunk_from logs bs 0 n) bs (DbErr (fe_cause e))] /\
      (0 < length (chunk_from logs bs 0 n))%nat /\
      fe_first e = (n * bs)%nat /\
      fe_last e = (n * bs + length (chunk_from logs bs 0 n) - 1)%nat /\
      fe_attempt e = attempt
  | Panicking v =>
      evs = map (ok_event bs) oks
              ++ [EvCreate (chunk_from logs bs 0 n) bs (DbPanic v)] /\
      (0 < length (chunk_from logs bs 0 n))%nat
  | Unfinished => False
  end.

(** A [CreateInBatches] call that panicked. *)
Definition panic_event (e : Event) : bool :=
  match e with
  | EvCreate _ _ (DbPanic _) => true
  | _ => false
  end.

Definition panic_free (evs : list Event) : Prop :=
  Forall (fun e => panic_event e = false) evs.

(** A slice header that fits its backing array. *)
Definition slice_ok (h : heap) (sl : slice) : Prop :=
  exists a, h !! sl_arr sl = Some a /\ length a = sl_cap sl
            /\ (sl_len sl <= sl_cap sl)%nat.

(** What holds of every state the process reaches from [Start cfg]. *)
Record world_inv (cfg : Config) (w : World) : Prop := {
  inv_buffer :
    exists c, w_buffer w = Some c /\ ch_cap c = Z.to_nat (BufferSize cfg)
              /\ (length (ch_queue c) <= ch_cap c)%nat;
  inv_spawned :
    forall interval bs, w_worker w = WSpawned interval bs ->
                        interval = FlushInterval cfg /\ bs = BatchSize cfg;
  inv_loop :
    forall bs buf, w_worker w = WLoop bs buf ->
                   bs = BatchSize cfg /\ slice_ok (w_heap w) buf;
  inv_tasks :
    Forall (fun t => slice_ok (w_heap w) t /\ (0 < sl_len t)%nat) (w_tasks w)
}.

(** ** Configurations and states used as examples *)

(** The configuration of the example program: 5 s, pool of 10 and 5, one
    hour; queue capacity and batch size are left open. *)
Definition example_config (bufferSize batchSize : Z) (db : GormDB) : Config :=
  {| DB := db; FlushInterval := 5 * Second; BatchSize := batchSize;
     BufferSize := bufferSize; MaxOpenConn := 10; MaxIdleConn := 5;
     ConnMaxLifetime := 3600 * Second |}.

(** The state a schedule leads to from [Start cfg]. *)
Definition reached (cfg : Config) (sched : list Action) : World :=
  default (Start cfg).1 (run (Start cfg).1 sched).

(** A character of [hextable]. *)
Definition is_lower_hex (c : ascii) : bool :=
  existsb (Ascii.eqb c) (list_ascii_of_string hextable).

(** ** Measures of a trace and of a collaborator *)

(** Time spent in [time.Sleep], in nanoseconds. *)
Definition total_sleep (evs : list Event) : Z :=
  fold_right (fun e acc => match e with EvSleep d => d + acc | _ => acc end) 0 evs.

Definition is_log (e : Event) : bool :=
  match e with
  | EvLogFailed _ _ | EvLogSuccess _ | EvLogPanic _ => true
  | _ => false
  end.

(** Number of [log.Printf] lines. *)
Definition log_lines (evs : list Event) : nat :=
  fold_right (fun e acc => if is_log e then S acc else acc) 0%nat evs.

(** Chunks a batch of [n] records is cut into: [n / 500], rounded up. *)
Definition chunks_needed (n : nat) : nat := ((n + (maxChunkSize - 1)) / maxChunkSize)%nat.

(** A collaborator whose every call succeeds. *)
Definition healthy (db : GormDB) : Prop := forall n b, db_oracle db n b = DbOk.

(** ** Schedules used in the statements *)

(** The records the handlers of a schedule tried to send, in order. *)
Definition submitted (sched : list Action) : list Step :=
  flat_map (fun a => match a with ASubmit _ s => [s] | _ => [] end) sched.

(** Runs every waiting flush goroutine, oldest first. *)
Definition drain (w : World) : option World :=
  run w (replicate (length (w_tasks w)) (ARunFlush 0)).

(** One record through the pipeline with nothing in between: its handler
    sends it, the worker receives it, and a flush this triggers runs before
    anything else happens. *)
Definition feed (w : World) (r : Step) : option World :=
  match run w [ASubmit false r; ARecv] with
  | Some w' => drain w'
  | None => None
  end.

Fixpoint feed_all (w : World) (rs : list Step) : option World :=
  match rs with
  | [] => Some w
  | r :: rest =>
      match feed w r with
      | Some w' => feed_all w' rest
      | None => None
      end
  end.

(** The worker's batch is below [BatchSize] whenever it is back at its
    [select], and no batch handed to [flush] is longer than [BatchSize]
    (or than one record, when [BatchSize] is below 1). *)
Record batch_inv (cfg : Config) (w : World) : Prop := {
  binv_batch :
    forall bs buf, w_worker w = WLoop bs buf ->
                   sl_len buf = 0%nat \/ Z.of_nat (sl_len buf) < BatchSize cfg;
  binv_tasks :
    Forall (fun t => sl_len t = 1%nat \/ Z.of_nat (sl_len t) <= BatchSize cfg)
      (w_tasks w)
}.

(** With [BatchSize] at least 1 the worker lives on the one array it made:
    every slice is a slice of array 0, of capacity [2 * BatchSize]. *)
Record storage_inv (cfg : Config) (w : World) : Prop := {
  sinv_heap : (length (w_heap w) <= 1)%nat;
  sinv_loop :
    forall bs buf, w_worker w = WLoop bs buf ->
                   length (w_heap w) = 1%nat /\ sl_arr buf = 0%nat /\
                   Z.of_nat (sl_cap buf) = 2 * BatchSize cfg;
  sinv_idle : w_worker w = WIdle -> w_heap w = [] /\ w_tasks w = [];
  sinv_spawned :
    forall interval bs, w_worker w = WSpawned interval bs ->
                        w_heap w = [] /\ w_tasks w = [];
  sinv_tasks :
    Forall (fun t => sl_arr t = 0%nat /\ Z.of_nat (sl_cap t) = 2 * BatchSize cfg)
      (w_tasks w)
}.

(** ** The example middlewares of [main.go] *)

(** [strings.HasPrefix(s, prefix)] *)
Definition HasPrefix (s prefix : string) : bool := String.prefix prefix s.

(** [s[n:]], for [n] up to the length of [s]. *)
Fixpoint string_from (n : nat) (s : string) : string :=
  match n, s with
  | O, _ => s
  | S n', String _ s' => string_from n' s'
  | S _, EmptyString => EmptyString
  end.

(** [strings.TrimPrefix(s, prefix)] *)
Definition TrimPrefix (s prefix : string) : string :=
  if HasPrefix s prefix then string_from (String.length prefix) s else s.

(** [strings.Split(s, sep)] for a separator of one byte: the pieces of [s]
    between the separators, one piece more than there are separators. *)
Fixpoint Split (s : string) (sep : ascii) : list string :=
  match s with
  | EmptyString => [EmptyString]
  | String ch rest =>
      if Ascii.eqb ch sep then EmptyString :: Split rest sep
      else
        match Split rest sep with
        | piece :: pieces => String ch piece :: pieces
        | [] => [String ch EmptyString]
        end
  end.

(** The closures of the JWT example ([main.go], lines 70-96) as functions of
    what they read from the request: the value of the [Authorization]
    header for the two extractors, the URL path for the filter. *)
Definition jwtUserIDExtractor (auth : string) : string :=
  if String.eqb auth EmptyString then EmptyString
  else if HasPrefix auth "Bearer " then
    let token := TrimPrefix auth "Bearer " in
    let parts := Split token "."%char in
    if (0 <? length parts)%nat then default EmptyString (parts !! 0%nat)
    else EmptyString
  else EmptyString.

Definition jwtTokenExtractor (auth : string) : string :=
  if HasPrefix auth "Bearer " then TrimPrefix auth "Bearer " else EmptyString.

Definition jwtFilter (path : string) : bool := HasPrefix path "/api/".

(** The filter of the fifth example ([main.go], lines 125-134). *)
Definition importantPaths : list string :=
  ["/api/users"; "/api/orders"; "/api/payments"]%string.

Definition importantPathsFilter (path : string) : bool :=
  existsb (fun p => HasPrefix path p) importantPaths.

(** A request of the JWT example as the middleware sees it. *)
Definition jwt_traced (auth path : string) : bool :=
  jwtFilter path
  && negb (String.eqb (jwtUserIDExtractor auth) EmptyString
           || String.eqb (jwtTokenExtractor auth) EmptyString).

(** * Theorems *)

(** Unfolds the field projections of a [World] built by a step. *)
Ltac world_fields :=
  cbn [w_crashed w_buffer w_db w_events w_worker w_heap w_tasks w_pool
       with_buffer].

(** ** Chunking *)

(** [logs[i:end]] of line 254 is the next [batchSize] elements from [i], or
    what is left of them. *)
Lemma subslice_take_drop (logs : list Step) (bs i : nat) :
  take (Nat.min (i + bs) (length logs) - i) (drop i logs) = take bs (drop i logs).
Proof.
  destruct (Nat.le_gt_cases (i + bs) (length logs)) as [Hle | Hgt].
  - rewrite Nat.min_l by lia. f_equal. lia.
  - rewrite Nat.min_r by lia.
    rewrite !take_ge; [reflexivity | |]; rewrite length_drop; lia.
Qed.

Lemma chunk_from_shift (logs : list Step) (bs i : nat) (n : nat) :
  map (chunk_from logs bs i) (seq 1 n) = map (chunk_from logs bs (i + bs)) (seq 0 n).
Proof.
  rewrite <- seq_shift, map_map. apply map_ext. intros j.
  unfold chunk_from. do 2 f_equal. lia.
Qed.

(** What one pass of the chunk loop does, from index [i] on. *)
Lemma chunk_loop_spec (fuel : nat) :
  forall db logs bs i attempt db' evs c,
    (0 < bs)%nat -> (length logs <= i + fuel)%nat ->
    chunk_loop fuel db logs bs i attempt = (db', evs, c) ->
    exists n,
      let oks := map (chunk_from logs bs i) (seq 0 n) in
      Forall (fun b => (0 < length b <= bs)%nat) oks /\
      db_rows db' = db_rows db ++ concat oks /\
      db_calls db' = (db_calls db + length evs)%nat /\
      db_oracle db' = db_oracle db /\
      match c with
      | Returned None =>
          evs = map (ok_event bs) oks /\ concat oks = drop i logs
      | Returned (Some e) =>
          evs = map (ok_event bs) oks
                  ++ [EvCreate (chunk_from logs bs i n) bs (DbErr (fe_cause e))] /\
          (0 < length (chunk_from logs bs i n))%nat /\
          fe_first e = (i + n * bs)%nat /\
          fe_last e = (fe_first e + length (chunk_from logs bs i n) - 1)%nat /\
          fe_attempt e = attempt
      | Panicking v =>
          evs = map (ok_event bs) oks
                  ++ [EvCreate (chunk_from logs bs i n) bs (DbPanic v)] /\
          (0 < length (chunk_from logs bs i n))%nat
      | Unfinished => False
      end.
Proof.
  induction fuel as [| fuel IH]; intros db logs bs i attempt db' evs c Hbs Hfuel.
  - simpl. destruct (Nat.leb_spec (length logs) i); [| lia].
    intros [= <- <- <-]. exists 0%nat. simpl.
    repeat split; auto using app_nil_r; try lia.
    rewrite drop_ge; [done | lia].
  - simpl. destruct (Nat.leb_spec (length logs) i) as [Hdone | Hmore].
    + intros [= <- <- <-]. exists 0%nat. simpl.
      repeat split; auto using app_nil_r; try lia.
      rewrite drop_ge; [done | lia].
    + rewrite subslice_take_drop.
      assert (Hfirst : chunk_from logs bs i 0 = take bs (drop i logs)).
      { unfold chunk_from. do 2 f_equal. lia. }
      assert (Hlen : (0 < length (take bs (drop i logs)) <= bs)%nat).
      { rewrite length_take, length_drop. lia. }
      destruct (db_oracle db (db_calls db) (take bs (drop i logs))) as [| e | v] eqn:Hr.
      * destruct (chunk_loop fuel _ logs bs (i + bs) attempt) as [[db2 evs2] c2] eqn:Hrec.
        intros [= <- <- <-].
        apply IH in Hrec; [| lia | lia].
        destruct Hrec as (n & Hall & Hrows & Hcalls & Horacle & Hc).
        simpl in Hrows, Hcalls, Horacle.
        exists (S n). cbn zeta.
        rewrite <- cons_seq, map_cons, chunk_from_shift, Hfirst.
        assert (Hnth : chunk_from logs bs i (S n) = chunk_from logs bs (i + bs) n).
        { unfold chunk_from. do 2 f_equal. lia. }
        split; [by constructor |].
        split; [by rewrite Hrows, <- app_assoc |].
        split; [simpl; lia |].
        split; [done |].
        destruct c2 as [[err |] | v |]; [| | | done].
        -- destruct Hc as (-> & Hpos & Hf & Hl & Ha). rewrite Hnth.
           repeat split; [done | lia | lia | done].
        -- destruct Hc as (-> & Hcat). split; [done |].
           simpl. rewrite Hcat, <- drop_drop. apply take_drop.
        -- destruct Hc as (-> & Hpos). rewrite Hnth. by split.
      * intros [= <- <- <-]. exists 0%nat. simpl. rewrite Hfirst.
        repeat split; auto using app_nil_r; try lia.
        rewrite length_take, length_drop. lia.
      * intros [= <- <- <-]. exists 0%nat. simpl. rewrite Hfirst.
        repeat split; auto using app_nil_r; lia.
Qed.

Lemma flushWithRetry_spec (db : GormDB) (logs : list Step) (attempt : nat) :
  forall db' evs c,
    flushWithRetry db logs attempt = (db', evs, c) ->
    exists n,
      let bs := Nat.min maxChunkSize (length logs) in
      let oks := map (chunk_from logs bs 0) (seq 0 n) in
      Forall (fun b => (0 < length b <= maxChunkSize)%nat) oks /\
      db_rows db' = db_rows db ++ concat oks /\
      db_calls db' = (db_calls db + length evs)%nat /\
      db_oracle db' = db_oracle db /\
      attempt_shape logs attempt evs c n.
Proof.
  intros db' evs c H. unfold flushWithRetry in H.
  destruct logs as [| s logs].
  - simpl in H. injection H as <- <- <-. exists 0%nat. simpl.
    unfold attempt_shape. simpl.
    repeat split; auto; try lia; by rewrite app_nil_r.
  - apply chunk_loop_spec in H; [| unfold maxChunkSize; cbn [length]; lia | lia].
    destruct H as (n & Hall & Hrows & Hcalls & Horacle & Hc).
    exists n. cbn zeta in *.
    split; [eapply Forall_impl; [exact Hall | cbn beta; intros; lia] |].
    do 3 (split; [done |]).
    unfold attempt_shape. cbn zeta.
    destruct c as [[e |] | v |]; [| | | done].
    + destruct Hc as (-> & Hpos & Hf & Hl & Ha). rewrite Hf in Hl.
      repeat split; [done | lia | lia | done].
    + destruct Hc as (-> & Hcat). by rewrite drop_0 in Hcat.
    + done.
Qed.

(** An attempt always comes back: the loop bound of the embedding is enough. *)
Lemma flushWithRetry_finishes (db : GormDB) (logs : list Step) (attempt : nat) :
  snd (flushWithRetry db logs attempt) <> Unfinished.
Proof.
  destruct (flushWithRetry db logs attempt) as [[db' evs] c] eqn:H.
  apply flushWithRetry_spec in H as (n & _ & _ & _ & _ & Hc).
  simpl. intros ->. exact Hc.
Qed.

(** The first call of an attempt on a non-empty batch, and how the attempt
    goes on from its result. *)
Lemma flushWithRetry_head (db : GormDB) (logs : list Step) (attempt : nat) :
  logs <> [] ->
  let c := take maxChunkSize logs in
  let bs := Nat.min maxChunkSize (length logs) in
  match db_oracle db (db_calls db) c with
  | DbOk =>
      exists db' tail c', flushWithRetry db logs attempt
                          = (db', EvCreate c bs DbOk :: tail, c')
  | DbErr e =>
      flushWithRetry db logs attempt
      = ((CreateInBatches db c bs).1, [EvCreate c bs (DbErr e)],
         Returned (Some {| fe_first := 0; fe_last := length c - 1;
                           fe_attempt := attempt; fe_cause := e |}))
  | DbPanic v =>
      flushWithRetry db logs attempt
      = ((CreateInBatches db c bs).1, [EvCreate c bs (DbPanic v)], Panicking v)
  end.
Proof.
  intros Hne. destruct logs as [| s logs]; [done |]. cbn zeta.
  unfold flushWithRetry.
  set (bs := Nat.min maxChunkSize (length (s :: logs))).
  assert (Hbs : (0 < bs <= maxChunkSize)%nat)
    by (unfold bs, maxChunkSize; cbn [length]; lia).
  assert (Htake : take (Nat.min (0 + bs) (length (s :: logs)) - 0) (drop 0 (s :: logs))
                  = take maxChunkSize (s :: logs)).
  { rewrite subslice_take_drop, drop_0. unfold bs.
    destruct (Nat.le_gt_cases maxChunkSize (length (s :: logs))).
    - by rewrite Nat.min_l.
    - rewrite Nat.min_r by lia. rewrite !take_ge; [done | lia | lia]. }
  assert (Hlast : (Nat.min (0 + bs) (length (s :: logs)) - 1
                   = length (take maxChunkSize (s :: logs)) - 1)%nat).
  { rewrite length_take. unfold bs. lia. }
  change (chunk_loop (length (s :: logs)) db (s :: logs) bs 0 attempt)
    with (chunk_loop (S (length logs)) db (s :: logs) bs 0 attempt).
  cbn [chunk_loop]. change (length (s :: logs) <=? 0)%nat with false. cbv iota.
  rewrite Htake, Hlast. unfold CreateInBatches. cbn [fst].
  destruct (db_oracle db (db_calls db) (take maxChunkSize (s :: logs)));
    [| reflexivity | reflexivity].
  destruct (chunk_loop _ _ _ _ _ _) as [[? ?] ?]. eauto.
Qed.

(** ** Retry and recovery *)

Lemma panic_free_oks (bs : nat) (oks : list (list Step)) :
  panic_free (map (ok_event bs) oks).
Proof. apply Forall_map, Forall_true. intros b. reflexivity. Qed.

(** An attempt that returns has seen no panic; one that panics stops at the
    panicking call. *)
Lemma flushWithRetry_panics (db : GormDB) (logs : list Step) (attempt : nat) :
  forall db' evs c,
    flushWithRetry db logs attempt = (db', evs, c) ->
    match c with
    | Returned _ => panic_free evs
    | Panicking v =>
        exists pre b bs, evs = pre ++ [EvCreate b bs (DbPanic v)] /\ panic_free pre
    | Unfinished => False
    end.
Proof.
  intros db' evs c H.
  apply flushWithRetry_spec in H as (n & _ & _ & _ & _ & Hc).
  unfold attempt_shape in Hc. cbn zeta in Hc.
  destruct c as [[e |] | v |]; [| | | done].
  - destruct Hc as (-> & _). apply Forall_app. split; [apply panic_free_oks |].
    by repeat constructor.
  - destruct Hc as (-> & _). apply panic_free_oks.
  - destruct Hc as (-> & _). eauto using panic_free_oks.
Qed.

(** The retry loop, entered with enough iterations left, either returns, all
    calls having returned, or unwinds from a panicking call, its last event. *)
Lemma retry_loop_ends (fuel : nat) :
  forall db logs attempt db' evs c,
    (maxRetries < attempt + fuel)%nat ->
    retry_loop fuel db logs attempt = (db', evs, c) ->
    match c with
    | Returned _ => panic_free evs
    | Panicking v =>
        exists pre b bs, evs = pre ++ [EvCreate b bs (DbPanic v)] /\ panic_free pre
    | Unfinished => False
    end.
Proof.
  induction fuel as [| fuel IH]; intros db logs attempt db' evs c Hfuel.
  - simpl. destruct (Nat.ltb_spec maxRetries attempt); [| lia].
    intros [= <- <- <-]. constructor.
  - simpl. destruct (Nat.ltb_spec maxRetries attempt) as [Hover | Hin].
    { intros [= <- <- <-]. constructor. }
    destruct (flushWithRetry db logs attempt) as [[db1 evs1] c1] eqn:H1.
    pose proof (flushWithRetry_panics _ _ _ _ _ _ H1) as Hp.
    destruct c1 as [[err |] | v |]; [| | | done].
    + destruct (Nat.eqb_spec attempt maxRetries) as [Hlast | Hmore].
      * intros [= <- <- <-]. apply Forall_app. split; [done | by repeat constructor].
      * destruct (retry_loop fuel db1 logs (attempt + 1)) as [[db2 evs2] c2] eqn:H2.
        intros [= <- <- <-].
        apply IH in H2; [| lia].
        destruct c2 as [u | v |]; [| | done].
        -- apply Forall_app. split; [done |]. by constructor.
        -- destruct H2 as (pre & b & bs & -> & Hpre).
           exists (evs1 ++ EvSleep (Z.of_nat attempt * Second) :: pre), b, bs.
           split; [by rewrite <- app_assoc |].
           apply Forall_app. split; [done |]. by constructor.
    + intros [= <- <- <-]. apply Forall_app. split; [done | by repeat constructor].
    + intros [= <- <- <-]. exact Hp.
Qed.

(** The three attempts of the goroutine, spelled out. *)
Lemma flush_body_unfold (db : GormDB) (logs : list Step) :
  flush_body db logs =
  let '(db1, evs1, c1) := flushWithRetry db logs 1 in
  match c1 with
  | Returned None => (db1, evs1 ++ [EvLogSuccess (length logs)], Returned tt)
  | Returned (Some _) =>
      let '(db2, evs2, c2) := flushWithRetry db1 logs 2 in
      match c2 with
      | Returned None =>
          (db2, evs1 ++ EvSleep (1 * Second)
                  :: evs2 ++ [EvLogSuccess (length logs)], Returned tt)
      | Returned (Some _) =>
          let '(db3, evs3, c3) := flushWithRetry db2 logs 3 in
          match c3 with
          | Returned None =>
              (db3, evs1 ++ EvSleep (1 * Second) :: evs2 ++ EvSleep (2 * Second)
                      :: evs3 ++ [EvLogSuccess (length logs)], Returned tt)
          | Returned (Some err) =>
              (db3, evs1 ++ EvSleep (1 * Second) :: evs2 ++ EvSleep (2 * Second)
                      :: evs3 ++ [EvLogFailed 3 err], Returned tt)
          | Panicking v =>
              (db3, evs1 ++ EvSleep (1 * Second) :: evs2 ++ EvSleep (2 * Second)
                      :: evs3, Panicking v)
          | Unfinished =>
              (db3, evs1 ++ EvSleep (1 * Second) :: evs2 ++ EvSleep (2 * Second)
                      :: evs3, Unfinished)
          end
      | Panicking v => (db2, evs1 ++ EvSleep (1 * Second) :: evs2, Panicking v)
      | Unfinished => (db2, evs1 ++ EvSleep (1 * Second) :: evs2, Unfinished)
      end
  | Panicking v => (db1, evs1, Panicking v)
  | Unfinished => (db1, evs1, Unfinished)
  end.
Proof.
  unfold flush_body, maxRetries. cbn [retry_loop Nat.ltb Nat.leb Nat.eqb Nat.add].
  destruct (flushWithRetry db logs 1) as [[db1 evs1] [[e1 |] | v1 |]]; try reflexivity.
  destruct (flushWithRetry db1 logs 2) as [[db2 evs2] [[e2 |] | v2 |]]; try reflexivity.
  destruct (flushWithRetry db2 logs 3) as [[db3 evs3] [[e3 |] | v3 |]]; reflexivity.
Qed.

(** The chunks of a trace made of [n] successful writes. *)
Lemma created_oks (bs : nat) (oks : list (list Step)) :
  created (map (ok_event bs) oks) = oks.
Proof. induction oks as [| b oks IH]; simpl; [done | by rewrite IH]. Qed.

Lemma created_app (evs1 evs2 : list Event) :
  created (evs1 ++ evs2) = created evs1 ++ created evs2.
Proof. unfold created. apply flat_map_app. Qed.

(** The first [n] chunks are the first [n * bs] records. *)
Lemma concat_chunks (logs : list Step) (bs n : nat) :
  concat (map (chunk_from logs bs 0) (seq 0 n)) = take (n * bs) logs.
Proof.
  induction n as [| n IH]; [done |].
  rewrite seq_S, map_app, concat_app, IH. simpl. rewrite app_nil_r.
  unfold chunk_from. rewrite take_take_drop. f_equal. lia.
Qed.

(** With a collaborator that fails every call, an attempt is one failed
    write of the first chunk. *)
Lemma failed_attempt (db : GormDB) (logs : list Step) (attempt : nat) :
  logs <> [] ->
  (forall n b, exists e, db_oracle db n b = DbErr e) ->
  exists e db1,
    let c := take maxChunkSize logs in
    flushWithRetry db logs attempt
    = (db1, [EvCreate c (Nat.min maxChunkSize (length logs)) (DbErr e)],
       Returned (Some {| fe_first := 0; fe_last := length c - 1;
                         fe_attempt := attempt; fe_cause := e |})) /\
    db_oracle db1 = db_oracle db /\ db_calls db1 = S (db_calls db) /\
    db_rows db1 = db_rows db.
Proof.
  intros Hne Hfail.
  pose proof (flushWithRetry_head db logs attempt Hne) as Hhead. cbn zeta in Hhead.
  destruct (Hfail (db_calls db) (take maxChunkSize logs)) as [e He].
  rewrite He in Hhead. exists e. eexists. cbn zeta. split; [exact Hhead |].
  unfold CreateInBatches. rewrite He. by simpl.
Qed.

(** C3. A batch whose every write fails is tried exactly [maxRetries] = 3
    times: the trace of the goroutine is three failed writes of the first
    chunk, with a sleep of 1 second after the first and of 2 seconds after
    the second (attempt number times [time.Second]), then the log line
    "failed to flush after 3 attempts" and a normal return.  Nothing is
    persisted and no error or panic leaves the goroutine. *)
Theorem C3_persistent_failure_three_attempts (db : GormDB) (logs : list Step) :
  logs <> [] ->
  (forall n b, exists e, db_oracle db n b = DbErr e) ->
  exists e1 e2 e3 db',
    let c := take maxChunkSize logs in
    let bs := Nat.min maxChunkSize (length logs) in
    flush_goroutine db logs
    = (db',
       [EvCreate c bs (DbErr e1); EvSleep (1 * Second);
        EvCreate c bs (DbErr e2); EvSleep (2 * Second);
        EvCreate c bs (DbErr e3);
        EvLogFailed maxRetries {| fe_first := 0; fe_last := length c - 1;
                                  fe_attempt := 3; fe_cause := e3 |}],
       Returned tt) /\
    maxRetries = 3%nat /\
    db_calls db' = (db_calls db + 3)%nat /\
    db_rows db' = db_rows db /\
    0 < 1 * Second < 2 * Second.
Proof.
  intros Hne Hfail.
  destruct (failed_attempt db logs 1 Hne Hfail) as (e1 & db1 & H1 & Ho1 & Hc1 & Hr1).
  assert (Hfail1 : forall n b, exists e, db_oracle db1 n b = DbErr e)
    by (rewrite Ho1; exact Hfail).
  destruct (failed_attempt db1 logs 2 Hne Hfail1) as (e2 & db2 & H2 & Ho2 & Hc2 & Hr2).
  assert (Hfail2 : forall n b, exists e, db_oracle db2 n b = DbErr e)
    by (rewrite Ho2; exact Hfail1).
  destruct (failed_attempt db2 logs 3 Hne Hfail2) as (e3 & db3 & H3 & Ho3 & Hc3 & Hr3).
  exists e1, e2, e3, db3. cbn zeta in *.
  unfold flush_goroutine. rewrite flush_body_unfold, H1, H2, H3.
  split; [reflexivity |]. split; [reflexivity |].
  split; [rewrite Hc3, Hc2, Hc1; lia |].
  split; [by rewrite Hr3, Hr2, Hr1 |].
  unfold Second. lia.
Qed.

(** The theorem at a one-record batch and a collaborator that always fails. *)
Lemma C3_persistent_failure_witness :
  samples 1 <> [] /\
  (forall n b, exists e, db_oracle (constant_db (DbErr "down")) n b = DbErr e) /\
  exists e1 e2 e3 db',
    flush_goroutine (constant_db (DbErr "down")) (samples 1)
    = (db',
       [EvCreate (samples 1) 1 (DbErr e1); EvSleep (1 * Second);
        EvCreate (samples 1) 1 (DbErr e2); EvSleep (2 * Second);
        EvCreate (samples 1) 1 (DbErr e3);
        EvLogFailed maxRetries {| fe_first := 0; fe_last := 0;
                                  fe_attempt := 3; fe_cause := e3 |}],
       Returned tt) /\
    maxRetries = 3%nat /\
    db_calls db' = 3%nat /\
    db_rows db' = [] /\
    0 < 1 * Second < 2 * Second.
Proof.
  assert (Hne : samples 1 <> []) by discriminate.
  assert (Hfail : forall n b, exists e,
             db_oracle (constant_db (DbErr "down")) n b = DbErr e)
    by (intros n b; exists "down"%string; reflexivity).
  split; [exact Hne |]. split; [exact Hfail |].
  exact (C3_persistent_failure_three_attempts
           (constant_db (DbErr "down")) (samples 1) Hne Hfail).
Defined.

(** C4. One call of [flushWithRetry] writes consecutive chunks of the batch,
    starting at its first record, each non-empty and of at most
    [maxChunkSize] = 500 records.  If every write succeeds the chunks put
    together are the batch and nil is returned.  If a write fails the
    attempt ends there with an error: the failed chunk is the last call, and
    the chunks after it are not written.  Every attempt, whatever happened
    before, opens with the first chunk, so a retry starts over.  A batch of
    1200 records is written as 500, 500, 200; when the second write fails
    once, the goroutine sleeps and writes 500, 500, 200 from the start. *)
Theorem C4_flush_attempt_chunks (db : GormDB) (logs : list Step) (attempt : nat) :
  (let '(db', evs, c) := flushWithRetry db logs attempt in
   Forall (fun b => (0 < length b <= maxChunkSize)%nat) (created evs) /\
   (exists rest, logs = concat (created evs) ++ rest) /\
   (exists n, attempt_shape logs attempt evs c n) /\
   (c = Returned None -> concat (created evs) = logs) /\
   (logs <> [] ->
    exists r tail,
      evs = EvCreate (take maxChunkSize logs)
              (Nat.min maxChunkSize (length logs)) r :: tail)) /\
  map length (created (flushWithRetry (constant_db DbOk) (samples 1200) 1).1.2)
  = [500; 500; 200]%nat /\
  (let l := samples 1200 in
   (flush_goroutine (failing_once_db 1 "busy") l).1.2
   = [EvCreate (take 500 l) 500 DbOk;
      EvCreate (take 500 (drop 500 l)) 500 (DbErr "busy");
      EvSleep (1 * Second);
      EvCreate (take 500 l) 500 DbOk;
      EvCreate (take 500 (drop 500 l)) 500 DbOk;
      EvCreate (drop 1000 l) 500 DbOk;
      EvLogSuccess 1200]).
Proof.
  split; [| split; vm_compute; reflexivity].
  destruct (flushWithRetry db logs attempt) as [[db' evs] c] eqn:H.
  pose proof (flushWithRetry_head db logs attempt) as Hhead.
  apply flushWithRetry_spec in H as Hspec.
  destruct Hspec as (n & Hall & _ & _ & _ & Hshape). cbn zeta in Hall.
  set (bs := Nat.min maxChunkSize (length logs)) in *.
  assert (Hchunk : (length (chunk_from logs bs 0 n) <= maxChunkSize)%nat).
  { unfold chunk_from. rewrite length_take. unfold bs. lia. }
  assert (Hcreated :
    created evs = map (chunk_from logs bs 0) (seq 0 n)
    \/ created evs = map (chunk_from logs bs 0) (seq 0 n) ++ [chunk_from logs bs 0 n]
       /\ (0 < length (chunk_from logs bs 0 n))%nat).
  { unfold attempt_shape in Hshape. cbn zeta in Hshape. fold bs in Hshape.
    destruct c as [[e |] | v |]; [| | | done].
    - destruct Hshape as (-> & Hpos & _). right.
      by rewrite created_app, created_oks.
    - destruct Hshape as (-> & _). left. apply created_oks.
    - destruct Hshape as (-> & Hpos). right.
      by rewrite created_app, created_oks. }
  split; [| split; [| split; [| split]]].
  - destruct Hcreated as [-> | [-> Hpos]]; [done |].
    apply Forall_app. split; [done |]. constructor; [lia | constructor].
  - destruct Hcreated as [-> | [-> Hpos]].
    + rewrite concat_chunks. exists (drop (n * bs) logs). by rewrite take_drop.
    + exists (drop (S n * bs) logs).
      replace (map (chunk_from logs bs 0) (seq 0 n) ++ [chunk_from logs bs 0 n])
        with (map (chunk_from logs bs 0) (seq 0 (S n)))
        by (by rewrite seq_S, map_app).
      by rewrite concat_chunks, take_drop.
  - by exists n.
  - intros ->. unfold attempt_shape in Hshape. cbn zeta in Hshape.
    destruct Hshape as (-> & Hcat). by rewrite created_oks.
  - intros Hne. specialize (Hhead Hne). cbn zeta in Hhead. rewrite H in Hhead.
    destruct (db_oracle db (db_calls db) (take maxChunkSize logs)).
    + destruct Hhead as (? & tail & ? & [= _ -> _]). eauto.
    + injection Hhead as _ -> _. eauto.
    + injection Hhead as _ -> _. eauto.
Qed.

(** Inside the goroutine: whatever the collaborator does, the goroutine
    returns.  A panic out of a write ends the body there; the deferred
    function logs it as the goroutine's last event. *)
Lemma flush_goroutine_recovers (db : GormDB) (logs : list Step) :
  exists db' evs,
    flush_goroutine db logs = (db', evs, Returned tt) /\
    (panic_free evs \/
     exists pre b bs v,
       evs = pre ++ [EvCreate b bs (DbPanic v); EvLogPanic v] /\ panic_free pre /\
       flush_body db logs = (db', pre ++ [EvCreate b bs (DbPanic v)], Panicking v)).
Proof.
  unfold flush_goroutine.
  destruct (flush_body db logs) as [[db1 evs1] c1] eqn:Hbody.
  unfold flush_body in Hbody.
  apply retry_loop_ends in Hbody as Hend; [| unfold maxRetries; lia].
  destruct c1 as [[] | v |]; [| | done].
  - exists db1, evs1. split; [done |]. by left.
  - destruct Hend as (pre & b & bs & -> & Hpre).
    exists db1, ((pre ++ [EvCreate b bs (DbPanic v)]) ++ [EvLogPanic v]).
    split; [done |]. right. exists pre, b, bs, v.
    split; [by rewrite <- app_assoc |]. by split.
Qed.

(** ** Slices and the heap *)

Lemma slice_read_length (h : heap) (sl : slice) :
  slice_ok h sl -> length (slice_read h sl) = sl_len sl.
Proof.
  intros (a & Ha & Hcap & Hlen). unfold slice_read. rewrite Ha. simpl.
  rewrite length_take. lia.
Qed.

(** Writing into an array leaves every header fitting. *)
Lemma slice_ok_store (h : heap) (k i : nat) (v : Step) (sl : slice) :
  slice_ok h sl -> slice_ok (alter (fun a => <[i := v]> a) k h) sl.
Proof.
  intros (a & Ha & Hcap & Hlen). unfold slice_ok.
  destruct (decide (k = sl_arr sl)) as [-> | Hne].
  - exists (<[i := v]> a). rewrite list_lookup_alter_eq, Ha. simpl.
    by rewrite length_insert.
  - exists a. by rewrite list_lookup_alter_ne.
Qed.

(** So does allocating. *)
Lemma slice_ok_alloc (h : heap) (a : list Step) (sl : slice) :
  slice_ok h sl -> slice_ok (h ++ [a]) sl.
Proof.
  intros (a' & Ha & Hcap & Hlen). exists a'. split; [| done].
  rewrite lookup_app_l; [done |]. by eapply lookup_lt_Some.
Qed.

(** [append] on a fitting slice: the result fits, reads as the old elements
    followed by the new one, and no other header is invalidated. *)
Lemma append_spec (h : heap) (sl : slice) (v : Step) :
  slice_ok h sl ->
  slice_ok (append h sl v).1 (append h sl v).2 /\
  slice_read (append h sl v).1 (append h sl v).2 = slice_read h sl ++ [v] /\
  sl_len (append h sl v).2 = S (sl_len sl) /\
  (forall t, slice_ok h t -> slice_ok (append h sl v).1 t).
Proof.
  intros Hok. pose proof Hok as (a & Ha & Hcap & Hlen). unfold append.
  destruct (Nat.ltb_spec (sl_len sl) (sl_cap sl)) as [Hroom | Hfull]; simpl.
  - split; [| split; [| split]].
    + exists (<[sl_len sl := v]> a). simpl.
      rewrite list_lookup_alter_eq, Ha. simpl. rewrite length_insert.
      repeat split; [done | lia].
    + unfold slice_read. simpl. rewrite list_lookup_alter_eq, Ha. simpl.
      rewrite (take_S_r _ _ v) by (apply list_lookup_insert_eq; lia).
      by rewrite take_insert_ge.
    + done.
    + intros t. apply slice_ok_store.
  - assert (Hread : length (slice_read h sl) = sl_len sl)
      by by apply slice_read_length.
    assert (Hgrow : (S (sl_len sl) <= growcap (sl_cap sl))%nat)
      by (unfold growcap; lia).
    split; [| split; [| split]].
    + eexists. simpl. rewrite list_lookup_middle by done.
      split; [done |]. split; [| done].
      rewrite length_app, Hread. simpl. rewrite length_replicate. lia.
    + unfold slice_read at 1. simpl. rewrite list_lookup_middle by done. simpl.
      rewrite take_app, Hread, take_ge by lia.
      replace (S (sl_len sl) - sl_len sl)%nat with 1%nat by lia. done.
    + done.
    + intros t. apply slice_ok_alloc.
Qed.

Lemma reslice0_ok (h : heap) (sl : slice) :
  slice_ok h sl -> slice_ok h (reslice0 sl).
Proof.
  intros (a & Ha & Hcap & Hlen). exists a. simpl. repeat split; [done | done | lia].
Qed.

Lemma reslice0_read (h : heap) (sl : slice) : slice_read h (reslice0 sl) = [].
Proof. unfold slice_read. simpl. apply take_0. Qed.

(** ** Invariants of the process *)

Lemma flush_tasks_ok (h : heap) (tasks : list slice) (logs : slice) :
  Forall (fun t => slice_ok h t /\ (0 < sl_len t)%nat) tasks ->
  slice_ok h logs ->
  Forall (fun t => slice_ok h t /\ (0 < sl_len t)%nat) (flush tasks logs).
Proof.
  intros Htasks Hlogs. unfold flush.
  destruct (Nat.eqb_spec (sl_len logs) 0); [done |].
  apply Forall_app. split; [done |]. constructor; [| constructor].
  split; [done | lia].
Qed.

Lemma worker_on_record_inv (cfg : Config) (w : World) (bs : Z) (buf : slice)
    (s : Step) :
  world_inv cfg w -> bs = BatchSize cfg -> slice_ok (w_heap w) buf ->
  world_inv cfg (worker_on_record w bs buf s).
Proof.
  intros [Hb Hs Hl Ht] -> Hbuf. unfold worker_on_record.
  destruct (append_spec (w_heap w) buf s Hbuf) as (Hok & _ & _ & Hkeep).
  destruct (append (w_heap w) buf s) as [h buf1]. simpl in Hok, Hkeep.
  assert (Htasks : Forall (fun t => slice_ok h t /\ (0 < sl_len t)%nat) (w_tasks w)).
  { eapply Forall_impl; [exact Ht |]. intros t [? ?]. split; [by apply Hkeep | done]. }
  destruct (Z.of_nat (sl_len buf1) >=? BatchSize cfg); constructor; simpl; try done.
  - intros bs' buf' [= <- <-]. split; [done | by apply reslice0_ok].
  - by apply flush_tasks_ok.
  - intros bs' buf' [= <- <-]. by split.
Qed.

Lemma with_buffer_inv (cfg : Config) (w : World) (c : chan) :
  world_inv cfg w -> ch_cap c = Z.to_nat (BufferSize cfg) ->
  (length (ch_queue c) <= ch_cap c)%nat ->
  world_inv cfg (with_buffer w (Some c)).
Proof.
  intros [Hb Hs Hl Ht] Hcap Hlen. constructor; simpl; try done. eauto.
Qed.

Lemma crash_inv (cfg : Config) (w : World) (msg : string) :
  world_inv cfg w -> world_inv cfg (crash w msg).
Proof. intros [Hb Hs Hl Ht]. by constructor. Qed.

(** Every step keeps the invariant. *)
Lemma step_inv (cfg : Config) (w w' : World) (a : Action) :
  world_inv cfg w -> step w a = Some w' -> world_inv cfg w'.
Proof.
  intros Hinv. pose proof Hinv as [Hb Hs Hl Ht].
  destruct Hb as (c & Hc & Hcap & Hlen).
  unfold step. destruct (w_crashed w); [done |].
  destruct a as [parked s | | | | | k |].
  - unfold select_send_default. rewrite Hc.
    destruct (ch_closed c); [intros [= <-]; by apply crash_inv |].
    destruct (Nat.ltb_spec (length (ch_queue c)) (ch_cap c)).
    + intros [= <-]. apply with_buffer_inv; simpl; try done.
      rewrite length_app. simpl. lia.
    + destruct (parked && (ch_cap c =? 0)%nat); [| by intros [= <-]].
      destruct (w_worker w) as [| | bs buf | |] eqn:Hw; try done.
      intros [= <-]. destruct (Hl bs buf eq_refl). by apply worker_on_record_inv.
  - unfold closechan. rewrite Hc.
    destruct (ch_closed c); intros [= <-]; [by apply crash_inv |].
    by apply with_buffer_inv.
  - destruct (w_worker w) as [| interval bs | | |] eqn:Hw; try done.
    intros [= <-]. unfold worker_begin.
    destruct (interval <=? 0); [by apply crash_inv |].
    unfold makeslice. destruct (wrap64 (bs * 2) <? 0); [by apply crash_inv |].
    constructor; simpl; eauto; try done.
    + intros bs' buf' [= <- <-]. split; [by destruct (Hs interval bs eq_refl) |].
      eexists. simpl. rewrite list_lookup_middle by done.
      split; [done |]. rewrite length_replicate. split; [done | lia].
    + eapply Forall_impl; [exact Ht |]. intros t [? ?].
      split; [by apply slice_ok_alloc | done].
  - destruct (w_worker w) as [| | bs buf | |] eqn:Hw; try done.
    destruct (Hl bs buf eq_refl) as [-> Hbuf].
    unfold chanrecv. rewrite Hc. destruct (ch_queue c) as [| s q] eqn:Hq.
    + destruct (ch_closed c); [| done]. intros [= <-].
      constructor; simpl; try done.
      * exists c. by rewrite Hq.
      * destruct (0 <? sl_len buf)%nat; [by apply flush_tasks_ok | done].
    + intros [= <-]. apply worker_on_record_inv; [| done | done].
      apply with_buffer_inv; simpl; try done. simpl in Hlen. lia.
  - destruct (w_worker w) as [| | bs buf | |] eqn:Hw; try done.
    destruct (Hl bs buf eq_refl) as [-> Hbuf].
    intros [= <-]. unfold worker_on_tick.
    destruct (0 <? sl_len buf)%nat; [| done].
    constructor; simpl; eauto; try done.
    + intros bs' buf' [= <- <-]. split; [done | by apply reslice0_ok].
    + by apply flush_tasks_ok.
  - unfold run_flush. destruct (w_tasks w !! k) as [logs |]; [| done].
    destruct (flush_goroutine _ _) as [[db evs] [[] | v |]]; [| | done];
      intros [= <-]; constructor; simpl; eauto; try done;
      rewrite delete_take_drop; apply Forall_app; split;
      [by apply Forall_take | by apply Forall_drop
      | by apply Forall_take | by apply Forall_drop].
  - destruct (w_worker w) as [| | bs buf | |] eqn:Hw; try done.
    intros [= <-]. constructor; simpl; eauto; done.
Qed.

Lemma run_inv (cfg : Config) (sched : list Action) :
  forall w w', world_inv cfg w -> run w sched = Some w' -> world_inv cfg w'.
Proof.
  induction sched as [| a sched IH]; intros w w' Hinv; simpl.
  - by intros [= <-].
  - destruct (step w a) as [w1 |] eqn:Hstep; [| done].
    apply IH. by eapply step_inv.
Qed.

Lemma Start_inv (cfg : Config) :
  0 <= BufferSize cfg -> world_inv cfg (Start cfg).1.
Proof.
  intros Hsize. unfold Start, makechan.
  destruct (Z.ltb_spec (BufferSize cfg) 0); [lia |].
  destruct (db_sql_err (DB cfg)); [| destruct (db_migrate_err (DB cfg))];
    constructor; simpl; try done; try (eexists; repeat split; simpl; lia).
  intros interval bs [= <- <-]. done.
Qed.

(** One receive of a queued record: the batch grows by it; when that makes
    it reach [batchSize], the batch goes to a new flush goroutine and the
    worker's slice is emptied. *)
Lemma recv_record (cfg : Config) (w : World) (bs : Z) (buf : slice)
    (c : chan) (r : Step) (q : list Step) :
  world_inv cfg w -> w_crashed w = None -> w_worker w = WLoop bs buf ->
  w_buffer w = Some c -> ch_queue c = r :: q ->
  exists w' buf',
    step w ARecv = Some w' /\ world_inv cfg w' /\ w_crashed w' = None /\
    w_buffer w' = Some {| ch_cap := ch_cap c; ch_queue := q;
                          ch_closed := ch_closed c |} /\
    w_db w' = w_db w /\ w_events w' = w_events w /\
    w_worker w' = WLoop bs buf' /\
    let batch := slice_read (w_heap w) buf ++ [r] in
    if Z.of_nat (length batch) >=? bs then
      slice_read (w_heap w') buf' = [] /\
      exists t, w_tasks w' = w_tasks w ++ [t] /\ slice_read (w_heap w') t = batch
    else
      slice_read (w_heap w') buf' = batch /\ w_tasks w' = w_tasks w.
Proof.
  intros Hinv Hlive Hw Hc Hq.
  destruct (inv_loop _ _ Hinv bs buf Hw) as [Hbs Hbuf].
  assert (Hstep : step w ARecv
                  = Some (worker_on_record
                            (with_buffer w (Some {| ch_cap := ch_cap c; ch_queue := q;
                                                    ch_closed := ch_closed c |}))
                            bs buf r)).
  { unfold step. rewrite Hlive, Hw. unfold chanrecv. by rewrite Hc, Hq. }
  assert (Hinv' : world_inv cfg (worker_on_record
                            (with_buffer w (Some {| ch_cap := ch_cap c; ch_queue := q;
                                                    ch_closed := ch_closed c |}))
                            bs buf r)).
  { eapply step_inv; [exact Hinv | exact Hstep]. }
  revert Hstep Hinv'. unfold worker_on_record. cbn [w_heap with_buffer].
  destruct (append_spec (w_heap w) buf r Hbuf) as (Hok & Hread & Hlen & _).
  destruct (append (w_heap w) buf r) as [h buf1]. cbn [fst snd] in Hok, Hread, Hlen.
  cbn zeta. rewrite length_app, (slice_read_length _ _ Hbuf). cbn [length].
  replace (sl_len buf + 1)%nat with (sl_len buf1) by lia.
  destruct (Z.of_nat (sl_len buf1) >=? bs); intros Hstep Hinv'.
  - eexists _, (reslice0 buf1). split; [exact Hstep |]. split; [exact Hinv' |].
    world_fields.
    do 5 (split; [done |]). split; [apply reslice0_read |].
    exists buf1. split; [| done]. unfold flush.
    destruct (Nat.eqb_spec (sl_len buf1) 0); [lia | done].
  - eexists _, buf1. split; [exact Hstep |]. split; [exact Hinv' |].
    world_fields.
    by do 6 (split; [done |]).
Qed.

(** Receiving [rs] one by one while the batch stays below [batchSize]. *)
Lemma recv_below (cfg : Config) (rs : list Step) :
  forall w bs buf c q,
    world_inv cfg w -> w_crashed w = None -> w_worker w = WLoop bs buf ->
    w_buffer w = Some c -> ch_queue c = rs ++ q ->
    Z.of_nat (length (slice_read (w_heap w) buf ++ rs)) < bs ->
    exists w' buf',
      run w (replicate (length rs) ARecv) = Some w' /\ world_inv cfg w' /\
      w_crashed w' = None /\
      w_buffer w' = Some {| ch_cap := ch_cap c; ch_queue := q;
                            ch_closed := ch_closed c |} /\
      w_db w' = w_db w /\ w_events w' = w_events w /\
      w_worker w' = WLoop bs buf' /\
      slice_read (w_heap w') buf' = slice_read (w_heap w) buf ++ rs /\
      w_tasks w' = w_tasks w.
Proof.
  induction rs as [| r rs IH]; intros w bs buf c q Hinv Hlive Hw Hc Hq Hlt.
  - exists w, buf. cbn [length replicate run]. rewrite app_nil_r.
    do 3 (split; [done |]).
    split; [rewrite Hc; destruct c; simpl in Hq; by subst |].
    by do 4 (split; [done |]).
  - destruct (recv_record cfg w bs buf c r (rs ++ q) Hinv Hlive Hw Hc Hq)
      as (w1 & buf1 & Hstep & Hinv1 & Hlive1 & Hc1 & Hdb1 & Hev1 & Hw1 & Hcase).
    cbn zeta in Hcase. rewrite !length_app in Hlt, Hcase. cbn [length] in Hlt, Hcase.
    destruct (Z.geb_spec (Z.of_nat (length (slice_read (w_heap w) buf) + 1)) bs)
      as [Hge | _]; [lia |].
    destruct Hcase as [Hread1 Htasks1].
    destruct (IH w1 bs buf1 _ q Hinv1 Hlive1 Hw1 Hc1 eq_refl)
      as (w' & buf' & Hrun & Hinv' & Hlive' & Hc' & Hdb' & Hev' & Hw' & Hread' & Ht').
    { rewrite Hread1, !length_app. cbn [length]. lia. }
    exists w', buf'. cbn [length replicate run]. rewrite Hstep.
    split; [exact Hrun |]. split; [done |]. split; [done |].
    split; [exact Hc' |]. split; [congruence |]. split; [congruence |].
    split; [done |]. split; [| congruence].
    rewrite Hread', Hread1, <- app_assoc. done.
Qed.

Lemma run_app (sched1 sched2 : list Action) :
  forall w, run w (sched1 ++ sched2)
            = match run w sched1 with
              | Some w1 => run w1 sched2
              | None => None
              end.
Proof.
  induction sched1 as [| a sched1 IH]; intros w; simpl; [done |].
  destruct (step w a); [apply IH | done].
Qed.

(** ** The worker loop *)

(** C8. Each record the worker receives is appended to the current batch.
    When the batch, grown by the records [rs] and then [r], reaches
    [BatchSize] with [r] and not before, these receives alone (no ticker
    case runs) spawn exactly one flush goroutine; its slice reads as the
    whole batch in arrival order, and the worker is left with an empty
    batch.  Nothing has been written yet. *)
Theorem C8_batch_size_triggers_flush (cfg : Config) (sched : list Action)
    (w : World) (bs : Z) (buf : slice) (c : chan) (rs q : list Step) (r : Step) :
  0 <= BufferSize cfg ->
  run (Start cfg).1 sched = Some w ->
  w_crashed w = None ->
  w_worker w = WLoop bs buf ->
  w_buffer w = Some c ->
  ch_queue c = rs ++ r :: q ->
  Z.of_nat (length (slice_read (w_heap w) buf ++ rs)) < BatchSize cfg
    <= Z.of_nat (length (slice_read (w_heap w) buf ++ rs ++ [r])) ->
  exists w' buf' t,
    run w (replicate (length rs) ARecv ++ [ARecv]) = Some w' /\
    w_crashed w' = None /\
    w_tasks w' = w_tasks w ++ [t] /\
    slice_read (w_heap w') t = slice_read (w_heap w) buf ++ rs ++ [r] /\
    w_worker w' = WLoop (BatchSize cfg) buf' /\
    slice_read (w_heap w') buf' = [] /\
    w_buffer w' = Some {| ch_cap := ch_cap c; ch_queue := q;
                          ch_closed := ch_closed c |} /\
    w_events w' = w_events w /\ w_db w' = w_db w.
Proof.
  intros Hsize Hrun Hlive Hw Hc Hq [Hlt Hge].
  assert (Hinv : world_inv cfg w)
    by (eapply run_inv; [by apply Start_inv | exact Hrun]).
  destruct (inv_loop _ _ Hinv bs buf Hw) as [-> _].
  destruct (recv_below cfg rs w (BatchSize cfg) buf c (r :: q) Hinv Hlive Hw Hc Hq Hlt)
    as (w1 & buf1 & Hrun1 & Hinv1 & Hlive1 & Hc1 & Hdb1 & Hev1 & Hw1 & Hread1 & Ht1).
  destruct (recv_record cfg w1 (BatchSize cfg) buf1 _ r q Hinv1 Hlive1 Hw1 Hc1 eq_refl)
    as (w' & buf' & Hstep & _ & Hlive' & Hc' & Hdb' & Hev' & Hw' & Hcase).
  cbn zeta in Hcase. rewrite Hread1, <- app_assoc in Hcase.
  destruct (Z.geb_spec
              (Z.of_nat (length (slice_read (w_heap w) buf ++ rs ++ [r])))
              (BatchSize cfg)) as [_ | Hno]; [| lia].
  destruct Hcase as (Hempty & t & Htasks & Hread).
  exists w', buf', t. rewrite run_app, Hrun1. cbn [run]. rewrite Hstep.
  split; [done |]. split; [done |]. split; [congruence |].
  split; [done |]. split; [done |]. split; [done |].
  split; [exact Hc' |]. split; congruence.
Qed.

(** The theorem at [BatchSize] = 3: three records are queued, the worker's
    batch is empty, the ticker never fires; three receives make one flush
    of the three records, in order. *)
Lemma C8_batch_size_three_witness :
  let cfg := example_config 1000 3 (constant_db DbOk) in
  let sched := [AWorkerBegin; ASubmit false (sample 0); ASubmit false (sample 1);
                ASubmit false (sample 2)] in
  let w := reached cfg sched in
  (0 <= BufferSize cfg /\
   run (Start cfg).1 sched = Some w /\
   w_crashed w = None /\
   w_worker w = WLoop 3 {| sl_arr := 0; sl_len := 0; sl_cap := 6 |} /\
   w_tasks w = []) /\
  exists w' buf' t,
    run w [ARecv; ARecv; ARecv] = Some w' /\
    w_crashed w' = None /\
    w_tasks w' = [t] /\
    slice_read (w_heap w') t = [sample 0; sample 1; sample 2] /\
    w_worker w' = WLoop 3 buf' /\
    slice_read (w_heap w') buf' = [] /\
    w_buffer w' = Some {| ch_cap := 1000; ch_queue := []; ch_closed := false |} /\
    w_events w' = [] /\ w_db w' = constant_db DbOk.
Proof.
  intros cfg sched w.
  assert (H0 : 0 <= BufferSize cfg) by (vm_compute; discriminate).
  assert (H1 : run (Start cfg).1 sched = Some w) by (vm_compute; reflexivity).
  assert (H2 : w_crashed w = None) by (vm_compute; reflexivity).
  assert (H3 : w_worker w = WLoop 3 {| sl_arr := 0; sl_len := 0; sl_cap := 6 |})
    by (vm_compute; reflexivity).
  assert (H4 : w_buffer w
               = Some {| ch_cap := 1000;
                         ch_queue := [sample 0; sample 1] ++ sample 2 :: [];
                         ch_closed := false |}) by (vm_compute; reflexivity).
  assert (H5 : Z.of_nat (length (slice_read (w_heap w)
                                   {| sl_arr := 0; sl_len := 0; sl_cap := 6 |}
                                 ++ [sample 0; sample 1])) < BatchSize cfg
               <= Z.of_nat (length (slice_read (w_heap w)
                                      {| sl_arr := 0; sl_len := 0; sl_cap := 6 |}
                                    ++ [sample 0; sample 1] ++ [sample 2])))
    by (vm_compute; split; [reflexivity | discriminate]).
  split; [repeat split; try assumption; vm_compute; reflexivity |].
  exact (C8_batch_size_triggers_flush cfg sched w 3
           {| sl_arr := 0; sl_len := 0; sl_cap := 6 |} _
           [sample 0; sample 1] [] (sample 2) H0 H1 H2 H3 H4 eq_refl H5).
Defined.

Lemma delete_last {A : Type} (l : list A) (x : A) :
  delete (length l) (l ++ [x]) = l.
Proof. induction l as [| y l IH]; simpl; [done | by rewrite IH]. Qed.

(** A flush goroutine that runs leaves the worker where it is and the
    process alive. *)
Lemma run_flush_keeps_worker (w w' : World) (k : nat) :
  w_crashed w = None -> step w (ARunFlush k) = Some w' ->
  w_crashed w' = None /\ w_worker w' = w_worker w.
Proof.
  intros Hlive. unfold step, run_flush. rewrite Hlive.
  destruct (w_tasks w !! k) as [t |]; [| done].
  destruct (flush_goroutine_recovers (w_db w) (slice_read (w_heap w) t))
    as (db' & evs & -> & _).
  by intros [= <-].
Qed.

Lemma run_flushes_keep_worker (ks : list nat) :
  forall w w',
    w_crashed w = None -> run w (map ARunFlush ks) = Some w' ->
    w_crashed w' = None /\ w_worker w' = w_worker w.
Proof.
  induction ks as [| k ks IH]; intros w w' Hlive; simpl.
  - by intros [= <-].
  - destruct (step w (ARunFlush k)) as [w1 |] eqn:Hstep; [| done].
    destruct (run_flush_keeps_worker w w1 k Hlive Hstep) as [Hlive1 Hw1].
    intros Hrun. destruct (IH w1 w' Hlive1 Hrun) as [Hlive' Hw'].
    split; [done | congruence].
Qed.

(** C1 as stated fails.  Five records are submitted, the channel is closed,
    the worker receives the five and then the close, and returns.
    [startWorker] has returned; the five records sit in a flush goroutine
    that has not run; the collaborator has not been called and nothing is
    persisted. *)
Lemma C1_shutdown_flush_not_awaited :
  let cfg := example_config 1000 100 (constant_db DbOk) in
  let sched := AWorkerBegin :: map (ASubmit false) (samples 5)
                 ++ AClose :: replicate 6 ARecv ++ [AWorkerReturn] in
  exists w t,
    run (Start cfg).1 sched = Some w /\
    w_crashed w = None /\
    w_worker w = WReturned /\
    w_tasks w = [t] /\ slice_read (w_heap w) t = samples 5 /\
    db_calls (w_db w) = 0%nat /\ db_rows (w_db w) = [] /\ w_events w = [].
Proof. vm_compute. eexists _, _. repeat split. Qed.

(** C1, amended.  When the worker's receive reports the channel closed (the
    queue is then drained), the worker calls [flush] if its batch is
    non-empty, which spawns one goroutine holding exactly that batch and
    returns at once; with an empty batch nothing is spawned.  [startWorker]
    then returns without waiting: its return is possible at once, with the
    goroutine still waiting and nothing written, and it is as possible
    after any of the waiting goroutines have run.  So the write of the
    batch may be done when [startWorker] returns (the goroutine ran first)
    or not (the return came first); the code orders neither. *)
Theorem C1_shutdown_hands_batch_to_flush (w : World) (bs : Z) (buf : slice) :
  w_crashed w = None ->
  w_worker w = WLoop bs buf ->
  (chanrecv (w_buffer w)).1 = RecvClosed ->
  exists w1,
    step w ARecv = Some w1 /\
    w_worker w1 = WReturning /\ w_crashed w1 = None /\ w_heap w1 = w_heap w /\
    ((sl_len buf = 0%nat /\ w_tasks w1 = w_tasks w) \/
     ((0 < sl_len buf)%nat /\ w_tasks w1 = w_tasks w ++ [buf])) /\
    (forall ks w2,
       run w1 (map ARunFlush ks) = Some w2 ->
       exists w3,
         step w2 AWorkerReturn = Some w3 /\
         w_worker w3 = WReturned /\ w_crashed w3 = None /\
         w_tasks w3 = w_tasks w2 /\ w_db w3 = w_db w2 /\
         w_events w3 = w_events w2) /\
    (exists w3,
       run w1 [AWorkerReturn] = Some w3 /\ w_worker w3 = WReturned /\
       w_tasks w3 = w_tasks w1 /\ w_db w3 = w_db w /\ w_events w3 = w_events w) /\
    ((0 < sl_len buf)%nat ->
     exists w3,
       run w1 [ARunFlush (length (w_tasks w)); AWorkerReturn] = Some w3 /\
       w_worker w3 = WReturned /\ w_tasks w3 = w_tasks w /\
       w_db w3 = (flush_goroutine (w_db w) (slice_read (w_heap w) buf)).1.1 /\
       w_events w3
       = w_events w ++ (flush_goroutine (w_db w) (slice_read (w_heap w) buf)).1.2).
Proof.
  intros Hlive Hw Hclosed.
  assert (Hstep : step w ARecv = Some (worker_on_closed w buf)).
  { unfold step. rewrite Hlive, Hw.
    destruct (chanrecv (w_buffer w)) as [[s | |] b]; simpl in Hclosed; done. }
  assert (Hreturn : forall w2, w_crashed w2 = None -> w_worker w2 = WReturning ->
                               step w2 AWorkerReturn = Some (worker_return w2)).
  { intros w2 Hlive2 Hw2. unfold step. by rewrite Hlive2, Hw2. }
  exists (worker_on_closed w buf). split; [exact Hstep |].
  assert (Hlive1 : w_crashed (worker_on_closed w buf) = None) by done.
  assert (Hw1 : w_worker (worker_on_closed w buf) = WReturning) by done.
  do 3 (split; [done |]).
  assert (Htasks : (sl_len buf = 0%nat /\ w_tasks (worker_on_closed w buf) = w_tasks w)
                   \/ ((0 < sl_len buf)%nat
                       /\ w_tasks (worker_on_closed w buf) = w_tasks w ++ [buf])).
  { unfold worker_on_closed. cbn [w_tasks].
    destruct (Nat.ltb_spec 0 (sl_len buf)) as [Hpos | Hzero];
      [right | left; split; [lia | done]].
    split; [done |]. unfold flush.
    destruct (Nat.eqb_spec (sl_len buf) 0); [lia | done]. }
  split; [exact Htasks |]. split; [| split].
  - intros ks w2 Hrun.
    destruct (run_flushes_keep_worker ks _ _ Hlive1 Hrun) as [Hlive2 Hw2].
    exists (worker_return w2). split; [apply Hreturn; congruence |]. done.
  - exists (worker_return (worker_on_closed w buf)). cbn [run].
    rewrite (Hreturn _ Hlive1 Hw1). done.
  - intros Hpos. destruct Htasks as [[Hzero _] | [_ Htasks]]; [lia |].
    destruct (flush_goroutine_recovers (w_db w) (slice_read (w_heap w) buf))
      as (db' & evs & Hgo & _).
    assert (Hflush : step (worker_on_closed w buf) (ARunFlush (length (w_tasks w)))
                     = Some {| w_buffer := w_buffer w; w_heap := w_heap w;
                               w_worker := WReturning; w_tasks := w_tasks w;
                               w_db := db'; w_pool := w_pool w;
                               w_events := w_events w ++ evs;
                               w_crashed := None |}).
    { unfold step, run_flush. rewrite Hlive1, Htasks.
      rewrite list_lookup_middle by done.
      change (w_db (worker_on_closed w buf)) with (w_db w).
      change (w_heap (worker_on_closed w buf)) with (w_heap w).
      rewrite Hgo, delete_last. unfold worker_on_closed. simpl. done. }
    eexists. cbn [run]. rewrite Hflush.
    rewrite Hreturn by done. split; [reflexivity |].
    rewrite Hgo. done.
Qed.

(** The theorem at the state of the counterexample just before the receive
    that reports the close: five records in the batch, channel closed and
    drained. *)
Lemma C1_shutdown_witness :
  let cfg := example_config 1000 100 (constant_db DbOk) in
  let w := reached cfg (AWorkerBegin :: map (ASubmit false) (samples 5)
                          ++ AClose :: replicate 5 ARecv) in
  let buf := {| sl_arr := 0; sl_len := 5; sl_cap := 200 |} in
  (w_crashed w = None /\ w_worker w = WLoop 100 buf /\
   (chanrecv (w_buffer w)).1 = RecvClosed) /\
  exists w1,
    step w ARecv = Some w1 /\
    w_worker w1 = WReturning /\ w_crashed w1 = None /\ w_heap w1 = w_heap w /\
    ((sl_len buf = 0%nat /\ w_tasks w1 = w_tasks w) \/
     ((0 < sl_len buf)%nat /\ w_tasks w1 = w_tasks w ++ [buf])) /\
    (forall ks w2,
       run w1 (map ARunFlush ks) = Some w2 ->
       exists w3,
         step w2 AWorkerReturn = Some w3 /\
         w_worker w3 = WReturned /\ w_crashed w3 = None /\
         w_tasks w3 = w_tasks w2 /\ w_db w3 = w_db w2 /\
         w_events w3 = w_events w2) /\
    (exists w3,
       run w1 [AWorkerReturn] = Some w3 /\ w_worker w3 = WReturned /\
       w_tasks w3 = w_tasks w1 /\ w_db w3 = w_db w /\ w_events w3 = w_events w) /\
    ((0 < sl_len buf)%nat ->
     exists w3,
       run w1 [ARunFlush (length (w_tasks w)); AWorkerReturn] = Some w3 /\
       w_worker w3 = WReturned /\ w_tasks w3 = w_tasks w /\
       w_db w3 = (flush_goroutine (w_db w) (slice_read (w_heap w) buf)).1.1 /\
       w_events w3
       = w_events w ++ (flush_goroutine (w_db w) (slice_read (w_heap w) buf)).1.2).
Proof.
  intros cfg w buf.
  assert (H1 : w_crashed w = None) by (vm_compute; reflexivity).
  assert (H2 : w_worker w = WLoop 100 buf) by (vm_compute; reflexivity).
  assert (H3 : (chanrecv (w_buffer w)).1 = RecvClosed) by (vm_compute; reflexivity).
  split; [by repeat split |].
  exact (C1_shutdown_hands_batch_to_flush w 100 buf H1 H2 H3).
Defined.

(** Both orders at that state: with the return first, [startWorker] has
    returned and the collaborator has not been called; with the goroutine
    first, the five records are in the store when [startWorker] returns. *)
Example shutdown_write_before_or_after_return :
  let cfg := example_config 1000 100 (constant_db DbOk) in
  let upto := AWorkerBegin :: map (ASubmit false) (samples 5)
                ++ AClose :: replicate 6 ARecv in
  let after := reached cfg (upto ++ [AWorkerReturn]) in
  let before := reached cfg (upto ++ [ARunFlush 0; AWorkerReturn]) in
  (w_worker after = WReturned /\ db_calls (w_db after) = 0%nat /\
   db_rows (w_db after) = []) /\
  (w_worker before = WReturned /\ db_calls (w_db before) = 1%nat /\
   db_rows (w_db before) = samples 5).
Proof. vm_compute. repeat split. Qed.

(** C2 on the code: with [BatchSize] = 1, record 0 is received and handed to
    a flush goroutine; before that goroutine runs, record 1 is received.
    [buf[:0]] kept the array, so the append writes record 1 over record 0
    in the very cell the waiting goroutine will read.  Both goroutines then
    persist record 1; record 0 is never persisted. *)
Lemma C2_slice_reuse_overwrites_handed_batch :
  let cfg := example_config 1000 1 (constant_db DbOk) in
  let first := [AWorkerBegin; ASubmit false (sample 0); ARecv] in
  let second := [ASubmit false (sample 1); ARecv] in
  let w1 := reached cfg first in
  let w2 := reached cfg (first ++ second) in
  let w3 := reached cfg (first ++ second ++ [ARunFlush 0; ARunFlush 0]) in
  let t := {| sl_arr := 0; sl_len := 1; sl_cap := 2 |} in
  (w_tasks w1 = [t] /\ slice_read (w_heap w1) t = [sample 0] /\
   w_worker w1 = WLoop 1 (reslice0 t)) /\
  (run w1 second = Some w2 /\
   w_tasks w2 = [t; t] /\ slice_read (w_heap w2) t = [sample 1]) /\
  (w_crashed w3 = None /\ w_tasks w3 = [] /\
   db_rows (w_db w3) = [sample 1; sample 1]).
Proof. vm_compute. repeat split. Qed.

(** ** The channel *)

(** A step other than [close] leaves an open channel open. *)
Lemma step_keeps_open (w w' : World) (a : Action) :
  a <> AClose ->
  (exists c, w_buffer w = Some c /\ ch_closed c = false) ->
  step w a = Some w' ->
  exists c', w_buffer w' = Some c' /\ ch_closed c' = false.
Proof.
  intros Ha (c & Hc & Hopen). unfold step.
  destruct (w_crashed w); [done |].
  destruct a as [parked s | | | | | k |]; [| done | | | | |].
  - unfold select_send_default. rewrite Hc, Hopen.
    destruct (length (ch_queue c) <? ch_cap c)%nat; [intros [= <-]; simpl; eauto |].
    destruct (parked && (ch_cap c =? 0)%nat); [| intros [= <-]; eauto].
    destruct (w_worker w); try done. intros [= <-]. unfold worker_on_record.
    destruct (append _ _ _). destruct (_ >=? _); simpl; eauto.
  - destruct (w_worker w); try done. intros [= <-]. unfold worker_begin.
    destruct (_ <=? _); [simpl; eauto |].
    destruct (makeslice _ _) as [[h buf] |]; simpl; eauto.
  - destruct (w_worker w); try done. unfold chanrecv. rewrite Hc, Hopen.
    destruct (ch_queue c); [done |]. intros [= <-]. unfold worker_on_record.
    destruct (append _ _ _). destruct (_ >=? _); simpl; eauto.
  - destruct (w_worker w); try done. intros [= <-]. unfold worker_on_tick.
    destruct (0 <? _)%nat; simpl; eauto.
  - unfold run_flush. destruct (w_tasks w !! k); [| done].
    destruct (flush_goroutine _ _) as [[db evs] [[] | v |]]; [| | done];
      intros [= <-]; simpl; eauto.
  - destruct (w_worker w); try done. intros [= <-]. simpl. eauto.
Qed.

Lemma run_keeps_open (sched : list Action) :
  forall w w',
    no_close sched ->
    (exists c, w_buffer w = Some c /\ ch_closed c = false) ->
    run w sched = Some w' ->
    exists c', w_buffer w' = Some c' /\ ch_closed c' = false.
Proof.
  induction sched as [| a sched IH]; intros w w' Hno Hopen; simpl.
  - by intros [= <-].
  - destruct (step w a) as [w1 |] eqn:Hstep; [| done].
    apply Forall_cons in Hno as [Ha Hno].
    apply IH; [done |]. by eapply step_keeps_open.
Qed.

Lemma Start_open (cfg : Config) :
  0 <= BufferSize cfg ->
  exists c, w_buffer (Start cfg).1 = Some c /\ ch_closed c = false.
Proof.
  intros Hsize. unfold Start, makechan.
  destruct (Z.ltb_spec (BufferSize cfg) 0); [lia |].
  destruct (db_sql_err (DB cfg)); [| destruct (db_migrate_err (DB cfg))];
    simpl; eauto.
Qed.

(** C5 as stated fails for an unbuffered channel.  With [BufferSize] = 0 the
    queue holds 0 of 0 records: it is at capacity.  Yet with the worker
    parked at its receive the send case runs, and the record ends up in the
    worker's batch instead of being dropped. *)
Lemma C5_unbuffered_send_reaches_worker :
  let cfg := example_config 0 100 (constant_db DbOk) in
  let w := reached cfg [AWorkerBegin] in
  exists c w' buf',
    run (Start cfg).1 [AWorkerBegin] = Some w /\
    w_buffer w = Some c /\ Z.of_nat (ch_cap c) = BufferSize cfg /\
    length (ch_queue c) = ch_cap c /\
    select_send_default true (w_buffer w) (sample 0) = (SendHandoff, w_buffer w) /\
    step w (ASubmit true (sample 0)) = Some w' /\
    w_worker w' = WLoop 100 buf' /\
    slice_read (w_heap w') buf' = [sample 0].
Proof. vm_compute. eexists _, _, _. repeat split. Qed.

(** C5, amended.  In every state the package's code reaches from
    [Start cfg], the queue has capacity [BufferSize] and holds at most that
    many records, and the middleware's send never panics and never waits: it
    is one of three outcomes.  With room, the record is queued at the back.
    At capacity it is dropped and nothing changes -- except on an unbuffered
    channel ([BufferSize] = 0) while the worker is parked at its receive:
    then the record is handed to the worker. *)
Theorem C5_enqueue_never_blocks (cfg : Config) (sched : list Action) (w : World)
    (parked : bool) (s : Step) :
  0 <= BufferSize cfg ->
  no_close sched ->
  run (Start cfg).1 sched = Some w ->
  exists c,
    w_buffer w = Some c /\
    Z.of_nat (ch_cap c) = BufferSize cfg /\
    (length (ch_queue c) <= ch_cap c)%nat /\
    let '(out, b) := select_send_default parked (w_buffer w) s in
    out <> SendPanic /\
    ((length (ch_queue c) < ch_cap c)%nat ->
     out = SendBuffered /\
     b = Some {| ch_cap := ch_cap c; ch_queue := ch_queue c ++ [s];
                 ch_closed := false |}) /\
    (length (ch_queue c) = ch_cap c ->
     0 < BufferSize cfg \/ parked = false ->
     out = SendDefault /\ b = w_buffer w) /\
    (BufferSize cfg = 0 -> parked = true ->
     out = SendHandoff /\ b = w_buffer w).
Proof.
  intros Hsize Hno Hrun.
  assert (Hinv : world_inv cfg w)
    by (eapply run_inv; [by apply Start_inv | exact Hrun]).
  destruct (run_keeps_open sched _ _ Hno (Start_open cfg Hsize) Hrun)
    as (c & Hc & Hopen).
  destruct (inv_buffer _ _ Hinv) as (c0 & Hc0 & Hcap & Hlen).
  rewrite Hc in Hc0. injection Hc0 as <-.
  exists c. split; [done |]. split; [lia |]. split; [done |].
  unfold select_send_default. rewrite Hc, Hopen.
  destruct (Nat.ltb_spec (length (ch_queue c)) (ch_cap c)) as [Hroom | Hfull].
  - split; [done |]. split; [done |]. split; intros; lia.
  - destruct parked; simpl.
    + destruct (Nat.eqb_spec (ch_cap c) 0) as [Hzero | Hpos].
      * split; [done |]. split; [lia |]. split; [| done].
        intros _ [Hbig | Hoff]; [lia | done].
      * split; [done |]. split; [lia |]. split; [done |]. lia.
    + split; [done |]. split; [lia |]. split; [done |]. done.
Qed.

(** The theorem at a queue of capacity 2 that holds two records, for a
    third record. *)
Lemma C5_enqueue_witness :
  let cfg := example_config 2 100 (constant_db DbOk) in
  let sched := [ASubmit false (sample 0); ASubmit false (sample 1)] in
  (0 <= BufferSize cfg /\ no_close sched /\
   run (Start cfg).1 sched = Some (reached cfg sched)) /\
  exists c,
    w_buffer (reached cfg sched) = Some c /\
    Z.of_nat (ch_cap c) = BufferSize cfg /\
    (length (ch_queue c) <= ch_cap c)%nat /\
    let '(out, b) := select_send_default false (w_buffer (reached cfg sched))
                       (sample 2) in
    out <> SendPanic /\
    ((length (ch_queue c) < ch_cap c)%nat ->
     out = SendBuffered /\
     b = Some {| ch_cap := ch_cap c; ch_queue := ch_queue c ++ [sample 2];
                 ch_closed := false |}) /\
    (length (ch_queue c) = ch_cap c ->
     0 < BufferSize cfg \/ false = false ->
     out = SendDefault /\ b = w_buffer (reached cfg sched)) /\
    (BufferSize cfg = 0 -> false = true ->
     out = SendHandoff /\ b = w_buffer (reached cfg sched)).
Proof.
  intros cfg sched.
  assert (H0 : 0 <= BufferSize cfg) by (vm_compute; discriminate).
  assert (H1 : no_close sched) by (repeat constructor; discriminate).
  assert (H2 : run (Start cfg).1 sched = Some (reached cfg sched))
    by (vm_compute; reflexivity).
  split; [by repeat split |].
  exact (C5_enqueue_never_blocks cfg sched (reached cfg sched) false (sample 2)
           H0 H1 H2).
Defined.

(** C9. Before [Start], [buffer] is nil.  The send case of the handler's
    [select] is then never ready, so the default case runs: no panic, no
    wait, the record is dropped and the process state is what it was.  This
    holds for each request with any middleware configuration, and for any
    number of them in a row. *)
Theorem C9_send_before_Start_drops (db : GormDB) (config : MiddlewareConfig)
    (parked : bool) (c : Context) (s : Step) (ss : list Step) :
  w_buffer (world0 db) = None /\
  select_send_default parked (w_buffer (world0 db)) s = (SendDefault, None) /\
  step (world0 db) (ASubmit parked s) = Some (world0 db) /\
  handle config parked c (world0 db) = Some (world0 db) /\
  run (world0 db) (map (ASubmit parked) ss) = Some (world0 db).
Proof.
  split; [done |]. split; [done |]. split; [done |]. split.
  - unfold handle. by destruct (handler_step config c).
  - induction ss as [| s' ss IH]; [done | exact IH].
Qed.

(** ** Constants of the writer *)

(** Chunks of one attempt: never empty, never above [maxChunkSize], written
    with [batchSize] = min(500, len(logs)). *)
Lemma attempt_chunks_bounded (db : GormDB) (logs : list Step) (attempt : nat) :
  Forall (fun e => match e with
                   | EvCreate b bs _ =>
                       (0 < length b <= maxChunkSize)%nat /\
                       bs = Nat.min maxChunkSize (length logs)
                   | _ => True
                   end)
    (flushWithRetry db logs attempt).1.2.
Proof.
  destruct (flushWithRetry db logs attempt) as [[db' evs] c] eqn:H.
  apply flushWithRetry_spec in H as (n & Hall & _ & _ & _ & Hshape).
  cbn zeta in Hall. unfold attempt_shape in Hshape. cbn zeta in Hshape. simpl.
  assert (Hoks : Forall (fun e => match e with
                   | EvCreate b bs _ =>
                       (0 < length b <= maxChunkSize)%nat /\
                       bs = Nat.min maxChunkSize (length logs)
                   | _ => True
                   end)
            (map (ok_event (Nat.min maxChunkSize (length logs)))
               (map (chunk_from logs (Nat.min maxChunkSize (length logs)) 0)
                  (seq 0 n)))).
  { apply Forall_map. eapply Forall_impl; [exact Hall |]. by intros b Hb. }
  assert (Hlast : (length (chunk_from logs (Nat.min maxChunkSize (length logs)) 0 n)
                   <= maxChunkSize)%nat).
  { unfold chunk_from. rewrite length_take. lia. }
  destruct c as [[e |] | v |]; [| | | done].
  - destruct Hshape as (-> & Hpos & _). apply Forall_app. split; [done |].
    constructor; [| constructor]. split; [lia | done].
  - by destruct Hshape as (-> & _).
  - destruct Hshape as (-> & Hpos). apply Forall_app. split; [done |].
    constructor; [| constructor]. split; [lia | done].
Qed.

(** The same for the whole goroutine, whatever the collaborator does. *)
Lemma goroutine_chunks_bounded (db : GormDB) (logs : list Step) :
  Forall (fun e => match e with
                   | EvCreate b bs _ =>
                       (0 < length b <= maxChunkSize)%nat /\
                       bs = Nat.min maxChunkSize (length logs)
                   | _ => True
                   end)
    (flush_goroutine db logs).1.2.
Proof.
  unfold flush_goroutine. rewrite flush_body_unfold.
  pose proof (attempt_chunks_bounded db logs 1) as H1.
  destruct (flushWithRetry db logs 1) as [[db1 evs1] c1]. simpl in H1.
  destruct c1 as [[e1 |] | v1 |]; simpl;
    try (repeat (apply Forall_app; split; try done); by repeat constructor).
  pose proof (attempt_chunks_bounded db1 logs 2) as H2.
  destruct (flushWithRetry db1 logs 2) as [[db2 evs2] c2]. simpl in H2.
  destruct c2 as [[e2 |] | v2 |]; simpl;
    try (repeat (first [apply Forall_app; split | apply Forall_cons; split]; try done);
         by repeat constructor).
  pose proof (attempt_chunks_bounded db2 logs 3) as H3.
  destruct (flushWithRetry db2 logs 3) as [[db3 evs3] c3]. simpl in H3.
  destruct c3 as [[e3 |] | v3 |]; simpl;
    repeat (first [apply Forall_app; split | apply Forall_cons; split]; try done);
    by repeat constructor.
Qed.

(** With a collaborator that fails every call, the goroutine makes exactly
    [maxRetries] calls. *)
Lemma failing_goroutine_calls (db : GormDB) (logs : list Step) :
  logs <> [] ->
  (forall n b, exists e, db_oracle db n b = DbErr e) ->
  exists db' evs,
    flush_goroutine db logs = (db', evs, Returned tt) /\
    length (created evs) = maxRetries /\
    db_calls db' = (db_calls db + maxRetries)%nat.
Proof.
  intros Hne Hfail.
  destruct (failed_attempt db logs 1 Hne Hfail) as (e1 & db1 & H1 & Ho1 & Hc1 & _).
  assert (Hfail1 : forall n b, exists e, db_oracle db1 n b = DbErr e)
    by (rewrite Ho1; exact Hfail).
  destruct (failed_attempt db1 logs 2 Hne Hfail1) as (e2 & db2 & H2 & Ho2 & Hc2 & _).
  assert (Hfail2 : forall n b, exists e, db_oracle db2 n b = DbErr e)
    by (rewrite Ho2; exact Hfail1).
  destruct (failed_attempt db2 logs 3 Hne Hfail2) as (e3 & db3 & H3 & _ & Hc3 & _).
  cbn zeta in *. unfold flush_goroutine.
  rewrite flush_body_unfold, H1, H2, H3.
  eexists _, _. split; [reflexivity |]. split; [reflexivity |].
  rewrite Hc3, Hc2, Hc1. unfold maxRetries. lia.
Qed.

(** C6 as stated fails.  In this configuration every number is 600.  A batch
    of 600 records whose writes all fail is tried 3 times, not 600, and each
    write carries 500 records, not 600. *)
Lemma C6_constants_ignore_configuration :
  let cfg := {| DB := constant_db (DbErr "down"); FlushInterval := 600;
                BatchSize := 600; BufferSize := 600; MaxOpenConn := 600;
                MaxIdleConn := 600; ConnMaxLifetime := 600 |} in
  let sched := AWorkerBegin :: map (ASubmit false) (samples 600)
                 ++ replicate 600 ARecv ++ [ARunFlush 0] in
  exists w,
    run (Start cfg).1 sched = Some w /\
    w_tasks w = [] /\
    db_calls (w_db w) = 3%nat /\
    map length (created (w_events w)) = [500; 500; 500]%nat.
Proof. vm_compute. eexists. repeat split. Qed.

(** C6, amended.  The configuration has no field for the number of attempts
    or for the chunk size, and neither depends on it: in every state reached
    from [Start cfg], for every [cfg], a flush goroutine writes chunks of at
    most [maxChunkSize] = 500 records, passing min(500, len) as the batch
    size, and makes exactly [maxRetries] = 3 calls when every call fails. *)
Theorem C6_retries_and_chunk_size_are_constants (cfg : Config)
    (sched : list Action) (w : World) (k : nat) (t : slice) :
  0 <= BufferSize cfg ->
  run (Start cfg).1 sched = Some w ->
  w_crashed w = None ->
  w_tasks w !! k = Some t ->
  maxRetries = 3%nat /\ maxChunkSize = 500%nat /\
  exists w' evs,
    step w (ARunFlush k) = Some w' /\
    w_events w' = w_events w ++ evs /\
    Forall (fun e => match e with
                     | EvCreate b bs _ =>
                         (0 < length b <= 500)%nat /\ bs = Nat.min 500 (sl_len t)
                     | _ => True
                     end) evs /\
    ((forall n b, exists e, db_oracle (w_db w) n b = DbErr e) ->
     length (created evs) = 3%nat /\
     db_calls (w_db w') = (db_calls (w_db w) + 3)%nat).
Proof.
  intros Hsize Hrun Hlive Ht.
  assert (Hinv : world_inv cfg w)
    by (eapply run_inv; [by apply Start_inv | exact Hrun]).
  pose proof (inv_tasks _ _ Hinv) as Htasks.
  rewrite Forall_lookup in Htasks. destruct (Htasks k t Ht) as [Hok Hpos].
  pose proof (slice_read_length _ _ Hok) as Hlen.
  split; [done |]. split; [done |].
  pose proof (goroutine_chunks_bounded (w_db w) (slice_read (w_heap w) t)) as Hbound.
  destruct (flush_goroutine_recovers (w_db w) (slice_read (w_heap w) t))
    as (db' & evs & Hgo & _).
  rewrite Hgo in Hbound. simpl in Hbound. rewrite Hlen in Hbound.
  eexists _, evs. unfold step, run_flush. rewrite Hlive, Ht, Hgo.
  split; [reflexivity |]. cbn [w_events w_db].
  split; [done |]. split; [exact Hbound |].
  intros Hfail.
  destruct (failing_goroutine_calls (w_db w) (slice_read (w_heap w) t))
    as (db2 & evs2 & Hgo2 & Hcount & Hcalls); [| exact Hfail |].
  { intros Hnil. rewrite Hnil in Hlen. simpl in Hlen. lia. }
  rewrite Hgo in Hgo2. injection Hgo2 as <- <-. by split.
Qed.

(** The theorem at the example configuration with one record handed to a
    flush goroutine and a collaborator that is down. *)
Lemma C6_constants_witness :
  let cfg := example_config 1000 1 (constant_db (DbErr "down")) in
  let sched := [AWorkerBegin; ASubmit false (sample 0); ARecv] in
  let t := {| sl_arr := 0; sl_len := 1; sl_cap := 2 |} in
  (0 <= BufferSize cfg /\
   run (Start cfg).1 sched = Some (reached cfg sched) /\
   w_crashed (reached cfg sched) = None /\
   w_tasks (reached cfg sched) !! 0%nat = Some t) /\
  maxRetries = 3%nat /\ maxChunkSize = 500%nat /\
  exists w' evs,
    step (reached cfg sched) (ARunFlush 0) = Some w' /\
    w_events w' = w_events (reached cfg sched) ++ evs /\
    Forall (fun e => match e with
                     | EvCreate b bs _ =>
                         (0 < length b <= 500)%nat /\ bs = Nat.min 500 (sl_len t)
                     | _ => True
                     end) evs /\
    ((forall n b, exists e, db_oracle (w_db (reached cfg sched)) n b = DbErr e) ->
     length (created evs) = 3%nat /\
     db_calls (w_db w') = (db_calls (w_db (reached cfg sched)) + 3)%nat).
Proof.
  intros cfg sched t.
  assert (H0 : 0 <= BufferSize cfg) by (vm_compute; discriminate).
  assert (H1 : run (Start cfg).1 sched = Some (reached cfg sched))
    by (vm_compute; reflexivity).
  assert (H2 : w_crashed (reached cfg sched) = None) by (vm_compute; reflexivity).
  assert (H3 : w_tasks (reached cfg sched) !! 0%nat = Some t)
    by (vm_compute; reflexivity).
  split; [by repeat split |].
  exact (C6_retries_and_chunk_size_are_constants cfg sched (reached cfg sched)
           0 t H0 H1 H2 H3).
Defined.

(** C7. A flush goroutine that runs never brings the process down, whatever
    the collaborator does, a panic included.  If a write panics, the body of
    the goroutine unwinds from that call (no write and no retry follows), the
    deferred function logs the panic as the goroutine's last act, and the
    goroutine ends.  The worker, its batch storage and the channel are as
    they were, so whichever of its cases could run before can still run. *)
Theorem C7_panic_contained_in_flush_goroutine (w : World) (k : nat) (t : slice) :
  w_crashed w = None ->
  w_tasks w !! k = Some t ->
  exists w' evs,
    step w (ARunFlush k) = Some w' /\
    w_crashed w' = None /\
    w_worker w' = w_worker w /\ w_buffer w' = w_buffer w /\
    w_heap w' = w_heap w /\ w_tasks w' = delete k (w_tasks w) /\
    w_events w' = w_events w ++ evs /\
    (panic_free evs \/
     exists pre b bs v,
       evs = pre ++ [EvCreate b bs (DbPanic v); EvLogPanic v] /\ panic_free pre /\
       (flush_body (w_db w) (slice_read (w_heap w) t)).2 = Panicking v) /\
    (forall a, a = ARecv \/ a = ATick ->
               is_Some (step w a) -> is_Some (step w' a)).
Proof.
  intros Hlive Ht.
  destruct (flush_goroutine_recovers (w_db w) (slice_read (w_heap w) t))
    as (db' & evs & Hgo & Hevs).
  eexists _, evs. unfold step at 1, run_flush. rewrite Hlive, Ht, Hgo.
  split; [reflexivity |].
  world_fields.
  do 6 (split; [done |]). split.
  - destruct Hevs as [Hfree | (pre & b & bs & v & -> & Hpre & Hbody)]; [by left |].
    right. exists pre, b, bs, v. by rewrite Hbody.
  - intros a [-> | ->]; unfold step;
      world_fields;
      rewrite Hlive; destruct (w_worker w) as [| | bs buf | |]; try done;
      destruct (chanrecv (w_buffer w)) as [[s | |] b]; try done;
      intros _; eexists; reflexivity.
Qed.

(** The theorem at a goroutine whose collaborator panics on every call. *)
Lemma C7_panic_contained_witness :
  let cfg := example_config 1000 1 (constant_db (DbPanic "nil map")) in
  let w := reached cfg [AWorkerBegin; ASubmit false (sample 0); ARecv] in
  let t := {| sl_arr := 0; sl_len := 1; sl_cap := 2 |} in
  (w_crashed w = None /\ w_tasks w !! 0%nat = Some t) /\
  exists w' evs,
    step w (ARunFlush 0) = Some w' /\
    w_crashed w' = None /\
    w_worker w' = w_worker w /\ w_buffer w' = w_buffer w /\
    w_heap w' = w_heap w /\ w_tasks w' = delete 0%nat (w_tasks w) /\
    w_events w' = w_events w ++ evs /\
    (panic_free evs \/
     exists pre b bs v,
       evs = pre ++ [EvCreate b bs (DbPanic v); EvLogPanic v] /\ panic_free pre /\
       (flush_body (w_db w) (slice_read (w_heap w) t)).2 = Panicking v) /\
    (forall a, a = ARecv \/ a = ATick ->
               is_Some (step w a) -> is_Some (step w' a)).
Proof.
  intros cfg w t.
  assert (H1 : w_crashed w = None) by (vm_compute; reflexivity).
  assert (H2 : w_tasks w !! 0%nat = Some t) by (vm_compute; reflexivity).
  split; [by split |].
  exact (C7_panic_contained_in_flush_goroutine w 0 t H1 H2).
Defined.

(** What the recovery is for: the body alone does end in a panic, and the
    goroutine's trace shows the write, then the log line. *)
Example panic_is_recovered :
  (flush_body (constant_db (DbPanic "nil map")) (samples 1)).2 = Panicking "nil map" /\
  (flush_goroutine (constant_db (DbPanic "nil map")) (samples 1)).2 = Returned tt /\
  (flush_goroutine (constant_db (DbPanic "nil map")) (samples 1)).1.2
  = [EvCreate (samples 1) 1 (DbPanic "nil map"); EvLogPanic "nil map"].
Proof. vm_compute. repeat split. Qed.

(** ** The trace ID *)

Example sha256_abc :
  EncodeToString (Sha256.Sum256 "abc")
  = "ba7816bf8f01cfea414140de5dae2223b00361a396177a9cb410ff61f20015ad"%string.
Proof. vm_compute. reflexivity. Qed.

Example sha256_empty :
  EncodeToString (Sha256.Sum256 EmptyString)
  = "e3b0c44298fc1c149afbf4c8996fb92427ae41e4649b934ca495991b7852b855"%string.
Proof. vm_compute. reflexivity. Qed.

Example sha256_two_blocks :
  EncodeToString
    (Sha256.Sum256 "abcdbcdecdefdefgefghfghighijhijkijkljklmklmnlmnomnopnopq")
  = "248d6a61d20638b8e5c026930c3e6039a33ce45964ff2167f6ecedd419db06c1"%string.
Proof. vm_compute. reflexivity. Qed.

Lemma bytes_of_word_range (x : Z) :
  Forall (fun b => 0 <= b < 256) (Sha256.bytes_of_word x).
Proof.
  unfold Sha256.bytes_of_word.
  repeat constructor;
    try (apply Z.land_nonneg; right; lia);
    match goal with
    | |- Z.land ?a 255 < 256 =>
        change 255 with (Z.ones 8); rewrite Z.land_ones by lia;
        apply Z.mod_pos_bound; lia
    end.
Qed.

Lemma Sum256_length (s : string) : length (Sha256.Sum256 s) = 32%nat.
Proof. unfold Sha256.Sum256. reflexivity. Qed.

Lemma Sum256_range (s : string) : Forall (fun b => 0 <= b < 256) (Sha256.Sum256 s).
Proof.
  unfold Sha256.Sum256. repeat (apply Forall_app; split); apply bytes_of_word_range.
Qed.

Lemma hexdigit_lower (n : Z) : 0 <= n < 16 -> is_lower_hex (hexdigit n) = true.
Proof.
  intros Hn.
  assert (Hall : forallb (fun k => is_lower_hex (hexdigit (Z.of_nat k))) (seq 0 16)
                 = true) by reflexivity.
  rewrite forallb_forall in Hall.
  rewrite <- (Z2Nat.id n) by lia. apply Hall, in_seq. lia.
Qed.

Lemma EncodeToString_spec (bs : list Z) :
  Forall (fun b => 0 <= b < 256) bs ->
  String.length (EncodeToString bs) = (2 * length bs)%nat /\
  Forall (fun c => is_lower_hex c = true) (list_ascii_of_string (EncodeToString bs)).
Proof.
  induction 1 as [| b bs Hb _ [IHlen IHall]]; [by split |].
  simpl. split; [lia |].
  constructor; [| constructor; [| exact IHall]]; apply hexdigit_lower.
  - rewrite Z.shiftr_div_pow2 by lia. change (2 ^ 4) with 16.
    split; [apply Z.div_pos; lia | apply Z.div_lt_upper_bound; lia].
  - change 15 with (Z.ones 4). rewrite Z.land_ones by lia.
    apply Z.mod_pos_bound. lia.
Qed.

Lemma length_append_string (a b : string) :
  String.length (a +:+ b) = (String.length a + String.length b)%nat.
Proof. induction a as [| c a IH]; simpl; [done | by rewrite IH]. Qed.

(** C10 as stated fails in its last part: the token can occur in the trace
    ID.  Token ["a"] occurs in the hex digest of ["a"] itself; a token equal
    to the user ID opens the trace ID. *)
Lemma C10_token_can_occur_in_trace_id :
  defaultTraceIDGenerator "u" "a"
  = "u:ca978112ca1bbdcafac231b39a23dc4da786eff8147c4e72b9807785afee48bb"%string /\
  Contains (defaultTraceIDGenerator "u" "a") "a" = true /\
  Contains (defaultTraceIDGenerator "42" "42") "42" = true.
Proof. vm_compute. repeat split. Qed.

(** C10, amended.  The default generator is a function of its two arguments
    alone.  The trace ID is the user ID, a colon, and the 64 lowercase hex
    digits of the SHA-256 digest of the token; two tokens with one digest
    give one ID.  The token itself is not copied into the ID (it may still
    occur in it by coincidence, as above). *)
Theorem C10_default_trace_id_shape (userID token : string) :
  (forall id1 id2,
     id1 = defaultTraceIDGenerator userID token ->
     id2 = defaultTraceIDGenerator userID token -> id1 = id2) /\
  (exists hex,
     defaultTraceIDGenerator userID token = userID +:+ ":" +:+ hex /\
     hex = EncodeToString (Sha256.Sum256 token) /\
     String.length hex = 64%nat /\
     Forall (fun c => is_lower_hex c = true) (list_ascii_of_string hex)) /\
  String.length (defaultTraceIDGenerator userID token)
  = (String.length userID + 65)%nat /\
  (forall token',
     Sha256.Sum256 token' = Sha256.Sum256 token ->
     defaultTraceIDGenerator userID token' = defaultTraceIDGenerator userID token).
Proof.
  destruct (EncodeToString_spec _ (Sum256_range token)) as [Hlen Hall].
  rewrite Sum256_length in Hlen.
  split; [congruence |]. split; [| split].
  - exists (EncodeToString (Sha256.Sum256 token)). by repeat split.
  - unfold defaultTraceIDGenerator. rewrite !length_append_string, Hlen. simpl. lia.
  - intros token' Heq. unfold defaultTraceIDGenerator. by rewrite Heq.
Qed.

(** * Further properties of the pipeline *)

(** * Further properties of the writer *)

Lemma chunk_from_length (logs : list Step) (bs i j : nat) :
  length (chunk_from logs bs i j) = Nat.min bs (length logs - (i + j * bs)).
Proof. unfold chunk_from. by rewrite length_take, length_drop. Qed.

(** With a healthy collaborator the chunk loop runs to the end. *)
Lemma chunk_loop_healthy (fuel : nat) :
  forall db logs bs i attempt,
    (0 < bs)%nat -> (length logs <= i + fuel)%nat -> healthy db ->
    (chunk_loop fuel db logs bs i attempt).2 = Returned None.
Proof.
  induction fuel as [| fuel IH]; intros db logs bs i attempt Hbs Hfuel Hdb; simpl.
  - destruct (Nat.leb_spec (length logs) i); [done | lia].
  - destruct (Nat.leb_spec (length logs) i); [done |].
    rewrite Hdb.
    specialize (IH (CreateInBatches db
                      (take (Nat.min (i + bs) (length logs) - i) (drop i logs)) bs).1
                  logs bs (i + bs)%nat attempt Hbs).
    unfold CreateInBatches in IH. rewrite Hdb in IH. simpl in IH.
    destruct (chunk_loop fuel _ logs bs (i + bs) attempt) as [[db2 evs] c].
    simpl in *. apply IH; [lia | done].
Qed.

Lemma flushWithRetry_healthy (db : GormDB) (logs : list Step) (attempt : nat) :
  healthy db -> (flushWithRetry db logs attempt).2 = Returned None.
Proof.
  intros Hdb. unfold flushWithRetry. destruct logs as [| s logs]; [done |].
  apply chunk_loop_healthy; [unfold maxChunkSize; cbn [length]; lia | lia | done].
Qed.

(** How many chunks an attempt wrote, from the shape of its trace. *)
Lemma attempt_count (logs : list Step) (attempt : nat) (evs : list Event)
    (c : Completion (option FlushError)) (n : nat) :
  Forall (fun b => (0 < length b <= maxChunkSize)%nat)
    (map (chunk_from logs (Nat.min maxChunkSize (length logs)) 0) (seq 0 n)) ->
  attempt_shape logs attempt evs c n ->
  match c with
  | Returned None => n = chunks_needed (length logs) /\ length evs = n
  | Returned (Some _) | Panicking _ =>
      (n < chunks_needed (length logs))%nat /\ length evs = S n
  | Unfinished => False
  end.
Proof.
  intros Hall Hshape. unfold attempt_shape in Hshape. cbn zeta in Hshape.
  remember (Nat.min maxChunkSize (length logs)) as bs eqn:Hbs.
  assert (Hprev : forall j, (j < n)%nat -> (j * bs < length logs)%nat).
  { intros j Hj. rewrite Forall_forall in Hall.
    assert (Hin : In (chunk_from logs bs 0 j) (map (chunk_from logs bs 0) (seq 0 n)))
      by (apply in_map, in_seq; lia).
    apply list_elem_of_In, Hall in Hin. rewrite chunk_from_length in Hin.
    lia. }
  assert (Hceil : forall m, (m * bs < length logs)%nat ->
                            (m < chunks_needed (length logs))%nat).
  { intros m Hm. unfold chunks_needed, maxChunkSize in *.
    assert (Hlow : (500 * S m <= length logs + (500 - 1))%nat).
    { destruct (Nat.le_gt_cases (length logs) 500).
      - assert (m = 0%nat) by nia. subst m. lia.
      - nia. }
    apply Nat.div_le_lower_bound; lia. }
  assert (Hfloor : forall m, (length logs <= m * bs)%nat ->
                             (forall j, (j < m)%nat -> (j * bs < length logs)%nat) ->
                             m = chunks_needed (length logs)).
  { intros m Hm Hj. unfold chunks_needed, maxChunkSize in *.
    destruct m as [| m].
    - assert (length logs = 0%nat) by lia. by replace (length logs) with 0%nat.
    - specialize (Hj m ltac:(lia)).
      assert (Hone : (500 < length logs)%nat \/ m = 0%nat).
      { destruct (Nat.le_gt_cases (length logs) 500); [right; nia | by left]. }
      apply (Nat.div_unique _ _ _ (length logs + 499 - 500 * S m)).
      + destruct Hone as [Hbig | ->]; nia.
      + destruct Hone as [Hbig | ->]; nia. }
  destruct c as [[e |] | v |]; [| | | done].
  - destruct Hshape as (-> & Hpos & _). rewrite chunk_from_length in Hpos.
    split; [apply Hceil; lia |].
    rewrite length_app, !length_map, length_seq. simpl. lia.
  - destruct Hshape as (-> & Hcat). split; [| by rewrite !length_map, length_seq].
    apply Hfloor; [| exact Hprev].
    rewrite concat_chunks in Hcat. apply (f_equal length) in Hcat.
    rewrite length_take in Hcat. lia.
  - destruct Hshape as (-> & Hpos). rewrite chunk_from_length in Hpos.
    split; [apply Hceil; lia |].
    rewrite length_app, !length_map, length_seq. simpl. lia.
Qed.


Lemma total_sleep_app (evs1 evs2 : list Event) :
  total_sleep (evs1 ++ evs2) = total_sleep evs1 + total_sleep evs2.
Proof.
  induction evs1 as [| e evs1 IH]; simpl; [done |]. destruct e; lia.
Qed.

Lemma log_lines_app (evs1 evs2 : list Event) :
  log_lines (evs1 ++ evs2) = (log_lines evs1 + log_lines evs2)%nat.
Proof.
  induction evs1 as [| e evs1 IH]; simpl; [done |]. destruct (is_log e); lia.
Qed.

(** An attempt only calls the collaborator: it neither sleeps nor logs, and
    it makes at most as many calls as the batch has chunks. *)
Lemma attempt_measures (db : GormDB) (logs : list Step) (attempt : nat) :
  forall db' evs c,
    flushWithRetry db logs attempt = (db', evs, c) ->
    c <> Unfinished /\
    total_sleep evs = 0 /\ log_lines evs = 0%nat /\
    length (created evs) = length evs /\
    (length evs <= chunks_needed (length logs))%nat /\
    db_calls db' = (db_calls db + length evs)%nat.
Proof.
  intros db' evs c H.
  apply flushWithRetry_spec in H as (n & Hall & _ & Hcalls & _ & Hshape).
  cbn zeta in Hall. pose proof (attempt_count _ _ _ _ _ Hall Hshape) as Hcount.
  unfold attempt_shape in Hshape. cbn zeta in Hshape.
  assert (Hoks : forall bs oks,
             total_sleep (map (ok_event bs) oks) = 0 /\
             log_lines (map (ok_event bs) oks) = 0%nat).
  { intros bs oks. induction oks as [| b oks [IH1 IH2]]; by simpl. }
  destruct c as [[e |] | v |]; [| | | done].
  - destruct Hshape as (-> & _). destruct Hcount as [Hlt Hlen].
    rewrite total_sleep_app, log_lines_app, created_app, created_oks.
    destruct (Hoks (Nat.min maxChunkSize (length logs))
                (map (chunk_from logs (Nat.min maxChunkSize (length logs)) 0)
                   (seq 0 n))) as [-> ->].
    rewrite !length_app, !length_map in *. simpl in *.
    repeat split; try done; lia.
  - destruct Hshape as (-> & _). destruct Hcount as [Hlt Hlen].
    rewrite created_oks.
    destruct (Hoks (Nat.min maxChunkSize (length logs))
                (map (chunk_from logs (Nat.min maxChunkSize (length logs)) 0)
                   (seq 0 n))) as [-> ->].
    rewrite !length_map in *.
    repeat split; try done; lia.
  - destruct Hshape as (-> & _). destruct Hcount as [Hlt Hlen].
    rewrite total_sleep_app, log_lines_app, created_app, created_oks.
    destruct (Hoks (Nat.min maxChunkSize (length logs))
                (map (chunk_from logs (Nat.min maxChunkSize (length logs)) 0)
                   (seq 0 n))) as [-> ->].
    rewrite !length_app, !length_map in *. simpl in *.
    repeat split; try done; lia.
Qed.

Lemma flush_goroutine_healthy (db : GormDB) (logs : list Step) :
  healthy db ->
  exists db',
    flush_goroutine db logs
    = (db',
       map (ok_event (Nat.min maxChunkSize (length logs)))
         (map (chunk_from logs (Nat.min maxChunkSize (length logs)) 0)
            (seq 0 (chunks_needed (length logs))))
         ++ [EvLogSuccess (length logs)],
       Returned tt) /\
    db_rows db' = db_rows db ++ logs /\
    db_calls db' = (db_calls db + chunks_needed (length logs))%nat /\
    healthy db'.
Proof.
  intros Hdb. pose proof (flushWithRetry_healthy db logs 1 Hdb) as Hok.
  unfold flush_goroutine. rewrite flush_body_unfold.
  destruct (flushWithRetry db logs 1) as [[db1 evs1] c1] eqn:H1.
  simpl in Hok. subst c1.
  apply flushWithRetry_spec in H1 as (n & Hall & Hrows & Hcalls & Horacle & Hshape).
  cbn zeta in *. pose proof (attempt_count _ _ _ _ _ Hall Hshape) as [Hn Hlen].
  unfold attempt_shape in Hshape. cbn zeta in Hshape.
  destruct Hshape as (-> & Hcat). subst n.
  exists db1. split; [reflexivity |].
  split; [by rewrite Hrows, Hcat |].
  split; [by rewrite Hcalls, Hlen |].
  unfold healthy. by rewrite Horacle.
Qed.

(** With a healthy collaborator a flush persists the batch once, in order:
    the chunks are written one after the other in a single attempt, without
    sleeping, and the success line carries the number of records. *)
Theorem healthy_flush_persists_batch_once (db : GormDB) (logs : list Step) :
  healthy db ->
  exists db',
    let bs := Nat.min maxChunkSize (length logs) in
    flush_goroutine db logs
    = (db',
       map (ok_event bs)
         (map (chunk_from logs bs 0) (seq 0 (chunks_needed (length logs))))
         ++ [EvLogSuccess (length logs)],
       Returned tt) /\
    db_rows db' = db_rows db ++ logs /\
    db_calls db' = (db_calls db + chunks_needed (length logs))%nat /\
    healthy db'.
Proof.
  intros Hdb. cbn zeta. exact (flush_goroutine_healthy db logs Hdb).
Qed.

Lemma healthy_flush_witness :
  healthy (constant_db DbOk) /\
  exists db',
    let bs := Nat.min maxChunkSize (length (samples 1200)) in
    flush_goroutine (constant_db DbOk) (samples 1200)
    = (db',
       map (ok_event bs)
         (map (chunk_from (samples 1200) bs 0)
            (seq 0 (chunks_needed (length (samples 1200)))))
         ++ [EvLogSuccess (length (samples 1200))],
       Returned tt) /\
    db_rows db' = db_rows (constant_db DbOk) ++ samples 1200 /\
    db_calls db' = (db_calls (constant_db DbOk)
                    + chunks_needed (length (samples 1200)))%nat /\
    healthy db'.
Proof.
  assert (H : healthy (constant_db DbOk)) by (intros n b; reflexivity).
  split; [exact H |].
  exact (healthy_flush_persists_batch_once (constant_db DbOk) (samples 1200) H).
Defined.

(** A retry starts over, so what the failed attempt had persisted is
    persisted again: when the first attempt fails at the chunk starting at
    record [fe_first] and the second succeeds, the store holds the first
    [fe_first] records twice. *)
Theorem retry_persists_written_chunks_again (db db1 db2 : GormDB)
    (logs : list Step) (evs1 evs2 : list Event) (e : FlushError) :
  flushWithRetry db logs 1 = (db1, evs1, Returned (Some e)) ->
  flushWithRetry db1 logs 2 = (db2, evs2, Returned None) ->
  flush_goroutine db logs
  = (db2, evs1 ++ EvSleep (1 * Second) :: evs2 ++ [EvLogSuccess (length logs)],
     Returned tt) /\
  db_rows db2 = db_rows db ++ take (fe_first e) logs ++ logs /\
  (fe_first e < length logs)%nat.
Proof.
  intros H1 H2. split.
  - unfold flush_goroutine. by rewrite flush_body_unfold, H1, H2.
  - apply flushWithRetry_spec in H1 as (n1 & _ & Hrows1 & _ & _ & Hshape1).
    apply flushWithRetry_spec in H2 as (n2 & _ & Hrows2 & _ & _ & Hshape2).
    cbn zeta in *. unfold attempt_shape in *. cbn zeta in *.
    destruct Hshape1 as (_ & Hpos & Hfirst & _).
    destruct Hshape2 as (_ & Hcat).
    rewrite chunk_from_length in Hpos.
    rewrite Hrows2, Hrows1, Hcat, concat_chunks, Hfirst, <- app_assoc.
    split; [done | lia].
Qed.

Lemma retry_duplicates_witness :
  let db := failing_once_db 1 "busy" in
  let l := samples 1200 in
  let e := {| fe_first := 500; fe_last := 999; fe_attempt := 1;
              fe_cause := "busy" |} in
  let r1 := flushWithRetry db l 1 in
  let r2 := flushWithRetry r1.1.1 l 2 in
  (r1 = (r1.1.1, r1.1.2, Returned (Some e)) /\
   r2 = (r2.1.1, r2.1.2, Returned None)) /\
  flush_goroutine db l
  = (r2.1.1, r1.1.2 ++ EvSleep (1 * Second) :: r2.1.2 ++ [EvLogSuccess (length l)],
     Returned tt) /\
  db_rows r2.1.1 = db_rows db ++ take (fe_first e) l ++ l /\
  (fe_first e < length l)%nat.
Proof.
  intros db l e r1 r2.
  assert (H1 : r1 = (r1.1.1, r1.1.2, Returned (Some e))) by (vm_compute; reflexivity).
  assert (H2 : r2 = (r2.1.1, r2.1.2, Returned None)) by (vm_compute; reflexivity).
  split; [exact (conj H1 H2) |].
  exact (retry_persists_written_chunks_again db r1.1.1 r2.1.1 l r1.1.2 r2.1.2 e H1 H2).
Defined.

Lemma ends_with_log_app (pre evs : list Event) :
  (exists p l, evs = p ++ [l] /\ is_log l = true) ->
  exists p l, pre ++ evs = p ++ [l] /\ is_log l = true.
Proof.
  intros (p & l & -> & Hl). exists (pre ++ p), l. by rewrite app_assoc.
Qed.

Lemma ends_with_log_cons (e : Event) (evs : list Event) :
  (exists p l, evs = p ++ [l] /\ is_log l = true) ->
  exists p l, e :: evs = p ++ [l] /\ is_log l = true.
Proof. intros (p & l & -> & Hl). by exists (e :: p), l. Qed.

Lemma ends_with_log_one (l : Event) :
  is_log l = true -> exists p l', [l] = p ++ [l'] /\ is_log l' = true.
Proof. intros Hl. by exists [], l. Qed.

(** Whatever the collaborator does, a flush goroutine returns after at most
    [maxRetries] attempts: it sleeps 0, 1 or 3 seconds in all, makes at most
    three times as many calls as the batch has chunks, and its last act is
    its only log line. *)
Theorem flush_effort_is_bounded (db : GormDB) (logs : list Step) :
  let '(db', evs, c) := flush_goroutine db logs in
  c = Returned tt /\
  (total_sleep evs = 0 \/ total_sleep evs = 1 * Second
   \/ total_sleep evs = 3 * Second) /\
  log_lines evs = 1%nat /\
  (exists pre l, evs = pre ++ [l] /\ is_log l = true) /\
  (length (created evs) <= maxRetries * chunks_needed (length logs))%nat /\
  db_calls db' = (db_calls db + length (created evs))%nat.
Proof.
  unfold flush_goroutine. rewrite flush_body_unfold.
  destruct (flushWithRetry db logs 1) as [[db1 evs1] c1] eqn:H1.
  apply attempt_measures in H1 as (Hc1 & Hs1 & Hl1 & Hn1 & Hb1 & Hd1).
  destruct c1 as [[e1 |] | v1 |]; [| | | done].
  2, 3: repeat (rewrite ?total_sleep_app, ?log_lines_app, ?created_app, ?length_app;
                simpl);
        rewrite ?Hs1, ?Hl1, ?Hn1; unfold maxRetries, Second;
        (split; [done |]); (split; [lia |]); (split; [done |]);
        (split; [repeat first [apply ends_with_log_one; reflexivity
                              | apply ends_with_log_app
                              | apply ends_with_log_cons] |]); lia.
  destruct (flushWithRetry db1 logs 2) as [[db2 evs2] c2] eqn:H2.
  apply attempt_measures in H2 as (Hc2 & Hs2 & Hl2 & Hn2 & Hb2 & Hd2).
  destruct c2 as [[e2 |] | v2 |]; [| | | done].
  2, 3: repeat (rewrite ?total_sleep_app, ?log_lines_app, ?created_app, ?length_app;
                simpl);
        rewrite ?Hs1, ?Hl1, ?Hn1, ?Hs2, ?Hl2, ?Hn2; unfold maxRetries, Second;
        (split; [done |]); (split; [lia |]); (split; [done |]);
        (split; [repeat first [apply ends_with_log_one; reflexivity
                              | apply ends_with_log_app
                              | apply ends_with_log_cons] |]); lia.
  destruct (flushWithRetry db2 logs 3) as [[db3 evs3] c3] eqn:H3.
  apply attempt_measures in H3 as (Hc3 & Hs3 & Hl3 & Hn3 & Hb3 & Hd3).
  destruct c3 as [[e3 |] | v3 |]; [| | | done].
  all: repeat (rewrite ?total_sleep_app, ?log_lines_app, ?created_app, ?length_app;
               simpl);
       rewrite ?Hs1, ?Hl1, ?Hn1, ?Hs2, ?Hl2, ?Hn2, ?Hs3, ?Hl3, ?Hn3;
       unfold maxRetries, Second;
       (split; [done |]); (split; [lia |]); (split; [done |]);
       (split; [repeat first [apply ends_with_log_one; reflexivity
                             | apply ends_with_log_app
                             | apply ends_with_log_cons] |]); lia.
Qed.


(** * Further properties of the worker and the channel *)

Lemma reached_inv (cfg : Config) (sched : list Action) (w : World) :
  0 <= BufferSize cfg -> run (Start cfg).1 sched = Some w -> world_inv cfg w.
Proof. intros Hsize Hrun. eapply run_inv; [by apply Start_inv | exact Hrun]. Qed.

(** [flush] hands over exactly the slice it was given, or nothing. *)
Lemma flush_cases (tasks : list slice) (logs : slice) :
  (sl_len logs = 0%nat /\ flush tasks logs = tasks) \/
  ((0 < sl_len logs)%nat /\ flush tasks logs = tasks ++ [logs]).
Proof.
  unfold flush. destruct (Nat.eqb_spec (sl_len logs) 0); [by left | right].
  split; [lia | done].
Qed.

Lemma worker_on_record_batch (cfg : Config) (w : World) (buf : slice) (s : Step) :
  batch_inv cfg w -> w_worker w = WLoop (BatchSize cfg) buf ->
  batch_inv cfg (worker_on_record w (BatchSize cfg) buf s).
Proof.
  intros [Hb Ht] Hw. unfold worker_on_record.
  assert (Hlen : sl_len (append (w_heap w) buf s).2 = S (sl_len buf)).
  { unfold append. by destruct (sl_len buf <? sl_cap buf)%nat. }
  destruct (append (w_heap w) buf s) as [h buf1]. simpl in Hlen.
  destruct (Z.geb_spec (Z.of_nat (sl_len buf1)) (BatchSize cfg)) as [Hge | Hlt];
    constructor; simpl.
  - intros bs' buf' [= <- <-]. by left.
  - destruct (flush_cases (w_tasks w) buf1) as [[_ ->] | [_ ->]]; [done |].
    apply Forall_app. split; [done |]. constructor; [| constructor].
    destruct (Hb _ _ Hw) as [Hzero | Hbelow]; [left; lia | right; lia].
  - intros bs' buf' [= <- <-]. right. lia.
  - done.
Qed.

Lemma crash_batch_inv (cfg : Config) (w : World) (msg : string) :
  batch_inv cfg w -> batch_inv cfg (crash w msg).
Proof. intros [Hb Ht]. constructor; [exact Hb | exact Ht]. Qed.

Lemma with_buffer_batch_inv (cfg : Config) (w : World) (b : option chan) :
  batch_inv cfg w -> batch_inv cfg (with_buffer w b).
Proof. intros [Hb Ht]. constructor; [exact Hb | exact Ht]. Qed.

Lemma step_batch_inv (cfg : Config) (w w' : World) (a : Action) :
  world_inv cfg w -> batch_inv cfg w -> step w a = Some w' -> batch_inv cfg w'.
Proof.
  intros Hinv Hbinv. pose proof Hbinv as [Hb Ht]. unfold step.
  destruct (w_crashed w); [done |].
  destruct a as [parked s | | | | | k |].
  - destruct (select_send_default parked (w_buffer w) s) as [[| | |] b];
      try (intros [= <-];
           first [done | by apply crash_batch_inv | by apply with_buffer_batch_inv]).
    destruct (w_worker w) as [| | bs buf | |] eqn:Hw; try done.
    destruct (inv_loop _ _ Hinv bs buf Hw) as [-> _].
    intros [= <-]. by apply worker_on_record_batch.
  - destruct (closechan (w_buffer w)); intros [= <-];
      [by apply with_buffer_batch_inv | by apply crash_batch_inv].
  - destruct (w_worker w) as [| interval bs | | |] eqn:Hw; try done.
    intros [= <-]. unfold worker_begin.
    destruct (interval <=? 0); [by apply crash_batch_inv |].
    unfold makeslice. destruct (wrap64 (bs * 2) <? 0); [by apply crash_batch_inv |].
    constructor; simpl; [| done]. intros bs' buf' [= <- <-]. by left.
  - destruct (w_worker w) as [| | bs buf | |] eqn:Hw; try done.
    destruct (inv_loop _ _ Hinv bs buf Hw) as [-> _].
    destruct (chanrecv (w_buffer w)) as [[s | |] b]; [| | done].
    + intros [= <-].
      apply (worker_on_record_batch cfg (with_buffer w b));
        [by apply with_buffer_batch_inv | done].
    + intros [= <-]. constructor; simpl; [done |].
      destruct (0 <? sl_len buf)%nat; [| done].
      destruct (flush_cases (w_tasks w) buf) as [[_ ->] | [Hpos ->]]; [done |].
      apply Forall_app. split; [done |]. constructor; [| constructor].
      destruct (Hb _ _ eq_refl) as [Hzero | Hbelow]; [lia | right; lia].
  - destruct (w_worker w) as [| | bs buf | |] eqn:Hw; try done.
    destruct (inv_loop _ _ Hinv bs buf Hw) as [-> _].
    intros [= <-]. unfold worker_on_tick.
    destruct (0 <? sl_len buf)%nat; [| done].
    constructor; simpl.
    + intros bs' buf' [= <- <-]. by left.
    + destruct (flush_cases (w_tasks w) buf) as [[_ ->] | [Hpos ->]]; [done |].
      apply Forall_app. split; [done |]. constructor; [| constructor].
      destruct (Hb _ _ eq_refl) as [Hzero | Hbelow]; [lia | right; lia].
  - unfold run_flush. destruct (w_tasks w !! k); [| done].
    destruct (flush_goroutine _ _) as [[db evs] [[] | v |]]; [| | done];
      intros [= <-]; constructor; simpl; try done;
      rewrite delete_take_drop; apply Forall_app; split;
      [by apply Forall_take | by apply Forall_drop
      | by apply Forall_take | by apply Forall_drop].
  - destruct (w_worker w) as [| | bs buf | |] eqn:Hw; try done.
    intros [= <-]. by constructor.
Qed.

Lemma run_batch_inv (cfg : Config) (sched : list Action) :
  forall w w', world_inv cfg w -> batch_inv cfg w -> run w sched = Some w' ->
               batch_inv cfg w'.
Proof.
  induction sched as [| a sched IH]; intros w w' Hinv Hbinv; simpl.
  - by intros [= <-].
  - destruct (step w a) as [w1 |] eqn:Hstep; [| done].
    apply IH; [by eapply step_inv | by eapply step_batch_inv].
Qed.

Lemma Start_batch_inv (cfg : Config) : batch_inv cfg (Start cfg).1.
Proof.
  unfold Start. destruct (makechan (BufferSize cfg)); [| by constructor].
  destruct (db_sql_err (DB cfg)); [by constructor |].
  destruct (db_migrate_err (DB cfg)); by constructor.
Qed.

(** No batch handed to the writer is longer than [BatchSize] (than one
    record, if [BatchSize] is below 1), none is empty, and the worker is
    never at its [select] with a batch of [BatchSize] records or more.  With
    [BatchSize] at most 500 a batch is therefore always a single chunk. *)
Theorem batches_never_exceed_BatchSize (cfg : Config) (sched : list Action)
    (w : World) :
  0 <= BufferSize cfg ->
  run (Start cfg).1 sched = Some w ->
  (forall bs buf, w_worker w = WLoop bs buf ->
                  Z.of_nat (length (slice_read (w_heap w) buf))
                  < Z.max 1 (BatchSize cfg)) /\
  Forall (fun t =>
            1 <= Z.of_nat (length (slice_read (w_heap w) t))
              <= Z.max 1 (BatchSize cfg) /\
            (BatchSize cfg <= Z.of_nat maxChunkSize ->
             chunks_needed (length (slice_read (w_heap w) t)) = 1%nat))
    (w_tasks w).
Proof.
  intros Hsize Hrun.
  pose proof (reached_inv cfg sched w Hsize Hrun) as Hinv.
  assert (Hbinv : batch_inv cfg w).
  { eapply run_batch_inv; [by apply Start_inv | apply Start_batch_inv | exact Hrun]. }
  destruct Hbinv as [Hb Ht]. split.
  - intros bs buf Hw. destruct (inv_loop _ _ Hinv bs buf Hw) as [_ Hok].
    rewrite (slice_read_length _ _ Hok). destruct (Hb bs buf Hw); lia.
  - pose proof (inv_tasks _ _ Hinv) as Hok.
    rewrite Forall_forall in *. intros t Hin.
    destruct (Hok t Hin) as [Hslice Hpos]. specialize (Ht t Hin).
    rewrite (slice_read_length _ _ Hslice). split; [lia |].
    intros Hsmall. unfold chunks_needed, maxChunkSize in *.
    symmetry. apply (Nat.div_unique _ _ _ (sl_len t - 1)); lia.
Qed.

Lemma batches_bound_witness :
  let cfg := example_config 1000 2 (constant_db DbOk) in
  let sched := AWorkerBegin :: map (ASubmit false) (samples 3)
                 ++ replicate 3 ARecv in
  (0 <= BufferSize cfg /\ run (Start cfg).1 sched = Some (reached cfg sched)) /\
  (forall bs buf, w_worker (reached cfg sched) = WLoop bs buf ->
                  Z.of_nat (length (slice_read (w_heap (reached cfg sched)) buf))
                  < Z.max 1 (BatchSize cfg)) /\
  Forall (fun t =>
            1 <= Z.of_nat (length (slice_read (w_heap (reached cfg sched)) t))
              <= Z.max 1 (BatchSize cfg) /\
            (BatchSize cfg <= Z.of_nat maxChunkSize ->
             chunks_needed (length (slice_read (w_heap (reached cfg sched)) t))
             = 1%nat))
    (w_tasks (reached cfg sched)).
Proof.
  intros cfg sched.
  assert (H0 : 0 <= BufferSize cfg) by (vm_compute; discriminate).
  assert (H1 : run (Start cfg).1 sched = Some (reached cfg sched))
    by (vm_compute; reflexivity).
  split; [exact (conj H0 H1) |].
  exact (batches_never_exceed_BatchSize cfg sched (reached cfg sched) H0 H1).
Defined.


Lemma wrap64_small (z : Z) : - 2 ^ 63 <= z < 2 ^ 63 -> wrap64 z = z.
Proof.
  intros Hz. unfold wrap64. rewrite Z.mod_small; lia.
Qed.

Lemma crash_storage_inv (cfg : Config) (w : World) (msg : string) :
  storage_inv cfg w -> storage_inv cfg (crash w msg).
Proof. intros [H1 H2 H3 H4 H5]. constructor; assumption. Qed.

Lemma with_buffer_storage_inv (cfg : Config) (w : World) (b : option chan) :
  storage_inv cfg w -> storage_inv cfg (with_buffer w b).
Proof. intros [H1 H2 H3 H4 H5]. constructor; assumption. Qed.

Lemma worker_on_record_storage (cfg : Config) (w : World) (buf : slice) (s : Step) :
  1 <= BatchSize cfg ->
  batch_inv cfg w -> storage_inv cfg w -> w_worker w = WLoop (BatchSize cfg) buf ->
  storage_inv cfg (worker_on_record w (BatchSize cfg) buf s).
Proof.
  intros Hbs [Hb _] [Hheap Hloop Hidle Hspawned Htasks] Hw.
  destruct (Hloop _ _ Hw) as (Hone & Harr & Hcap).
  assert (Hroom : (sl_len buf < sl_cap buf)%nat) by (destruct (Hb _ _ Hw); lia).
  unfold worker_on_record, append.
  destruct (Nat.ltb_spec (sl_len buf) (sl_cap buf)) as [_ | Hfull]; [| lia].
  cbn [sl_len sl_arr sl_cap].
  destruct (Z.of_nat (S (sl_len buf)) >=? BatchSize cfg);
    constructor; simpl; rewrite ?length_alter; try done.
  - intros bs' buf' [= <- <-]. done.
  - destruct (flush_cases (w_tasks w)
                {| sl_arr := sl_arr buf; sl_len := S (sl_len buf);
                   sl_cap := sl_cap buf |}) as [[_ ->] | [_ ->]]; [done |].
    apply Forall_app. split; [done |]. by repeat constructor.
  - intros bs' buf' [= <- <-]. done.
Qed.

Lemma step_storage_inv (cfg : Config) (w w' : World) (a : Action) :
  1 <= BatchSize cfg < 2 ^ 62 ->
  world_inv cfg w -> batch_inv cfg w -> storage_inv cfg w ->
  step w a = Some w' -> storage_inv cfg w'.
Proof.
  intros Hbs Hinv Hbinv Hsinv.
  pose proof Hsinv as [Hheap Hloop Hidle Hspawned Htasks].
  pose proof Hbinv as [Hb _]. unfold step.
  destruct (w_crashed w); [done |].
  destruct a as [parked s | | | | | k |].
  - destruct (select_send_default parked (w_buffer w) s) as [[| | |] b];
      try (intros [= <-];
           first [done | by apply crash_storage_inv
                 | by apply with_buffer_storage_inv]).
    destruct (w_worker w) as [| | bs buf | |] eqn:Hw; try done.
    destruct (inv_loop _ _ Hinv bs buf Hw) as [-> _].
    intros [= <-]. apply worker_on_record_storage; [lia | done | done | done].
  - destruct (closechan (w_buffer w)); intros [= <-];
      [by apply with_buffer_storage_inv | by apply crash_storage_inv].
  - destruct (w_worker w) as [| interval bs | | |] eqn:Hw; try done.
    destruct (inv_spawned _ _ Hinv interval bs Hw) as [_ ->].
    destruct (Hspawned _ _ eq_refl) as [Hnil Hnone].
    intros [= <-]. unfold worker_begin.
    destruct (interval <=? 0); [by apply crash_storage_inv |].
    unfold makeslice. rewrite wrap64_small by lia.
    destruct (Z.ltb_spec (BatchSize cfg * 2) 0); [lia |].
    constructor; simpl; rewrite ?Hnil, ?Hnone; simpl; try done.
    intros bs' buf' [= <- <-]. repeat split. simpl. lia.
  - destruct (w_worker w) as [| | bs buf | |] eqn:Hw; try done.
    destruct (inv_loop _ _ Hinv bs buf Hw) as [-> _].
    destruct (Hloop _ _ eq_refl) as (Hone & Harr & Hcap).
    destruct (chanrecv (w_buffer w)) as [[s | |] b]; [| | done].
    + intros [= <-].
      apply (worker_on_record_storage cfg (with_buffer w b));
        [lia | by apply with_buffer_batch_inv | by apply with_buffer_storage_inv
        | done].
    + intros [= <-]. constructor; simpl; try done.
      destruct (0 <? sl_len buf)%nat; [| done].
      destruct (flush_cases (w_tasks w) buf) as [[_ ->] | [_ ->]]; [done |].
      apply Forall_app. split; [done |]. by repeat constructor.
  - destruct (w_worker w) as [| | bs buf | |] eqn:Hw; try done.
    destruct (inv_loop _ _ Hinv bs buf Hw) as [-> _].
    destruct (Hloop _ _ eq_refl) as (Hone & Harr & Hcap).
    intros [= <-]. unfold worker_on_tick.
    destruct (0 <? sl_len buf)%nat; [| done].
    constructor; simpl; try done.
    + intros bs' buf' [= <- <-]. done.
    + destruct (flush_cases (w_tasks w) buf) as [[_ ->] | [_ ->]]; [done |].
      apply Forall_app. split; [done |]. by repeat constructor.
  - unfold run_flush. destruct (w_tasks w !! k) as [t |] eqn:Hk; [| done].
    assert (Hbusy : w_worker w <> WIdle /\
                    forall i bs, w_worker w <> WSpawned i bs).
    { split; [intros Hw | intros i bs Hw].
      - destruct (Hidle Hw) as [_ Hnone]. by rewrite Hnone in Hk.
      - destruct (Hspawned _ _ Hw) as [_ Hnone]. by rewrite Hnone in Hk. }
    destruct Hbusy as [Hnot1 Hnot2].
    destruct (flush_goroutine _ _) as [[db evs] [[] | v |]]; [| | done];
      intros [= <-]; constructor; simpl;
      [ done | exact Hloop | intros Hw; by destruct Hnot1
      | intros i bs Hw; by destruct (Hnot2 i bs)
      | rewrite delete_take_drop; apply Forall_app; split;
        [by apply Forall_take | by apply Forall_drop]
      | done | exact Hloop | intros Hw; by destruct Hnot1
      | intros i bs Hw; by destruct (Hnot2 i bs)
      | rewrite delete_take_drop; apply Forall_app; split;
        [by apply Forall_take | by apply Forall_drop] ].
  - destruct (w_worker w) as [| | bs buf | |] eqn:Hw; try done.
    intros [= <-]. by constructor.
Qed.

Lemma run_storage_inv (cfg : Config) (sched : list Action) :
  1 <= BatchSize cfg < 2 ^ 62 ->
  forall w w',
    world_inv cfg w -> batch_inv cfg w -> storage_inv cfg w ->
    run w sched = Some w' -> storage_inv cfg w'.
Proof.
  intros Hbs.
  induction sched as [| a sched IH]; intros w w' Hinv Hbinv Hsinv; simpl.
  - by intros [= <-].
  - destruct (step w a) as [w1 |] eqn:Hstep; [| done].
    apply IH; [by eapply step_inv | by eapply step_batch_inv
              | by eapply step_storage_inv].
Qed.

Lemma Start_storage_inv (cfg : Config) : storage_inv cfg (Start cfg).1.
Proof.
  unfold Start. destruct (makechan (BufferSize cfg));
    [destruct (db_sql_err (DB cfg)); [| destruct (db_migrate_err (DB cfg))] |];
    constructor; simpl; try done; lia.
Qed.

(** With [BatchSize] between 1 and 2^62 the worker never allocates after
    its [make]: the heap holds at most one backing array, of [2 * BatchSize]
    cells, [append] always writes in place, and the worker's slice and the
    slice of every waiting flush goroutine are slices of that one array. *)
Theorem worker_storage_is_one_array (cfg : Config) (sched : list Action)
    (w : World) :
  0 <= BufferSize cfg ->
  1 <= BatchSize cfg < 2 ^ 62 ->
  run (Start cfg).1 sched = Some w ->
  (length (w_heap w) <= 1)%nat /\
  (forall bs buf,
     w_worker w = WLoop bs buf ->
     exists a, w_heap w = [a] /\ Z.of_nat (length a) = 2 * BatchSize cfg /\
               sl_arr buf = 0%nat /\ (sl_len buf < sl_cap buf)%nat /\
               forall v, (append (w_heap w) buf v).1 = [<[sl_len buf := v]> a]) /\
  Forall (fun t => sl_arr t = 0%nat) (w_tasks w).
Proof.
  intros Hsize Hbs Hrun.
  pose proof (reached_inv cfg sched w Hsize Hrun) as Hinv.
  assert (Hbinv : batch_inv cfg w).
  { eapply run_batch_inv; [by apply Start_inv | apply Start_batch_inv | exact Hrun]. }
  assert (Hsinv : storage_inv cfg w).
  { eapply (run_storage_inv cfg sched Hbs);
      [by apply Start_inv | apply Start_batch_inv | apply Start_storage_inv
      | exact Hrun]. }
  destruct Hsinv as [Hheap Hloop _ _ Htasks]. split; [done |]. split.
  - intros bs buf Hw.
    destruct (Hloop _ _ Hw) as (Hone & Harr & Hcap).
    destruct (inv_loop _ _ Hinv bs buf Hw) as [_ (a & Ha & Hlen & Hle)].
    destruct (binv_batch _ _ Hbinv bs buf Hw) as [Hzero | Hbelow].
    all: destruct (w_heap w) as [| a' [| ? ?]] eqn:Hh; simpl in Hone; try lia.
    all: rewrite Harr in Ha; simpl in Ha; injection Ha as ->.
    all: exists a; split; [done |]; split; [lia |]; split; [done |].
    all: assert (Hroom : (sl_len buf < sl_cap buf)%nat) by lia.
    all: split; [done |]; intros v; unfold append.
    all: destruct (Nat.ltb_spec (sl_len buf) (sl_cap buf)); [| lia].
    all: by rewrite Harr.
  - eapply Forall_impl; [exact Htasks |]. by intros t [? _].
Qed.

Lemma worker_storage_witness :
  let cfg := example_config 1000 2 (constant_db DbOk) in
  let sched := AWorkerBegin :: map (ASubmit false) (samples 5)
                 ++ replicate 5 ARecv in
  (0 <= BufferSize cfg /\ 1 <= BatchSize cfg < 2 ^ 62 /\
   run (Start cfg).1 sched = Some (reached cfg sched)) /\
  (length (w_heap (reached cfg sched)) <= 1)%nat /\
  (forall bs buf,
     w_worker (reached cfg sched) = WLoop bs buf ->
     exists a, w_heap (reached cfg sched) = [a] /\
               Z.of_nat (length a) = 2 * BatchSize cfg /\
               sl_arr buf = 0%nat /\ (sl_len buf < sl_cap buf)%nat /\
               forall v, (append (w_heap (reached cfg sched)) buf v).1
                         = [<[sl_len buf := v]> a]) /\
  Forall (fun t => sl_arr t = 0%nat) (w_tasks (reached cfg sched)).
Proof.
  intros cfg sched.
  assert (H0 : 0 <= BufferSize cfg) by (vm_compute; discriminate).
  assert (H1 : 1 <= BatchSize cfg < 2 ^ 62)
    by (vm_compute; split; [discriminate | reflexivity]).
  assert (H2 : run (Start cfg).1 sched = Some (reached cfg sched))
    by (vm_compute; reflexivity).
  split; [exact (conj H0 (conj H1 H2)) |].
  exact (worker_storage_is_one_array cfg sched (reached cfg sched) H0 H1 H2).
Defined.


(** [batchSize*2] as the worker computes it: negative exactly when
    [batchSize] is negative down to [-2^62], or at least [2^62]. *)
Lemma doubled_capacity_negative (b : Z) :
  - 2 ^ 63 <= b < 2 ^ 63 ->
  (wrap64 (b * 2) < 0 <-> - 2 ^ 62 <= b < 0 \/ 2 ^ 62 <= b).
Proof.
  intros Hb. unfold wrap64.
  change (2 ^ 64) with 18446744073709551616.
  change (2 ^ 63) with 9223372036854775808 in *.
  change (2 ^ 62) with 4611686018427387904.
  pose proof (Z.mod_pos_bound (b * 2 + 9223372036854775808) 18446744073709551616
                ltac:(lia)) as Hm.
  pose proof (Z.div_mod (b * 2 + 9223372036854775808) 18446744073709551616
                ltac:(lia)) as Hd.
  nia.
Qed.

(** [Start] does not check [FlushInterval] or [BatchSize].  It returns nil
    for any of their values, and the worker goroutine it has started then
    panics on entry when [FlushInterval] is not positive ([time.NewTicker])
    or when [BatchSize*2] is negative as an [int] ([make]): for a negative
    [BatchSize] down to [-2^62], and for one of [2^62] or more, where the
    product overflows.  Nothing recovers that panic, and no action of the
    process is possible afterwards.  A worker that does reach its loop has
    an empty batch on a fresh array. *)
Theorem worker_entry_panics_unless_configuration_is_sound (cfg : Config) :
  (Start cfg).2 = StartOk ->
  - 2 ^ 63 <= BatchSize cfg < 2 ^ 63 ->
  exists w,
    step (Start cfg).1 AWorkerBegin = Some w /\
    (FlushInterval cfg <= 0 \/ - 2 ^ 62 <= BatchSize cfg < 0
     \/ 2 ^ 62 <= BatchSize cfg ->
     w_crashed w <> None) /\
    (w_crashed w = None ->
     exists buf, w_worker w = WLoop (BatchSize cfg) buf /\
                 slice_read (w_heap w) buf = [] /\ sl_arr buf = 0%nat /\
                 Z.of_nat (sl_cap buf) = wrap64 (BatchSize cfg * 2) /\
                 w_tasks w = []) /\
    (w_crashed w <> None -> forall a, step w a = None).
Proof.
  intros Hok Hrange. unfold Start in *.
  destruct (makechan (BufferSize cfg)) as [c |]; [| done].
  destruct (db_sql_err (DB cfg)); [done |].
  destruct (db_migrate_err (DB cfg)); [done |]. clear Hok.
  unfold step. cbn [fst w_crashed w_worker]. unfold worker_begin.
  pose proof (doubled_capacity_negative (BatchSize cfg) Hrange) as Hneg.
  destruct (Z.leb_spec (FlushInterval cfg) 0) as [Hbad | Hgood].
  { eexists. split; [reflexivity |]. simpl.
    split; [done |]. split; [done |].
    intros _ a. unfold step. done. }
  unfold makeslice. cbn [w_heap].
  destruct (Z.ltb_spec (wrap64 (BatchSize cfg * 2)) 0) as [Hnegcap | Hcap].
  { eexists. split; [reflexivity |]. simpl.
    split; [done |]. split; [done |].
    intros _ a. unfold step. done. }
  eexists. split; [reflexivity |]. simpl.
  split; [lia |].
  split; [| done]. intros _. eexists. split; [reflexivity |].
  unfold slice_read. simpl. repeat split. lia.
Qed.

Lemma worker_entry_witness :
  let cfg := example_config 1000 (2 ^ 62) (constant_db DbOk) in
  ((Start cfg).2 = StartOk /\ - 2 ^ 63 <= BatchSize cfg < 2 ^ 63) /\
  exists w,
    step (Start cfg).1 AWorkerBegin = Some w /\
    (FlushInterval cfg <= 0 \/ - 2 ^ 62 <= BatchSize cfg < 0
     \/ 2 ^ 62 <= BatchSize cfg ->
     w_crashed w <> None) /\
    (w_crashed w = None ->
     exists buf, w_worker w = WLoop (BatchSize cfg) buf /\
                 slice_read (w_heap w) buf = [] /\ sl_arr buf = 0%nat /\
                 Z.of_nat (sl_cap buf) = wrap64 (BatchSize cfg * 2) /\
                 w_tasks w = []) /\
    (w_crashed w <> None -> forall a, step w a = None).
Proof.
  intros cfg.
  assert (H0 : (Start cfg).2 = StartOk) by reflexivity.
  assert (H1 : - 2 ^ 63 <= BatchSize cfg < 2 ^ 63)
    by (vm_compute; split; [discriminate | reflexivity]).
  split; [exact (conj H0 H1) |].
  exact (worker_entry_panics_unless_configuration_is_sound cfg H0 H1).
Defined.

(** The ticker case: a non-empty batch goes to one new flush goroutine and
    the worker starts an empty one; an empty batch changes nothing at all.
    Nothing is written by the tick itself. *)
Theorem tick_flushes_nonempty_batch_only (cfg : Config) (sched : list Action)
    (w : World) (bs : Z) (buf : slice) :
  0 <= BufferSize cfg ->
  run (Start cfg).1 sched = Some w ->
  w_crashed w = None ->
  w_worker w = WLoop bs buf ->
  exists w',
    step w ATick = Some w' /\
    w_crashed w' = None /\ w_buffer w' = w_buffer w /\ w_heap w' = w_heap w /\
    w_db w' = w_db w /\ w_events w' = w_events w /\
    (slice_read (w_heap w) buf = [] -> w' = w) /\
    (slice_read (w_heap w) buf <> [] ->
     exists buf',
       w_worker w' = WLoop bs buf' /\ slice_read (w_heap w') buf' = [] /\
       w_tasks w' = w_tasks w ++ [buf]).
Proof.
  intros Hsize Hrun Hlive Hw.
  pose proof (reached_inv cfg sched w Hsize Hrun) as Hinv.
  destruct (inv_loop _ _ Hinv bs buf Hw) as [_ Hok].
  pose proof (slice_read_length _ _ Hok) as Hlen.
  exists (worker_on_tick w bs buf). split; [unfold step; by rewrite Hlive, Hw |].
  unfold worker_on_tick.
  destruct (Nat.ltb_spec 0 (sl_len buf)) as [Hpos | Hzero]; simpl.
  - do 5 (split; [done |]). split.
    + intros Hnil. rewrite Hnil in Hlen. simpl in Hlen. lia.
    + intros _. exists (reslice0 buf). split; [done |].
      split; [apply reslice0_read |].
      destruct (flush_cases (w_tasks w) buf) as [[? _] | [_ ->]]; [lia | done].
  - do 5 (split; [done |]). split; [done |].
    intros Hne. destruct (slice_read (w_heap w) buf); [done | simpl in Hlen; lia].
Qed.

Lemma tick_witness :
  let cfg := example_config 1000 100 (constant_db DbOk) in
  let sched := [AWorkerBegin; ASubmit false (sample 0); ARecv] in
  let w := reached cfg sched in
  let buf := {| sl_arr := 0; sl_len := 1; sl_cap := 200 |} in
  (0 <= BufferSize cfg /\ run (Start cfg).1 sched = Some w /\
   w_crashed w = None /\ w_worker w = WLoop 100 buf) /\
  exists w',
    step w ATick = Some w' /\
    w_crashed w' = None /\ w_buffer w' = w_buffer w /\ w_heap w' = w_heap w /\
    w_db w' = w_db w /\ w_events w' = w_events w /\
    (slice_read (w_heap w) buf = [] -> w' = w) /\
    (slice_read (w_heap w) buf <> [] ->
     exists buf',
       w_worker w' = WLoop 100 buf' /\ slice_read (w_heap w') buf' = [] /\
       w_tasks w' = w_tasks w ++ [buf]).
Proof.
  intros cfg sched w buf.
  assert (H0 : 0 <= BufferSize cfg) by (vm_compute; discriminate).
  assert (H1 : run (Start cfg).1 sched = Some w) by (vm_compute; reflexivity).
  assert (H2 : w_crashed w = None) by (vm_compute; reflexivity).
  assert (H3 : w_worker w = WLoop 100 buf) by (vm_compute; reflexivity).
  split; [exact (conj H0 (conj H1 (conj H2 H3))) |].
  exact (tick_flushes_nonempty_batch_only cfg sched w 100 buf H0 H1 H2 H3).
Defined.




Lemma take_take_app {A : Type} (n : nat) (l k : list A) :
  take n (take n l ++ k) = take n (l ++ k).
Proof.
  destruct (Nat.le_gt_cases (length l) n) as [Hle | Hgt].
  - by rewrite (take_ge l n).
  - rewrite !take_app_le; [by rewrite take_take, Nat.min_id | lia |].
    rewrite length_take. lia.
Qed.

(** One send with nobody parked: the queue becomes the first [cap] records
    of itself followed by the new one. *)
Lemma submit_unparked (w : World) (c : chan) (s : Step) :
  w_crashed w = None -> w_buffer w = Some c -> ch_closed c = false ->
  (length (ch_queue c) <= ch_cap c)%nat ->
  step w (ASubmit false s)
  = Some (with_buffer w
            (Some {| ch_cap := ch_cap c;
                     ch_queue := take (ch_cap c) (ch_queue c ++ [s]);
                     ch_closed := false |})).
Proof.
  intros Hlive Hc Hopen Hlen. unfold step, select_send_default.
  rewrite Hlive, Hc, Hopen.
  destruct (Nat.ltb_spec (length (ch_queue c)) (ch_cap c)) as [Hroom | Hfull].
  - rewrite take_ge; [done |]. rewrite length_app. simpl. lia.
  - simpl. rewrite take_app_le, take_ge by lia.
    f_equal. unfold with_buffer. destruct w; simpl in *. subst.
    destruct c; simpl in *. by subst.
Qed.

Lemma burst (rs : list Step) :
  forall w c,
    w_crashed w = None -> w_buffer w = Some c -> ch_closed c = false ->
    (length (ch_queue c) <= ch_cap c)%nat ->
    run w (map (ASubmit false) rs)
    = Some (with_buffer w
              (Some {| ch_cap := ch_cap c;
                       ch_queue := take (ch_cap c) (ch_queue c ++ rs);
                       ch_closed := false |})).
Proof.
  induction rs as [| r rs IH]; intros w c Hlive Hc Hopen Hlen.
  - simpl. rewrite app_nil_r, take_ge by lia. f_equal.
    unfold with_buffer. destruct w; simpl in *. subst.
    destruct c; simpl in *. by subst.
  - cbn [map run]. rewrite (submit_unparked w c r Hlive Hc Hopen Hlen).
    rewrite (IH _ {| ch_cap := ch_cap c;
                     ch_queue := take (ch_cap c) (ch_queue c ++ [r]);
                     ch_closed := false |}); simpl; try done.
    + by rewrite take_take_app, <- app_assoc.
    + rewrite length_take. lia.
Qed.

(** A burst of sends while the worker does not receive: the queue keeps its
    records and takes the new ones in order until it is full; the rest of
    the burst is dropped, and nothing else in the process changes. *)
Theorem burst_keeps_oldest_records (cfg : Config) (sched : list Action)
    (w : World) (rs : list Step) :
  0 <= BufferSize cfg ->
  no_close sched ->
  run (Start cfg).1 sched = Some w ->
  w_crashed w = None ->
  exists c w',
    w_buffer w = Some c /\
    run w (map (ASubmit false) rs) = Some w' /\
    w_buffer w'
    = Some {| ch_cap := Z.to_nat (BufferSize cfg);
              ch_queue := take (Z.to_nat (BufferSize cfg)) (ch_queue c ++ rs);
              ch_closed := false |} /\
    w_worker w' = w_worker w /\ w_tasks w' = w_tasks w /\
    w_heap w' = w_heap w /\ w_db w' = w_db w /\ w_events w' = w_events w /\
    w_crashed w' = None.
Proof.
  intros Hsize Hno Hrun Hlive.
  pose proof (reached_inv cfg sched w Hsize Hrun) as Hinv.
  destruct (run_keeps_open sched _ _ Hno (Start_open cfg Hsize) Hrun)
    as (c & Hc & Hopen).
  destruct (inv_buffer _ _ Hinv) as (c0 & Hc0 & Hcap & Hlen).
  rewrite Hc in Hc0. injection Hc0 as <-.
  exists c. eexists. split; [done |].
  split; [by apply burst |]. simpl. rewrite Hcap. by repeat split.
Qed.

Lemma burst_witness :
  let cfg := example_config 3 100 (constant_db DbOk) in
  let sched := [AWorkerBegin; ASubmit false (sample 0)] in
  let w := reached cfg sched in
  (0 <= BufferSize cfg /\ no_close sched /\
   run (Start cfg).1 sched = Some w /\ w_crashed w = None) /\
  exists c w',
    w_buffer w = Some c /\
    run w (map (ASubmit false) [sample 1; sample 2; sample 3; sample 4]) = Some w' /\
    w_buffer w'
    = Some {| ch_cap := Z.to_nat (BufferSize cfg);
              ch_queue := take (Z.to_nat (BufferSize cfg))
                            (ch_queue c ++ [sample 1; sample 2; sample 3; sample 4]);
              ch_closed := false |} /\
    w_worker w' = w_worker w /\ w_tasks w' = w_tasks w /\
    w_heap w' = w_heap w /\ w_db w' = w_db w /\ w_events w' = w_events w /\
    w_crashed w' = None.
Proof.
  intros cfg sched w.
  assert (H0 : 0 <= BufferSize cfg) by (vm_compute; discriminate).
  assert (H1 : no_close sched) by (repeat constructor; discriminate).
  assert (H2 : run (Start cfg).1 sched = Some w) by (vm_compute; reflexivity).
  assert (H3 : w_crashed w = None) by (vm_compute; reflexivity).
  split; [exact (conj H0 (conj H1 (conj H2 H3))) |].
  exact (burst_keeps_oldest_records cfg sched w
           [sample 1; sample 2; sample 3; sample 4] H0 H1 H2 H3).
Defined.

(** While no worker exists, only sends can happen, and they only fill the
    queue. *)
Lemma idle_run (sched : list Action) :
  forall w w' c,
    no_close sched ->
    w_crashed w = None -> w_worker w = WIdle -> w_tasks w = [] ->
    w_buffer w = Some c -> ch_closed c = false ->
    (length (ch_queue c) <= ch_cap c)%nat ->
    run w sched = Some w' ->
    w' = with_buffer w
           (Some {| ch_cap := ch_cap c;
                    ch_queue := take (ch_cap c) (ch_queue c ++ submitted sched);
                    ch_closed := false |}).
Proof.
  induction sched as [| a sched IH];
    intros w w' c Hno Hlive Hidle Hnone Hc Hopen Hlen.
  - simpl. intros [= <-]. rewrite app_nil_r, take_ge by lia.
    unfold with_buffer. destruct w; simpl in *. subst.
    destruct c; simpl in *. by subst.
  - apply Forall_cons in Hno as [Ha Hno]. cbn [run].
    destruct (step w a) as [w1 |] eqn:Hstep; [| done].
    assert (Hw1 : exists s, submitted [a] = [s] /\
                  w1 = with_buffer w
                         (Some {| ch_cap := ch_cap c;
                                  ch_queue := take (ch_cap c) (ch_queue c ++ [s]);
                                  ch_closed := false |})).
    { destruct a as [parked s | | | | | k |]; try done.
      - exists s. split; [done |]. destruct parked.
        + revert Hstep. unfold step, select_send_default.
          rewrite Hlive, Hc, Hopen, Hidle.
          destruct (Nat.ltb_spec (length (ch_queue c)) (ch_cap c)) as [Hroom | Hfull].
          * intros [= <-]. rewrite take_ge; [done |]. rewrite length_app. simpl. lia.
          * simpl. destruct (ch_cap c =? 0)%nat; [done |]. intros [= <-].
            rewrite take_app_le, take_ge by lia.
            unfold with_buffer. destruct w; simpl in *. subst.
            destruct c; simpl in *. by subst.
        + rewrite (submit_unparked w c s Hlive Hc Hopen Hlen) in Hstep.
          by injection Hstep as <-.
      - revert Hstep. unfold step. by rewrite Hlive, Hidle.
      - revert Hstep. unfold step. by rewrite Hlive, Hidle.
      - revert Hstep. unfold step. by rewrite Hlive, Hidle.
      - revert Hstep. unfold step, run_flush. by rewrite Hlive, Hnone.
      - revert Hstep. unfold step. by rewrite Hlive, Hidle. }
    destruct Hw1 as (s & Hs & ->). intros Hrun.
    assert (Hsub : submitted (a :: sched) = [s] ++ submitted sched).
    { change (a :: sched) with ([a] ++ sched). unfold submitted in *.
      by rewrite flat_map_app, Hs. }
    pose proof (IH (with_buffer w
                      (Some {| ch_cap := ch_cap c;
                               ch_queue := take (ch_cap c) (ch_queue c ++ [s]);
                               ch_closed := false |}))
                  w' {| ch_cap := ch_cap c;
                           ch_queue := take (ch_cap c) (ch_queue c ++ [s]);
                           ch_closed := false |} Hno Hlive Hidle Hnone
                  eq_refl eq_refl) as Hend.
    cbn [ch_cap ch_queue] in Hend. rewrite length_take in Hend.
    specialize (Hend ltac:(lia) Hrun).
    rewrite Hend, Hsub. unfold with_buffer.
    cbn [w_buffer w_heap w_worker w_tasks w_db w_pool w_events w_crashed].
    by rewrite take_take_app, <- app_assoc.
Qed.

(** When [Start] returns an error it has already made the channel but has
    started no worker.  From then on, whatever is scheduled, records sent by
    handlers are queued until the queue is full and are otherwise dropped;
    none is ever received, flushed or persisted. *)
Theorem failed_Start_never_persists (cfg : Config) (sched : list Action)
    (w : World) (e : string) :
  (Start cfg).2 = StartErr e ->
  no_close sched ->
  run (Start cfg).1 sched = Some w ->
  w_worker w = WIdle /\ w_tasks w = [] /\ w_crashed w = None /\
  w_db w = DB cfg /\ w_events w = [] /\
  w_buffer w
  = Some {| ch_cap := Z.to_nat (BufferSize cfg);
            ch_queue := take (Z.to_nat (BufferSize cfg)) (submitted sched);
            ch_closed := false |}.
Proof.
  intros Herr Hno Hrun.
  assert (Hstart : exists pool,
            (Start cfg).1
            = {| w_buffer := Some {| ch_cap := Z.to_nat (BufferSize cfg);
                                     ch_queue := []; ch_closed := false |};
                 w_heap := []; w_worker := WIdle; w_tasks := [];
                 w_db := DB cfg; w_pool := pool; w_events := [];
                 w_crashed := None |}).
  { unfold Start, makechan in *.
    destruct (BufferSize cfg <? 0); [done |].
    destruct (db_sql_err (DB cfg)); [by eexists |].
    destruct (db_migrate_err (DB cfg)); [by eexists | done]. }
  destruct Hstart as [pool Hstart]. rewrite Hstart in Hrun.
  eapply idle_run in Hrun; [| exact Hno | reflexivity | reflexivity | reflexivity
                            | reflexivity | reflexivity | simpl; lia].
  by rewrite Hrun.
Qed.

Lemma failed_Start_witness :
  let db := {| db_sql_err := None; db_migrate_err := Some "no such table";
               db_oracle := fun _ _ => DbOk; db_calls := 0; db_rows := [] |} in
  let cfg := example_config 2 100 db in
  let sched := map (ASubmit false) (samples 3) in
  ((Start cfg).2 = StartErr "no such table" /\ no_close sched /\
   run (Start cfg).1 sched = Some (reached cfg sched)) /\
  w_worker (reached cfg sched) = WIdle /\ w_tasks (reached cfg sched) = [] /\
  w_crashed (reached cfg sched) = None /\
  w_db (reached cfg sched) = DB cfg /\ w_events (reached cfg sched) = [] /\
  w_buffer (reached cfg sched)
  = Some {| ch_cap := Z.to_nat (BufferSize cfg);
            ch_queue := take (Z.to_nat (BufferSize cfg)) (submitted sched);
            ch_closed := false |}.
Proof.
  intros db cfg sched.
  assert (H0 : (Start cfg).2 = StartErr "no such table") by reflexivity.
  assert (H1 : no_close sched) by (repeat constructor; discriminate).
  assert (H2 : run (Start cfg).1 sched = Some (reached cfg sched))
    by (vm_compute; reflexivity).
  split; [exact (conj H0 (conj H1 H2)) |].
  exact (failed_Start_never_persists cfg sched (reached cfg sched)
           "no such table" H0 H1 H2).
Defined.


(** Shutdown drains the queue.  Once the channel is closed, the worker's
    receives still deliver the records that were queued, in order, and only
    then report the close; the worker then hands its batch, the queued
    records included, to one flush goroutine and returns.  (Stated for a
    queue that fits the current batch; nothing is written by the worker
    itself.) *)
Theorem shutdown_drains_queue_into_last_flush (cfg : Config)
    (sched : list Action) (w : World) (bs : Z) (buf : slice) (c : chan) :
  0 <= BufferSize cfg ->
  run (Start cfg).1 sched = Some w ->
  w_crashed w = None ->
  w_worker w = WLoop bs buf ->
  w_buffer w = Some c ->
  ch_closed c = true ->
  Z.of_nat (length (slice_read (w_heap w) buf ++ ch_queue c)) < BatchSize cfg ->
  exists w',
    run w (replicate (length (ch_queue c)) ARecv ++ [ARecv; AWorkerReturn])
    = Some w' /\
    w_worker w' = WReturned /\ w_crashed w' = None /\
    w_db w' = w_db w /\ w_events w' = w_events w /\
    w_buffer w' = Some {| ch_cap := ch_cap c; ch_queue := []; ch_closed := true |} /\
    (slice_read (w_heap w) buf ++ ch_queue c = [] -> w_tasks w' = w_tasks w) /\
    (slice_read (w_heap w) buf ++ ch_queue c <> [] ->
     exists t, w_tasks w' = w_tasks w ++ [t] /\
               slice_read (w_heap w') t = slice_read (w_heap w) buf ++ ch_queue c).
Proof.
  intros Hsize Hrun Hlive Hw Hc Hclosed Hlt.
  pose proof (reached_inv cfg sched w Hsize Hrun) as Hinv.
  destruct (inv_loop _ _ Hinv bs buf Hw) as [-> _].
  destruct (recv_below cfg (ch_queue c) w (BatchSize cfg) buf c [] Hinv Hlive Hw Hc
              (eq_sym (app_nil_r _)) Hlt)
    as (w1 & buf1 & Hrun1 & Hinv1 & Hlive1 & Hc1 & Hdb1 & Hev1 & Hw1 & Hread1 & Ht1).
  destruct (inv_loop _ _ Hinv1 _ buf1 Hw1) as [_ Hok1].
  pose proof (slice_read_length _ _ Hok1) as Hlen1.
  exists (worker_return (worker_on_closed w1 buf1)).
  rewrite run_app, Hrun1. cbn [run].
  assert (Hstep : step w1 ARecv = Some (worker_on_closed w1 buf1)).
  { unfold step. rewrite Hlive1, Hw1. unfold chanrecv. rewrite Hc1. simpl.
    by rewrite Hclosed. }
  assert (Hret : step (worker_on_closed w1 buf1) AWorkerReturn
                 = Some (worker_return (worker_on_closed w1 buf1))).
  { unfold step, worker_on_closed. simpl. by rewrite Hlive1. }
  rewrite Hstep, Hret. split; [done |]. unfold worker_return, worker_on_closed. simpl.
  split; [done |]. split; [done |]. split; [done |]. split; [done |].
  split; [by rewrite Hc1, Hclosed |].
  rewrite <- Hread1, Ht1.
  destruct (Nat.ltb_spec 0 (sl_len buf1)) as [Hpos | Hzero].
  - split.
    + intros Hnil. rewrite Hnil in Hlen1. simpl in Hlen1. lia.
    + intros _. exists buf1.
      destruct (flush_cases (w_tasks w) buf1) as [[? _] | [_ ->]]; [lia | done].
  - split; [done |]. intros Hne.
    destruct (slice_read (w_heap w1) buf1); [done | simpl in Hlen1; lia].
Qed.

Lemma shutdown_drains_witness :
  let cfg := example_config 1000 100 (constant_db DbOk) in
  let sched := AWorkerBegin :: map (ASubmit false) (samples 3) ++ [ARecv; AClose] in
  let w := reached cfg sched in
  let buf := {| sl_arr := 0; sl_len := 1; sl_cap := 200 |} in
  let c := {| ch_cap := 1000; ch_queue := [sample 1; sample 2];
              ch_closed := true |} in
  (0 <= BufferSize cfg /\ run (Start cfg).1 sched = Some w /\
   w_crashed w = None /\ w_worker w = WLoop 100 buf /\ w_buffer w = Some c /\
   ch_closed c = true /\
   Z.of_nat (length (slice_read (w_heap w) buf ++ ch_queue c)) < BatchSize cfg) /\
  exists w',
    run w (replicate (length (ch_queue c)) ARecv ++ [ARecv; AWorkerReturn])
    = Some w' /\
    w_worker w' = WReturned /\ w_crashed w' = None /\
    w_db w' = w_db w /\ w_events w' = w_events w /\
    w_buffer w' = Some {| ch_cap := ch_cap c; ch_queue := []; ch_closed := true |} /\
    (slice_read (w_heap w) buf ++ ch_queue c = [] -> w_tasks w' = w_tasks w) /\
    (slice_read (w_heap w) buf ++ ch_queue c <> [] ->
     exists t, w_tasks w' = w_tasks w ++ [t] /\
               slice_read (w_heap w') t = slice_read (w_heap w) buf ++ ch_queue c).
Proof.
  intros cfg sched w buf c.
  assert (H0 : 0 <= BufferSize cfg) by (vm_compute; discriminate).
  assert (H1 : run (Start cfg).1 sched = Some w) by (vm_compute; reflexivity).
  assert (H2 : w_crashed w = None) by (vm_compute; reflexivity).
  assert (H3 : w_worker w = WLoop 100 buf) by (vm_compute; reflexivity).
  assert (H4 : w_buffer w = Some c) by (vm_compute; reflexivity).
  assert (H5 : ch_closed c = true) by reflexivity.
  assert (H6 : Z.of_nat (length (slice_read (w_heap w) buf ++ ch_queue c))
               < BatchSize cfg) by (vm_compute; reflexivity).
  split; [exact (conj H0 (conj H1 (conj H2 (conj H3 (conj H4 (conj H5 H6)))))) |].
  exact (shutdown_drains_queue_into_last_flush cfg sched w 100 buf c
           H0 H1 H2 H3 H4 H5 H6).
Defined.

(** ** The pipeline end to end *)

(** A waiting flush goroutine run against a healthy collaborator persists
    what its slice reads at that moment. *)
Lemma drain_one_healthy (w : World) (t : slice) :
  w_crashed w = None -> w_tasks w = [t] -> healthy (w_db w) ->
  exists w',
    drain w = Some w' /\
    w_crashed w' = None /\ w_tasks w' = [] /\ w_worker w' = w_worker w /\
    w_buffer w' = w_buffer w /\ w_heap w' = w_heap w /\ healthy (w_db w') /\
    db_rows (w_db w') = db_rows (w_db w) ++ slice_read (w_heap w) t.
Proof.
  intros Hlive Ht Hdb.
  destruct (flush_goroutine_healthy (w_db w) (slice_read (w_heap w) t) Hdb)
    as (db' & Hgo & Hrows & _ & Hdb'). unfold drain. rewrite Ht. cbn [length replicate run].
  unfold step, run_flush. rewrite Hlive, Ht. cbn [lookup list_lookup].
  rewrite Hgo. eexists. split; [reflexivity |]. simpl. done.
Qed.

(** One record fed to a quiet pipeline (empty queue, nothing waiting). *)
Lemma feed_quiet (cfg : Config) (w : World) (buf : slice) (c : chan) (r : Step) :
  world_inv cfg w -> w_crashed w = None ->
  w_worker w = WLoop (BatchSize cfg) buf -> w_tasks w = [] ->
  w_buffer w = Some c -> ch_queue c = [] -> ch_closed c = false ->
  (0 < ch_cap c)%nat -> healthy (w_db w) ->
  Z.of_nat (length (slice_read (w_heap w) buf)) < BatchSize cfg ->
  exists w' buf',
    feed w r = Some w' /\
    world_inv cfg w' /\ w_crashed w' = None /\
    w_worker w' = WLoop (BatchSize cfg) buf' /\ w_tasks w' = [] /\
    w_buffer w' = Some c /\ healthy (w_db w') /\
    db_rows (w_db w') ++ slice_read (w_heap w') buf'
    = db_rows (w_db w) ++ slice_read (w_heap w) buf ++ [r] /\
    Z.of_nat (length (slice_read (w_heap w') buf')) < BatchSize cfg.
Proof.
  intros Hinv Hlive Hw Hnone Hc Hq Hopen Hcap Hdb Hlt.
  assert (Hsend : step w (ASubmit false r)
                  = Some (with_buffer w
                            (Some {| ch_cap := ch_cap c; ch_queue := [r];
                                     ch_closed := false |}))).
  { rewrite (submit_unparked w c r Hlive Hc Hopen) by (rewrite Hq; simpl; lia).
    rewrite Hq. simpl. rewrite take_ge; [done | simpl; lia]. }
  pose proof (step_inv _ _ _ _ Hinv Hsend) as Hinv1.
  destruct (recv_record cfg _ (BatchSize cfg) buf _ r [] Hinv1 Hlive Hw
              eq_refl eq_refl)
    as (w2 & buf2 & Hrecv & Hinv2 & Hlive2 & Hc2 & Hdb2 & _ & Hw2 & Hcase).
  cbn zeta in Hcase. cbn [w_heap with_buffer w_tasks] in Hcase.
  unfold feed. cbn [run]. rewrite Hsend, Hrecv.
  assert (Hback : w_buffer w2 = Some c).
  { rewrite Hc2. simpl. destruct c; simpl in *. by subst. }
  rewrite length_app in Hcase. cbn [length] in Hcase.
  destruct (Z.geb_spec (Z.of_nat (length (slice_read (w_heap w) buf) + 1))
              (BatchSize cfg)) as [Hge | Hbelow].
  - destruct Hcase as (Hempty & t & Htasks & Hread).
    rewrite Hnone in Htasks. simpl in Htasks.
    destruct (drain_one_healthy w2 t Hlive2 Htasks) as
      (w3 & Hdrain & Hlive3 & Hnone3 & Hw3 & Hc3 & Hheap3 & Hdb3 & Hrows3).
    { by rewrite Hdb2. }
    exists w3, buf2. split; [exact Hdrain |].
    assert (Hinv3 : world_inv cfg w3).
    { unfold drain in Hdrain. eapply run_inv; [exact Hinv2 | exact Hdrain]. }
    split; [done |]. split; [done |]. split; [congruence |]. split; [done |].
    split; [congruence |]. split; [done |].
    rewrite Hheap3, Hempty, Hrows3, Hread, Hdb2. simpl.
    split; [by rewrite app_nil_r | lia].
  - destruct Hcase as (Hread & Htasks).
    exists w2, buf2. unfold drain. rewrite Htasks, Hnone. simpl.
    split; [done |]. split; [done |]. split; [done |]. split; [done |].
    split; [done |]. split; [done |]. split; [by rewrite Hdb2 |].
    rewrite Hread, Hdb2, length_app. simpl. split; [done | lia].
Qed.

Lemma feed_all_quiet (cfg : Config) (rs : list Step) :
  forall w buf c,
    world_inv cfg w -> w_crashed w = None ->
    w_worker w = WLoop (BatchSize cfg) buf -> w_tasks w = [] ->
    w_buffer w = Some c -> ch_queue c = [] -> ch_closed c = false ->
    (0 < ch_cap c)%nat -> healthy (w_db w) ->
    Z.of_nat (length (slice_read (w_heap w) buf)) < BatchSize cfg ->
    exists w' buf',
      feed_all w rs = Some w' /\
      world_inv cfg w' /\ w_crashed w' = None /\
      w_worker w' = WLoop (BatchSize cfg) buf' /\ w_tasks w' = [] /\
      w_buffer w' = Some c /\ healthy (w_db w') /\
      db_rows (w_db w') ++ slice_read (w_heap w') buf'
      = db_rows (w_db w) ++ slice_read (w_heap w) buf ++ rs /\
      Z.of_nat (length (slice_read (w_heap w') buf')) < BatchSize cfg.
Proof.
  induction rs as [| r rs IH];
    intros w buf c Hinv Hlive Hw Hnone Hc Hq Hopen Hcap Hdb Hlt.
  - exists w, buf. simpl. by rewrite app_nil_r.
  - destruct (feed_quiet cfg w buf c r Hinv Hlive Hw Hnone Hc Hq Hopen Hcap Hdb Hlt)
      as (w1 & buf1 & Hfeed & Hinv1 & Hlive1 & Hw1 & Hnone1 & Hc1 & Hdb1
          & Hrows1 & Hlt1).
    destruct (IH w1 buf1 c Hinv1 Hlive1 Hw1 Hnone1 Hc1 Hq Hopen Hcap Hdb1 Hlt1)
      as (w' & buf' & Hall & Hinv' & Hlive' & Hw' & Hnone' & Hc' & Hdb'
          & Hrows' & Hlt').
    exists w', buf'. cbn [feed_all]. rewrite Hfeed.
    do 7 (split; [done |]). split; [| done].
    rewrite Hrows', app_assoc, Hrows1, <- !app_assoc. done.
Qed.

(** The state right after the worker has entered its loop. *)
Lemma begun (cfg : Config) (w0 : World) :
  run (Start cfg).1 [AWorkerBegin] = Some w0 -> w_crashed w0 = None ->
  0 <= BufferSize cfg /\
  exists buf,
    w_worker w0 = WLoop (BatchSize cfg) buf /\
    slice_read (w_heap w0) buf = [] /\ w_tasks w0 = [] /\ w_db w0 = DB cfg /\
    w_buffer w0 = Some {| ch_cap := Z.to_nat (BufferSize cfg); ch_queue := [];
                          ch_closed := false |}.
Proof.
  cbn [run]. unfold Start, makechan.
  destruct (Z.ltb_spec (BufferSize cfg) 0); [done |].
  destruct (db_sql_err (DB cfg)); [done |].
  destruct (db_migrate_err (DB cfg)); [done |].
  unfold step. cbn [fst w_crashed w_worker]. unfold worker_begin.
  destruct (FlushInterval cfg <=? 0); [by intros [= <-] |].
  unfold makeslice. destruct (wrap64 (BatchSize cfg * 2) <? 0); [by intros [= <-] |].
  intros [= <-] _. split; [done |]. eexists. by repeat split.
Qed.

(** End to end, when every flush runs before the next record arrives and
    the collaborator is healthy: after any records [rs] have gone through,
    the rows persisted followed by the worker's current batch are exactly
    [rs] in the order sent, with no record lost or repeated; one tick and
    its flush then leave exactly [rs] in the store. *)
Theorem eager_pipeline_persists_every_record_in_order (cfg : Config)
    (w0 : World) (rs : list Step) :
  0 < BufferSize cfg ->
  1 <= BatchSize cfg ->
  healthy (DB cfg) ->
  run (Start cfg).1 [AWorkerBegin] = Some w0 ->
  w_crashed w0 = None ->
  exists w buf,
    feed_all w0 rs = Some w /\
    w_crashed w = None /\ w_tasks w = [] /\
    w_worker w = WLoop (BatchSize cfg) buf /\
    db_rows (w_db w) ++ slice_read (w_heap w) buf = db_rows (DB cfg) ++ rs /\
    Z.of_nat (length (slice_read (w_heap w) buf)) < BatchSize cfg /\
    exists w1 w',
      step w ATick = Some w1 /\ drain w1 = Some w' /\
      w_crashed w' = None /\ w_tasks w' = [] /\
      db_rows (w_db w') = db_rows (DB cfg) ++ rs.
Proof.
  intros Hsize Hbs Hdb Hrun Hlive.
  assert (Hinv0 : world_inv cfg w0) by (apply (reached_inv cfg [AWorkerBegin] w0); [lia | done]).
  destruct (begun cfg w0 Hrun Hlive) as (_ & buf0 & Hw0 & Hread0 & Hnone0 & Hdb0 & Hc0).
  destruct (feed_all_quiet cfg rs w0 buf0 _ Hinv0 Hlive Hw0 Hnone0 Hc0)
    as (w & buf & Hall & Hinv & Hlive' & Hw & Hnone & Hc & Hhealthy & Hrows & Hlt);
    simpl; try done; try lia.
  { by rewrite Hdb0. }
  { rewrite Hread0. simpl. lia. }
  rewrite Hread0, Hdb0 in Hrows. simpl in Hrows.
  exists w, buf. do 6 (split; [done |]).
  destruct (inv_loop _ _ Hinv _ buf Hw) as [_ Hok].
  pose proof (slice_read_length _ _ Hok) as Hlen.
  assert (Htick : step w ATick = Some (worker_on_tick w (BatchSize cfg) buf))
    by (unfold step; by rewrite Hlive', Hw).
  exists (worker_on_tick w (BatchSize cfg) buf). unfold worker_on_tick in *.
  destruct (Nat.ltb_spec 0 (sl_len buf)) as [Hpos | Hzero].
  - match goal with |- exists w', _ /\ drain ?x = _ /\ _ => set (w1 := x) in * end.
    destruct (drain_one_healthy w1 buf) as
      (w' & Hdrain & Hlive3 & Hnone3 & _ & _ & _ & _ & Hrows3); [done | | done |].
    { unfold w1. simpl. rewrite Hnone.
      destruct (flush_cases [] buf) as [[? _] | [_ ->]]; [lia | done]. }
    exists w'. do 4 (split; [done |]). by rewrite Hrows3.
  - exists w. split; [done |]. unfold drain. rewrite Hnone. simpl.
    do 3 (split; [done |]). rewrite <- Hrows.
    destruct (slice_read (w_heap w) buf); [by rewrite app_nil_r | simpl in Hlen; lia].
Qed.

Lemma eager_pipeline_witness :
  let cfg := example_config 10 2 (constant_db DbOk) in
  let w0 := reached cfg [AWorkerBegin] in
  (0 < BufferSize cfg /\ 1 <= BatchSize cfg /\ healthy (DB cfg) /\
   run (Start cfg).1 [AWorkerBegin] = Some w0 /\ w_crashed w0 = None) /\
  exists w buf,
    feed_all w0 (samples 5) = Some w /\
    w_crashed w = None /\ w_tasks w = [] /\
    w_worker w = WLoop (BatchSize cfg) buf /\
    db_rows (w_db w) ++ slice_read (w_heap w) buf = db_rows (DB cfg) ++ samples 5 /\
    Z.of_nat (length (slice_read (w_heap w) buf)) < BatchSize cfg /\
    exists w1 w',
      step w ATick = Some w1 /\ drain w1 = Some w' /\
      w_crashed w' = None /\ w_tasks w' = [] /\
      db_rows (w_db w') = db_rows (DB cfg) ++ samples 5.
Proof.
  intros cfg w0.
  assert (H0 : 0 < BufferSize cfg) by reflexivity.
  assert (H1 : 1 <= BatchSize cfg) by (vm_compute; discriminate).
  assert (H2 : healthy (DB cfg)) by (intros n b; reflexivity).
  assert (H3 : run (Start cfg).1 [AWorkerBegin] = Some w0) by (vm_compute; reflexivity).
  assert (H4 : w_crashed w0 = None) by (vm_compute; reflexivity).
  split; [exact (conj H0 (conj H1 (conj H2 (conj H3 H4)))) |].
  exact (eager_pipeline_persists_every_record_in_order cfg w0 (samples 5)
           H0 H1 H2 H3 H4).
Defined.


(** ** The default trace ID, the options and the example middlewares *)

Lemma append_same_length (a b c d : string) :
  String.length c = String.length d -> a +:+ c = b +:+ d -> a = b /\ c = d.
Proof.
  revert b. induction a as [| x a IH]; intros [| y b] Hlen Heq.
  - change (c = d) in Heq. done.
  - apply (f_equal String.length) in Heq.
    rewrite !length_append_string in Heq. simpl in Heq. lia.
  - apply (f_equal String.length) in Heq.
    rewrite !length_append_string in Heq. simpl in Heq. lia.
  - change (String x (a +:+ c) = String y (b +:+ d)) in Heq.
    injection Heq as -> Heq. destruct (IH b Hlen Heq) as [-> ->]. done.
Qed.

Lemma hexdigit_inj (m n : Z) :
  0 <= m < 16 -> 0 <= n < 16 -> hexdigit m = hexdigit n -> m = n.
Proof.
  intros Hm Hn Heq.
  assert (Hall : forallb (fun i =>
                   forallb (fun j =>
                     implb (Ascii.eqb (hexdigit (Z.of_nat i)) (hexdigit (Z.of_nat j)))
                       (Nat.eqb i j)) (seq 0 16)) (seq 0 16) = true)
    by (vm_compute; reflexivity).
  rewrite forallb_forall in Hall.
  specialize (Hall (Z.to_nat m)). rewrite forallb_forall in Hall.
  specialize (Hall ltac:(apply in_seq; lia) (Z.to_nat n) ltac:(apply in_seq; lia)).
  rewrite !Z2Nat.id in Hall by lia. rewrite Heq, Ascii.eqb_refl in Hall.
  simpl in Hall. apply Nat.eqb_eq in Hall. lia.
Qed.

Lemma EncodeToString_inj (bs1 bs2 : list Z) :
  Forall (fun b => 0 <= b < 256) bs1 -> Forall (fun b => 0 <= b < 256) bs2 ->
  EncodeToString bs1 = EncodeToString bs2 -> bs1 = bs2.
Proof.
  intros H1. revert bs2.
  induction H1 as [| b1 bs1 Hb1 _ IH]; intros bs2 H2 Heq.
  - by destruct bs2.
  - destruct H2 as [| b2 bs2 Hb2 H2]; [done |].
    simpl in Heq. injection Heq as Hhi Hlo Hrest.
    rewrite (IH bs2 H2 Hrest). f_equal.
    assert (Hnib : forall b, 0 <= b < 256 ->
                     0 <= Z.shiftr b 4 < 16 /\ 0 <= Z.land b 15 < 16 /\
                     b = 16 * Z.shiftr b 4 + Z.land b 15).
    { intros b Hb. rewrite Z.shiftr_div_pow2 by lia. change (2 ^ 4) with 16.
      change 15 with (Z.ones 4). rewrite Z.land_ones by lia. change (2 ^ 4) with 16.
      split; [split; [apply Z.div_pos; lia | apply Z.div_lt_upper_bound; lia] |].
      split; [apply Z.mod_pos_bound; lia | apply Z.div_mod; lia]. }
    destruct (Hnib b1 Hb1) as (Hh1 & Hl1 & E1).
    destruct (Hnib b2 Hb2) as (Hh2 & Hl2 & E2).
    apply hexdigit_inj in Hhi; [| done | done].
    apply hexdigit_inj in Hlo; [| done | done].
    lia.
Qed.

(** The default trace ID can be read back: since the digest part always has
    64 characters, two IDs are equal exactly when the user IDs are equal and
    the tokens have the same digest, also for user IDs that contain a
    colon. *)
Theorem default_trace_id_identifies_user_and_digest (u1 t1 u2 t2 : string) :
  defaultTraceIDGenerator u1 t1 = defaultTraceIDGenerator u2 t2 <->
  u1 = u2 /\ Sha256.Sum256 t1 = Sha256.Sum256 t2.
Proof.
  unfold defaultTraceIDGenerator. cbn zeta. split.
  - intros Heq.
    destruct (EncodeToString_spec _ (Sum256_range t1)) as [Hl1 _].
    destruct (EncodeToString_spec _ (Sum256_range t2)) as [Hl2 _].
    rewrite Sum256_length in Hl1, Hl2.
    apply append_same_length in Heq as [-> Heq].
    + split; [done |].
      apply append_same_length in Heq as [_ Heq]; [| by rewrite Hl1, Hl2].
      apply EncodeToString_inj; [apply Sum256_range | apply Sum256_range | done].
    + rewrite !length_append_string. by rewrite Hl1, Hl2.
  - by intros [-> ->].
Qed.

(** A user ID with a colon in it is not confused with a shorter one. *)
Example trace_ids_of_colon_users :
  defaultTraceIDGenerator "a:b" "c" <> defaultTraceIDGenerator "a" "c".
Proof. intros Heq. vm_compute in Heq. discriminate. Qed.


(** ** Options and the default middleware *)

(** Options are applied in order, so the last one of a kind is the one in
    force, and it leaves the other three functions as the options before it
    set them; without options the four defaults are in force. *)
Theorem last_option_of_a_kind_wins (options : list MiddlewareOption)
    (u t : Context -> string) (g : string -> string -> string)
    (f : Context -> bool) :
  middleware_config []
  = {| UserIDExtractor := defaultUserIDExtractor;
       TokenExtractor := defaultTokenExtractor;
       TraceIDGenerator := defaultTraceIDGenerator;
       Filter := defaultFilter |} /\
  middleware_config (options ++ [WithUserIDExtractor u])
  = {| UserIDExtractor := u;
       TokenExtractor := TokenExtractor (middleware_config options);
       TraceIDGenerator := TraceIDGenerator (middleware_config options);
       Filter := Filter (middleware_config options) |} /\
  middleware_config (options ++ [WithTokenExtractor t])
  = {| UserIDExtractor := UserIDExtractor (middleware_config options);
       TokenExtractor := t;
       TraceIDGenerator := TraceIDGenerator (middleware_config options);
       Filter := Filter (middleware_config options) |} /\
  middleware_config (options ++ [WithTraceIDGenerator g])
  = {| UserIDExtractor := UserIDExtractor (middleware_config options);
       TokenExtractor := TokenExtractor (middleware_config options);
       TraceIDGenerator := g;
       Filter := Filter (middleware_config options) |} /\
  middleware_config (options ++ [WithFilter f])
  = {| UserIDExtractor := UserIDExtractor (middleware_config options);
       TokenExtractor := TokenExtractor (middleware_config options);
       TraceIDGenerator := TraceIDGenerator (middleware_config options);
       Filter := f |} /\
  (forall f', middleware_config (options ++ [WithFilter f'; WithFilter f])
              = middleware_config (options ++ [WithFilter f])) /\
  middleware_config (options ++ [WithFilter f; WithUserIDExtractor u])
  = middleware_config (options ++ [WithUserIDExtractor u; WithFilter f]).
Proof.
  unfold middleware_config. rewrite !fold_left_app. simpl.
  repeat split; intros; rewrite !fold_left_app; reflexivity.
Qed.

(** [Middleware()], the handler without options: a request is recorded
    exactly when its query has a non-empty [user_id] and a non-empty
    [access_token]; the record carries the user ID as sent and a trace ID of
    the user ID, a colon and 64 hex digits.  Whatever the options, no record
    has an empty user ID, and a filter that refuses everything turns the
    middleware off. *)
Theorem default_middleware_reads_query_values (c : Context) :
  (handler_step (middleware_config []) c = None <->
   ctx_query c "user_id" = EmptyString \/ ctx_query c "access_token" = EmptyString) /\
  (forall s,
     handler_step (middleware_config []) c = Some s ->
     UserID s = ctx_query c "user_id" /\
     TraceID s = UserID s +:+ ":"
                 +:+ EncodeToString (Sha256.Sum256 (ctx_query c "access_token")) /\
     String.length (TraceID s) = (String.length (UserID s) + 65)%nat /\
     Path s = ctx_fullpath c /\ Method s = ctx_method c /\
     StatusCode s = ctx_status c /\ LatencyMs s = ctx_latency_ms c /\
     IP s = ctx_clientip c /\ UserAgent s = ctx_useragent c /\
     CreatedAt s = ctx_now_unix c) /\
  (forall options s,
     handler_step (middleware_config options) c = Some s ->
     UserID s <> EmptyString) /\
  (forall options,
     handler_step (middleware_config (options ++ [WithFilter (fun _ => false)])) c
     = None).
Proof.
  split; [| split; [| split]].
  - unfold handler_step, middleware_config. simpl.
    unfold defaultUserIDExtractor, defaultTokenExtractor.
    destruct (String.eqb_spec (ctx_query c "user_id") EmptyString) as [-> | Hu];
      simpl; [by split; [left |] |].
    destruct (String.eqb_spec (ctx_query c "access_token") EmptyString) as [-> | Ht];
      simpl; [by split; [right |] |].
    split; [done | by intros [? | ?]].
  - intros s. unfold handler_step, middleware_config. simpl.
    unfold defaultUserIDExtractor, defaultTokenExtractor.
    destruct (_ || _); [done |]. intros [= <-]. simpl.
    destruct (EncodeToString_spec _ (Sum256_range (ctx_query c "access_token")))
      as [Hlen _].
    rewrite Sum256_length in Hlen.
    unfold defaultTraceIDGenerator. rewrite !length_append_string, Hlen. simpl.
    repeat split; try done; lia.
  - intros options s. unfold handler_step.
    destruct (negb _); [done |].
    destruct (String.eqb_spec (UserIDExtractor (middleware_config options) c)
                EmptyString) as [? | Hne]; simpl; [done |].
    destruct (String.eqb _ _); [done |]. by intros [= <-].
  - intros options. unfold handler_step, middleware_config.
    by rewrite fold_left_app.
Qed.


(** ** The example middlewares *)

Lemma append_cons (x : ascii) (a b : string) :
  String x a +:+ b = String x (a +:+ b).
Proof. reflexivity. Qed.

Lemma append_nil_r (s : string) : s +:+ EmptyString = s.
Proof. induction s as [| a s IH]; [done |]. rewrite append_cons. by f_equal. Qed.

Lemma prefix_append (p x : string) : String.prefix p (p +:+ x) = true.
Proof.
  induction p as [| a p IH]; [by destruct x |].
  rewrite append_cons. cbn [String.prefix].
  destruct (ascii_dec a a); [exact IH | done].
Qed.

Lemma string_from_append (p x : string) : string_from (String.length p) (p +:+ x) = x.
Proof. induction p as [| a p IH]; [done | exact IH]. Qed.

Lemma prefix_inv (p s : string) :
  String.prefix p s = true -> s = p +:+ string_from (String.length p) s.
Proof.
  revert s. induction p as [| a p IH]; intros s Hp; [done |].
  destruct s as [| b s]; [done |]. cbn [String.prefix] in Hp.
  destruct (ascii_dec a b) as [-> |]; [| done].
  rewrite append_cons. cbn [String.length string_from]. by rewrite <- (IH s Hp).
Qed.

(** [Split] never returns an empty slice; its first piece has no separator
    in it, and the string is that piece alone or that piece, the separator
    and the rest. *)
Lemma Split_first (s : string) (sep : ascii) :
  exists piece pieces,
    Split s sep = piece :: pieces /\
    ~ In sep (list_ascii_of_string piece) /\
    (s = piece \/ exists rest, s = piece +:+ String sep rest).
Proof.
  induction s as [| ch s (piece & pieces & Heq & Hno & Hcase)].
  - exists EmptyString, []. split; [done |]. split; [by intros [] | by left].
  - cbn [Split]. destruct (Ascii.eqb_spec ch sep) as [-> | Hne].
    + exists EmptyString, (Split s sep). split; [done |].
      split; [by intros [] | right; by exists s].
    + rewrite Heq. exists (String ch piece), pieces. split; [done |].
      split; [by intros [? | ?] |].
      destruct Hcase as [-> | [rest ->]]; [by left | right; by exists rest].
Qed.

Lemma Split_of_first (piece rest : string) (sep : ascii) :
  ~ In sep (list_ascii_of_string piece) ->
  (exists pieces, Split piece sep = piece :: pieces) /\
  (exists pieces, Split (piece +:+ String sep rest) sep = piece :: pieces).
Proof.
  induction piece as [| ch piece IH]; intros Hno.
  - split; [by exists [] |]. change (EmptyString +:+ String sep rest)
      with (String sep rest). cbn [Split]. rewrite Ascii.eqb_refl. by eexists.
  - assert (Hne : ch <> sep) by (intros ->; apply Hno; by left).
    destruct IH as [[ps1 H1] [ps2 H2]]; [intros Hin; apply Hno; by right |].
    rewrite append_cons. cbn [Split].
    destruct (Ascii.eqb_spec ch sep); [done |]. rewrite H1, H2.
    split; by eexists.
Qed.

(** The JWT example.  The user ID its extractor returns is the part of the
    bearer token before the first dot, so it has no dot in it and the token
    begins with it; the [len(parts) > 0] test never fails, and the extractor
    returns the empty string only for a header that is not a bearer header
    or whose token is empty or begins with a dot.  A request is therefore
    recorded exactly when its path begins with [/api/] and its header is
    [Bearer ] followed by a non-empty dot-free user ID and then nothing or a
    dot and anything. *)
Theorem jwt_user_id_is_first_segment_of_token (auth path : string) :
  (jwtTokenExtractor auth <> EmptyString ->
   auth = "Bearer " +:+ jwtTokenExtractor auth) /\
  ~ In "."%char (list_ascii_of_string (jwtUserIDExtractor auth)) /\
  (jwtTokenExtractor auth = jwtUserIDExtractor auth \/
   exists rest,
     jwtTokenExtractor auth = jwtUserIDExtractor auth +:+ String "." rest) /\
  (jwt_traced auth path = true <->
   (exists p, path = "/api/" +:+ p) /\
   exists u rest,
     u <> EmptyString /\ ~ In "."%char (list_ascii_of_string u) /\
     (rest = EmptyString \/ exists r, rest = String "." r) /\
     auth = "Bearer " +:+ u +:+ rest).
Proof.
  assert (Hfacts :
    (jwtTokenExtractor auth <> EmptyString ->
     auth = "Bearer " +:+ jwtTokenExtractor auth) /\
    ~ In "."%char (list_ascii_of_string (jwtUserIDExtractor auth)) /\
    (jwtTokenExtractor auth = jwtUserIDExtractor auth \/
     exists rest,
       jwtTokenExtractor auth = jwtUserIDExtractor auth +:+ String "." rest)).
  { unfold jwtTokenExtractor, jwtUserIDExtractor, TrimPrefix, HasPrefix.
    destruct (String.prefix "Bearer " auth) eqn:Hp.
    - pose proof (prefix_inv _ _ Hp) as Hauth.
      destruct (String.eqb_spec auth EmptyString) as [-> | _]; [done |].
      cbn zeta.
      destruct (Split_first (string_from (String.length "Bearer ") auth) ".")
        as (piece & pieces & -> & Hno & Hcase).
      cbn [length Nat.ltb Nat.leb lookup list_lookup default].
      split; [by intros _ |]. split; [done |].
      destruct Hcase as [Heq | [rest Heq]]; [by left | right; by exists rest].
    - destruct (String.eqb auth EmptyString); (split; [done |]);
        (split; [by intros [] | by left]). }
  destruct Hfacts as (Hauth & Hno & Hcase).
  split; [done |]. split; [done |]. split; [done |].
  unfold jwt_traced, jwtFilter, HasPrefix. split.
  - intros Htr. apply andb_prop in Htr as [Hpath Hboth].
    apply negb_true_iff, orb_false_elim in Hboth as [Hu Ht].
    apply String.eqb_neq in Hu, Ht.
    split; [eexists; exact (prefix_inv _ _ Hpath) |].
    exists (jwtUserIDExtractor auth).
    destruct Hcase as [Heq | [rest Heq]].
    + exists EmptyString. split; [done |]. split; [done |]. split; [by left |].
      rewrite append_nil_r. rewrite (Hauth Ht) at 1. by rewrite Heq.
    + exists (String "." rest). split; [done |]. split; [done |].
      split; [right; by eexists |].
      rewrite (Hauth Ht) at 1. by rewrite Heq.
  - intros [[p ->] (u & rest & Hu & Hnodot & Hrest & ->)].
    rewrite prefix_append. cbn [andb].
    apply negb_true_iff, orb_false_intro; apply String.eqb_neq.
    + unfold jwtUserIDExtractor, TrimPrefix, HasPrefix.
      rewrite prefix_append, string_from_append.
      destruct (String.eqb_spec ("Bearer " +:+ u +:+ rest) EmptyString); [done |].
      cbn zeta.
      destruct (Split_of_first u (match rest with String _ r => r | _ => rest end)
                  "." Hnodot) as [[ps1 H1] [ps2 H2]].
      destruct Hrest as [-> | [r ->]].
      * by rewrite append_nil_r, H1.
      * by rewrite H2.
    + unfold jwtTokenExtractor, TrimPrefix, HasPrefix.
      rewrite prefix_append, string_from_append.
      destruct u; done.
Qed.

Example jwt_example_requests :
  jwtUserIDExtractor "Bearer user123.eyJ0b2tlbiI6ImFiYzEyMyJ9.signature"
  = "user123"%string /\
  jwtTokenExtractor "Bearer user123.eyJ0b2tlbiI6ImFiYzEyMyJ9.signature"
  = "user123.eyJ0b2tlbiI6ImFiYzEyMyJ9.signature"%string /\
  jwt_traced "Bearer user123.eyJ0b2tlbiI6ImFiYzEyMyJ9.signature" "/api/jwt" = true /\
  jwt_traced "Bearer .payload.signature" "/api/jwt" = false /\
  jwt_traced "Bearer " "/api/jwt" = false /\
  jwt_traced "bearer user123.x.y" "/api/jwt" = false /\
  jwt_traced "Bearer user123" "/api" = false /\
  Split "a..b" "." = ["a"; EmptyString; "b"]%string /\
  Split EmptyString "." = [EmptyString].
Proof. vm_compute. by repeat split. Qed.

(** The filter of the fifth example matches by prefix: it accepts a path
    exactly when the path begins with one of the three important paths, so
    also a longer path such as [/api/users-export]; whatever it accepts the
    [/api/] filter of the JWT example accepts too. *)
Theorem important_paths_filter_matches_by_prefix (path : string) :
  (importantPathsFilter path = true <->
   exists rest,
     path = "/api/users" +:+ rest \/ path = "/api/orders" +:+ rest
     \/ path = "/api/payments" +:+ rest) /\
  (importantPathsFilter path = true -> jwtFilter path = true) /\
  (forall rest, importantPathsFilter ("/api/users" +:+ rest) = true).
Proof.
  assert (Hiff : importantPathsFilter path = true <->
                 exists rest,
                   path = "/api/users" +:+ rest \/ path = "/api/orders" +:+ rest
                   \/ path = "/api/payments" +:+ rest).
  { unfold importantPathsFilter, importantPaths, HasPrefix. cbn [existsb]. split.
    - intros H.
      apply orb_prop in H as [H | H]; [eexists; left; exact (prefix_inv _ _ H) |].
      apply orb_prop in H as [H | H];
        [eexists; right; left; exact (prefix_inv _ _ H) |].
      apply orb_prop in H as [H | H]; [| done].
      eexists; right; right; exact (prefix_inv _ _ H).
    - intros [rest [-> | [-> | ->]]]; rewrite ?prefix_append;
        by rewrite ?orb_true_r. }
  split; [exact Hiff |]. split.
  - intros H. apply Hiff in H as [rest [-> | [-> | ->]]]; reflexivity.
  - intros rest. unfold importantPathsFilter, importantPaths, HasPrefix.
    cbn [existsb]. by rewrite prefix_append.
Qed.

Example important_paths_examples :
  importantPathsFilter "/api/users" = true /\
  importantPathsFilter "/api/users-export" = true /\
  importantPathsFilter "/api/orders/17" = true /\
  importantPathsFilter "/api/user" = false /\
  importantPathsFilter "/stats" = false /\
  jwtFilter "/api/jwt" = true /\ importantPathsFilter "/api/jwt" = false.
Proof. vm_compute. by repeat split. Qed.
